(** * Olympic points by NHL franchise: the name normaliser and the aggregation core

    A shallow embedding of [olympics_nhl_points.py]: [normalize_name], the loop of
    [main] that merges the per-country player lists into [all_player_stats], the
    loop that rolls the players up per NHL team, and the final ranking.

    Python values are modelled as follows.
    - A [str] is the list of its Unicode code points.
    - An [int] is a [Z] (Python integers are unbounded).
    - A [dict] is the list of its items in insertion order, which is the order
      in which Python iterates it; a store to an existing key keeps the key's
      position, a store to a new key appends.
    - The dict literals of the script become records.

    Step 3 and the ranking of step 4 are given a second time on a heap of
    objects ([Heap]), where dicts and lists are reached through references
    and a store changes an object in place; this is where it is stated and
    proved that the step leaves its inputs alone. *)

From Stdlib Require Import List ZArith NArith Bool Lia Permutation Sorted.
From Stdlib Require Import String Ascii.
Import ListNotations.

Set Implicit Arguments.

Local Open Scope Z_scope.

(** ** Strings *)

Definition codepoint := N.
Definition str := list codepoint.

Definition str_eq_dec : forall a b : str, {a = b} + {a <> b} :=
  list_eq_dec N.eq_dec.

Definition str_eqb (a b : str) : bool :=
  if str_eq_dec a b then true else false.

(** An ASCII literal as a Python string. *)
Definition lit (s : string) : str :=
  map N_of_ascii (list_ascii_of_string s).

(** Truth value of a string in a condition: the empty string is false. *)
Definition truthy (s : str) : bool :=
  match s with [] => false | _ :: _ => true end.

(** ** The Unicode operations that [normalize_name] calls

    [unicodedata] and the string methods are library code; the script uses four
    of their operations. They are taken as an interface here; [UCD] below gives
    the instance built from the Unicode character database. *)

(** The general categories, the values of [unicodedata.category]. *)
Inductive Category : Set :=
  | Lu | Ll | Lt | Lm | Lo
  | Mn | Mc | Me
  | Nd | Nl | No
  | Pc | Pd | Ps | Pe | Pi | Pf | Po
  | Sm | Sc | Sk | So
  | Zs | Zl | Zp
  | Cc | Cf | Cs | Co | Cn.

Definition category_eq_dec : forall a b : Category, {a = b} + {a <> b}.
Proof. decide equality. Defined.

Definition category_eqb (a b : Category) : bool :=
  if category_eq_dec a b then true else false.

Class UnicodeData := {
  (** [unicodedata.normalize('NFD', s)] *)
  nfd : str -> str;
  (** [unicodedata.category(c)] *)
  category : codepoint -> Category;
  (** [s.lower()], a function of the whole string: the lowercase of U+03A3
      depends on its neighbours *)
  lower : str -> str;
  (** whether [c] separates words for [s.split()] *)
  isspace : codepoint -> bool
}.

(** U+0020, the separator in [' '.join(...)]. *)
Definition SPACE : codepoint := 0x20%N.

Section Normalize.
Context {U : UnicodeData}.

(** [s.split()]: the maximal runs of characters that are not whitespace. *)
Fixpoint split (s : str) : list str :=
  match s with
  | [] => []
  | c :: s' =>
      if isspace c then split s'
      else
        match s' with
        | [] => [[c]]
        | d :: _ =>
            if isspace d then [c] :: split s'
            else
              match split s' with
              | w :: ws => (c :: w) :: ws
              | [] => [[c]]
              end
        end
  end.

(** [sep.join(words)] *)
Fixpoint join (sep : str) (words : list str) : str :=
  match words with
  | [] => []
  | w :: ws =>
      match ws with
      | [] => w
      | _ :: _ => w ++ sep ++ join sep ws
      end
  end.

Definition normalize_name (name : str) : str :=
  let name := nfd name in
  let name := filter (fun char => negb (category_eqb (category char) Mn)) name in
  join [SPACE] (split (lower name)).

(** *** The normaliser in the words of the specification *)

(** Leading and trailing whitespace trimmed. *)
Fixpoint trim_left (s : str) : str :=
  match s with
  | [] => []
  | c :: s' => if isspace c then trim_left s' else s
  end.

Fixpoint trim_right (s : str) : str :=
  match s with
  | [] => []
  | c :: s' =>
      match trim_right s' with
      | [] => if isspace c then [] else [c]
      | r => c :: r
      end
  end.

Definition trim (s : str) : str := trim_right (trim_left s).

(** Every run of whitespace replaced by a single space: a whitespace
    character followed by another one is dropped, the last of a run becomes
    U+0020. *)
Fixpoint squeeze (s : str) : str :=
  match s with
  | [] => []
  | c :: s' =>
      if isspace c then
        match s' with
        | [] => [SPACE]
        | d :: _ => if isspace d then squeeze s' else SPACE :: squeeze s'
        end
      else c :: squeeze s'
  end.

(** A character classified as a combining mark: general category M, that is
    nonspacing (Mn), spacing (Mc) or enclosing (Me). *)
Definition is_combining_mark (c : codepoint) : bool :=
  match category c with
  | Mn | Mc | Me => true
  | _ => false
  end.

(** A nonspacing mark only. *)
Definition is_nonspacing_mark (c : codepoint) : bool :=
  category_eqb (category c) Mn.

(** Decompose, drop the characters that [dropped] selects, lowercase,
    collapse the whitespace. *)
Definition spec_normalize (dropped : codepoint -> bool) (x : str) : str :=
  squeeze (trim (lower (filter (fun c => negb (dropped c)) (nfd x)))).
End Normalize.

(** ** Dictionaries in insertion order *)

Section Dict.
Variable V : Type.

Definition dict := list (str * V).

Fixpoint dict_get (k : str) (d : dict) : option V :=
  match d with
  | [] => None
  | (k', v) :: d' => if str_eq_dec k k' then Some v else dict_get k d'
  end.

(** [d[k] = v] *)
Fixpoint dict_set (k : str) (v : V) (d : dict) : dict :=
  match d with
  | [] => [(k, v)]
  | (k', v') :: d' =>
      if str_eq_dec k k' then (k', v) :: d' else (k', v') :: dict_set k v d'
  end.

Definition keys (d : dict) : list str := map fst d.
Definition values (d : dict) : list V := map snd d.

(** [defaultdict.__getitem__]: a missing key is first stored with the
    default value. *)
Definition defaultdict_getitem (default : V) (k : str) (d : dict) : V * dict :=
  match dict_get k d with
  | Some v => (v, d)
  | None => (default, dict_set k default d)
  end.

(** [d[k][field] op= ...] on a defaultdict: look the entry up (creating it
    when missing), then change it in place. *)
Definition defaultdict_update (default : V) (k : str) (f : V -> V) (d : dict) : dict :=
  let '(v, d1) := defaultdict_getitem default k d in
  dict_set k (f v) d1.
End Dict.

Arguments dict_get {V} k d.
Arguments dict_set {V} k v d.
Arguments keys {V} d.
Arguments values {V} d.
Arguments defaultdict_getitem {V} default k d.
Arguments defaultdict_update {V} default k f d.

(** ** Records of the script *)

(** An entry of [all_player_stats], and an entry of [unmatched_players]:
    [{'name', 'goals', 'assists'}]. *)
Record Stats := mkStats {
  name : str;
  goals : Z;
  assists : Z
}.

(** A player as returned by [fetch_quanthockey_stats] and as appended to a
    team's ['players']: [{'name', 'goals', 'assists', 'points'}]. *)
Record Player := mkPlayer {
  p_name : str;
  p_goals : Z;
  p_assists : Z;
  p_points : Z
}.

(** A value of [nhl_team_stats]. *)
Record TeamStats := mkTeamStats {
  points : Z;
  t_goals : Z;
  t_assists : Z;
  players : list Player
}.

(** The [lambda] given to [defaultdict]. *)
Definition new_team_stats : TeamStats :=
  {| points := 0; t_goals := 0; t_assists := 0; players := [] |}.

(** ** Step 1 of [main]: merging the per-country lists *)

(** [d[k][field] op= ...] on a plain dict, used where [k] is known to be in
    [d] (the lookup cannot raise there). *)
Definition dict_modify {V : Type} (k : str) (f : V -> V) (d : dict V) : dict V :=
  match dict_get k d with
  | Some v => dict_set k (f v) d
  | None => d
  end.

Definition stats_add_goals (n : Z) (e : Stats) : Stats :=
  {| name := name e; goals := goals e + n; assists := assists e |}.

Definition stats_add_assists (n : Z) (e : Stats) : Stats :=
  {| name := name e; goals := goals e; assists := assists e + n |}.

Section Collect.
Context {U : UnicodeData}.

(** The body of [for player in players]. *)
Definition add_player (all_player_stats : dict Stats) (player : Player) : dict Stats :=
  let name_key := normalize_name (p_name player) in
  match dict_get name_key all_player_stats with
  | None =>
      dict_set name_key
        {| name := p_name player; goals := p_goals player;
           assists := p_assists player |} all_player_stats
  | Some _ =>
      let d1 := dict_modify name_key (stats_add_goals (p_goals player)) all_player_stats in
      dict_modify name_key (stats_add_assists (p_assists player)) d1
  end.

(** The loop over [olympic_countries]; [fetched] holds what
    [fetch_quanthockey_stats] returned for each country, in order. *)
Definition collect (fetched : list (list Player)) : dict Stats :=
  fold_left (fun all_player_stats players => fold_left add_player players all_player_stats)
    fetched [].
End Collect.

(** ** Step 3 of [main]: aggregation by NHL team *)

Definition add_points (n : Z) (t : TeamStats) : TeamStats :=
  {| points := points t + n; t_goals := t_goals t;
     t_assists := t_assists t; players := players t |}.

Definition add_goals (n : Z) (t : TeamStats) : TeamStats :=
  {| points := points t; t_goals := t_goals t + n;
     t_assists := t_assists t; players := players t |}.

Definition add_assists (n : Z) (t : TeamStats) : TeamStats :=
  {| points := points t; t_goals := t_goals t;
     t_assists := t_assists t + n; players := players t |}.

Definition append_player (p : Player) (t : TeamStats) : TeamStats :=
  {| points := points t; t_goals := t_goals t;
     t_assists := t_assists t; players := players t ++ [p] |}.

(** The body of the [if nhl_team:] branch, statement by statement. *)
Definition credit_team (nhl_team : str) (stats : Stats)
    (nhl_team_stats : dict TeamStats) : dict TeamStats :=
  let pts := goals stats + assists stats in
  let d1 := defaultdict_update new_team_stats nhl_team (add_points pts) nhl_team_stats in
  let d2 := defaultdict_update new_team_stats nhl_team (add_goals (goals stats)) d1 in
  let d3 := defaultdict_update new_team_stats nhl_team (add_assists (assists stats)) d2 in
  defaultdict_update new_team_stats nhl_team
    (append_player {| p_name := name stats; p_goals := goals stats;
                      p_assists := assists stats; p_points := pts |}) d3.

(** The [else] branch. *)
Definition record_unmatched (stats : Stats) (unmatched_players : list Stats) : list Stats :=
  unmatched_players ++
    [{| name := name stats; goals := goals stats; assists := assists stats |}].

(** One iteration of [for normalized_name, stats in all_player_stats.items()]. *)
Definition aggregate_item (player_to_team : dict str)
    (acc : dict TeamStats * list Stats) (item : str * Stats)
    : dict TeamStats * list Stats :=
  let '(nhl_team_stats, unmatched_players) := acc in
  let '(normalized_name, stats) := item in
  match dict_get normalized_name player_to_team with
  | Some nhl_team =>
      if truthy nhl_team
      then (credit_team nhl_team stats nhl_team_stats, unmatched_players)
      else (nhl_team_stats, record_unmatched stats unmatched_players)
  | None => (nhl_team_stats, record_unmatched stats unmatched_players)
  end.

Definition aggregate_loop (all_player_stats : dict Stats) (player_to_team : dict str)
    : dict TeamStats * list Stats :=
  fold_left (aggregate_item player_to_team) all_player_stats ([], []).

(** ** Step 4 of [main]: ranking *)

(** Tuples of two integers compare lexicographically. *)
Definition tuple_leb (a b : Z * Z) : bool :=
  (fst a <? fst b) || ((fst a =? fst b) && (snd a <=? snd b)).

Definition tuple_le (a b : Z * Z) : Prop :=
  fst a < fst b \/ (fst a = fst b /\ snd a <= snd b).

Section Sorted.
Variable A : Type.
Variable key : A -> Z * Z.

(** A stable ascending sort: [x] goes before the first element whose key is
    not smaller, so elements with equal keys keep their order. *)
Fixpoint insert_stable (x : A) (l : list A) : list A :=
  match l with
  | [] => [x]
  | y :: l' =>
      if tuple_leb (key x) (key y) then x :: y :: l'
      else y :: insert_stable x l'
  end.

Definition stable_sort (l : list A) : list A :=
  fold_right insert_stable [] l.

(** [sorted(l, key=key, reverse=reverse)]. With [reverse=True] the list is
    reversed, sorted and reversed again, which keeps the sort stable. *)
Definition sorted (reverse : bool) (l : list A) : list A :=
  if reverse then rev (stable_sort (rev l)) else stable_sort l.
End Sorted.

Arguments sorted {A} key reverse l.
Arguments stable_sort {A} key l.
Arguments insert_stable {A} key x l.

(** [lambda x: (x[1]['points'], x[1]['goals'])] *)
Definition rank_key (x : str * TeamStats) : Z * Z :=
  (points (snd x), t_goals (snd x)).

Definition sorted_teams (nhl_team_stats : dict TeamStats) : list (str * TeamStats) :=
  sorted rank_key true nhl_team_stats.

(** The aggregation step: the ranked teams and the unmatched players. *)
Definition aggregate (all_player_stats : dict Stats) (player_to_team : dict str)
    : list (str * TeamStats) * list Stats :=
  let '(nhl_team_stats, unmatched_players) :=
    aggregate_loop all_player_stats player_to_team in
  (sorted_teams nhl_team_stats, unmatched_players).

(** ** The Unicode character database, in part

    The instance of [UnicodeData] that the examples run on. Its tables are
    those of Unicode 14.0 for Basic Latin, Latin-1 Supplement, Latin
    Extended-A (U+0000 to U+017F) and the Combining Diacritical Marks (U+0300
    to U+036F), and for four further marks: U+20DD, U+302E, U+302F and
    U+1D165. A code point outside these has the properties of an unassigned one
    here. The whitespace list is complete. *)

Module UCD.

Local Open Scope N_scope.

Fixpoint assoc {A : Type} (c : codepoint) (t : list (codepoint * A)) : option A :=
  match t with
  | [] => None
  | (c', a) :: t' => if c =? c' then Some a else assoc c t'
  end.

Fixpoint in_ranges {A : Type} (c : codepoint)
    (t : list (codepoint * codepoint * A)) : option A :=
  match t with
  | [] => None
  | (lo, hi, a) :: t' =>
      if (lo <=? c) && (c <=? hi) then Some a else in_ranges c t'
  end.

(** The full canonical decomposition of each code point that has one. *)
Definition decomposition_table : list (codepoint * str) :=
  [
  (0x00C0, [0x0041; 0x0300]); (0x00C1, [0x0041; 0x0301]);
  (0x00C2, [0x0041; 0x0302]); (0x00C3, [0x0041; 0x0303]);
  (0x00C4, [0x0041; 0x0308]); (0x00C5, [0x0041; 0x030A]);
  (0x00C7, [0x0043; 0x0327]); (0x00C8, [0x0045; 0x0300]);
  (0x00C9, [0x0045; 0x0301]); (0x00CA, [0x0045; 0x0302]);
  (0x00CB, [0x0045; 0x0308]); (0x00CC, [0x0049; 0x0300]);
  (0x00CD, [0x0049; 0x0301]); (0x00CE, [0x0049; 0x0302]);
  (0x00CF, [0x0049; 0x0308]); (0x00D1, [0x004E; 0x0303]);
  (0x00D2, [0x004F; 0x0300]); (0x00D3, [0x004F; 0x0301]);
  (0x00D4, [0x004F; 0x0302]); (0x00D5, [0x004F; 0x0303]);
  (0x00D6, [0x004F; 0x0308]); (0x00D9, [0x0055; 0x0300]);
  (0x00DA, [0x0055; 0x0301]); (0x00DB, [0x0055; 0x0302]);
  (0x00DC, [0x0055; 0x0308]); (0x00DD, [0x0059; 0x0301]);
  (0x00E0, [0x0061; 0x0300]); (0x00E1, [0x0061; 0x0301]);
  (0x00E2, [0x0061; 0x0302]); (0x00E3, [0x0061; 0x0303]);
  (0x00E4, [0x0061; 0x0308]); (0x00E5, [0x0061; 0x030A]);
  (0x00E7, [0x0063; 0x0327]); (0x00E8, [0x0065; 0x0300]);
  (0x00E9, [0x0065; 0x0301]); (0x00EA, [0x0065; 0x0302]);
  (0x00EB, [0x0065; 0x0308]); (0x00EC, [0x0069; 0x0300]);
  (0x00ED, [0x0069; 0x0301]); (0x00EE, [0x0069; 0x0302]);
  (0x00EF, [0x0069; 0x0308]); (0x00F1, [0x006E; 0x0303]);
  (0x00F2, [0x006F; 0x0300]); (0x00F3, [0x006F; 0x0301]);
  (0x00F4, [0x006F; 0x0302]); (0x00F5, [0x006F; 0x0303]);
  (0x00F6, [0x006F; 0x0308]); (0x00F9, [0x0075; 0x0300]);
  (0x00FA, [0x0075; 0x0301]); (0x00FB, [0x0075; 0x0302]);
  (0x00FC, [0x0075; 0x0308]); (0x00FD, [0x0079; 0x0301]);
  (0x00FF, [0x0079; 0x0308]); (0x0100, [0x0041; 0x0304]);
  (0x0101, [0x0061; 0x0304]); (0x0102, [0x0041; 0x0306]);
  (0x0103, [0x0061; 0x0306]); (0x0104, [0x0041; 0x0328]);
  (0x0105, [0x0061; 0x0328]); (0x0106, [0x0043; 0x0301]);
  (0x0107, [0x0063; 0x0301]); (0x0108, [0x0043; 0x0302]);
  (0x0109, [0x0063; 0x0302]); (0x010A, [0x0043; 0x0307]);
  (0x010B, [0x0063; 0x0307]); (0x010C, [0x0043; 0x030C]);
  (0x010D, [0x0063; 0x030C]); (0x010E, [0x0044; 0x030C]);
  (0x010F, [0x0064; 0x030C]); (0x0112, [0x0045; 0x0304]);
  (0x0113, [0x0065; 0x0304]); (0x0114, [0x0045; 0x0306]);
  (0x0115, [0x0065; 0x0306]); (0x0116, [0x0045; 0x0307]);
  (0x0117, [0x0065; 0x0307]); (0x0118, [0x0045; 0x0328]);
  (0x0119, [0x0065; 0x0328]); (0x011A, [0x0045; 0x030C]);
  (0x011B, [0x0065; 0x030C]); (0x011C, [0x0047; 0x0302]);
  (0x011D, [0x0067; 0x0302]); (0x011E, [0x0047; 0x0306]);
  (0x011F, [0x0067; 0x0306]); (0x0120, [0x0047; 0x0307]);
  (0x0121, [0x0067; 0x0307]); (0x0122, [0x0047; 0x0327]);
  (0x0123, [0x0067; 0x0327]); (0x0124, [0x0048; 0x0302]);
  (0x0125, [0x0068; 0x0302]); (0x0128, [0x0049; 0x0303]);
  (0x0129, [0x0069; 0x0303]); (0x012A, [0x0049; 0x0304]);
  (0x012B, [0x0069; 0x0304]); (0x012C, [0x0049; 0x0306]);
  (0x012D, [0x0069; 0x0306]); (0x012E, [0x0049; 0x0328]);
  (0x012F, [0x0069; 0x0328]); (0x0130, [0x0049; 0x0307]);
  (0x0134, [0x004A; 0x0302]); (0x0135, [0x006A; 0x0302]);
  (0x0136, [0x004B; 0x0327]); (0x0137, [0x006B; 0x0327]);
  (0x0139, [0x004C; 0x0301]); (0x013A, [0x006C; 0x0301]);
  (0x013B, [0x004C; 0x0327]); (0x013C, [0x006C; 0x0327]);
  (0x013D, [0x004C; 0x030C]); (0x013E, [0x006C; 0x030C]);
  (0x0143, [0x004E; 0x0301]); (0x0144, [0x006E; 0x0301]);
  (0x0145, [0x004E; 0x0327]); (0x0146, [0x006E; 0x0327]);
  (0x0147, [0x004E; 0x030C]); (0x0148, [0x006E; 0x030C]);
  (0x014C, [0x004F; 0x0304]); (0x014D, [0x006F; 0x0304]);
  (0x014E, [0x004F; 0x0306]); (0x014F, [0x006F; 0x0306]);
  (0x0150, [0x004F; 0x030B]); (0x0151, [0x006F; 0x030B]);
  (0x0154, [0x0052; 0x0301]); (0x0155, [0x0072; 0x0301]);
  (0x0156, [0x0052; 0x0327]); (0x0157, [0x0072; 0x0327]);
  (0x0158, [0x0052; 0x030C]); (0x0159, [0x0072; 0x030C]);
  (0x015A, [0x0053; 0x0301]); (0x015B, [0x0073; 0x0301]);
  (0x015C, [0x0053; 0x0302]); (0x015D, [0x0073; 0x0302]);
  (0x015E, [0x0053; 0x0327]); (0x015F, [0x0073; 0x0327]);
  (0x0160, [0x0053; 0x030C]); (0x0161, [0x0073; 0x030C]);
  (0x0162, [0x0054; 0x0327]); (0x0163, [0x0074; 0x0327]);
  (0x0164, [0x0054; 0x030C]); (0x0165, [0x0074; 0x030C]);
  (0x0168, [0x0055; 0x0303]); (0x0169, [0x0075; 0x0303]);
  (0x016A, [0x0055; 0x0304]); (0x016B, [0x0075; 0x0304]);
  (0x016C, [0x0055; 0x0306]); (0x016D, [0x0075; 0x0306]);
  (0x016E, [0x0055; 0x030A]); (0x016F, [0x0075; 0x030A]);
  (0x0170, [0x0055; 0x030B]); (0x0171, [0x0075; 0x030B]);
  (0x0172, [0x0055; 0x0328]); (0x0173, [0x0075; 0x0328]);
  (0x0174, [0x0057; 0x0302]); (0x0175, [0x0077; 0x0302]);
  (0x0176, [0x0059; 0x0302]); (0x0177, [0x0079; 0x0302]);
  (0x0178, [0x0059; 0x0308]); (0x0179, [0x005A; 0x0301]);
  (0x017A, [0x007A; 0x0301]); (0x017B, [0x005A; 0x0307]);
  (0x017C, [0x007A; 0x0307]); (0x017D, [0x005A; 0x030C]);
  (0x017E, [0x007A; 0x030C]); (0x0340, [0x0300]); (0x0341, [0x0301]);
  (0x0343, [0x0313]); (0x0344, [0x0308; 0x0301])
  ].

(** The canonical combining classes that are not 0. *)
Definition combining_table : list (codepoint * codepoint * N) :=
  [
  (0x0300, 0x0314, 230); (0x0315, 0x0315, 232); (0x0316, 0x0319, 220);
  (0x031A, 0x031A, 232); (0x031B, 0x031B, 216); (0x031C, 0x0320, 220);
  (0x0321, 0x0322, 202); (0x0323, 0x0326, 220); (0x0327, 0x0328, 202);
  (0x0329, 0x0333, 220); (0x0334, 0x0338, 1); (0x0339, 0x033C, 220);
  (0x033D, 0x0344, 230); (0x0345, 0x0345, 240); (0x0346, 0x0346, 230);
  (0x0347, 0x0349, 220); (0x034A, 0x034C, 230); (0x034D, 0x034E, 220);
  (0x0350, 0x0352, 230); (0x0353, 0x0356, 220); (0x0357, 0x0357, 230);
  (0x0358, 0x0358, 232); (0x0359, 0x035A, 220); (0x035B, 0x035B, 230);
  (0x035C, 0x035C, 233); (0x035D, 0x035E, 234); (0x035F, 0x035F, 233);
  (0x0360, 0x0361, 234); (0x0362, 0x0362, 233); (0x0363, 0x036F, 230);
  (0x302E, 0x302F, 224); (0x1D165, 0x1D165, 216)
  ].

Definition category_table : list (codepoint * codepoint * Category) :=
  [
  (0x0000, 0x001F, Cc); (0x0020, 0x0020, Zs); (0x0021, 0x0023, Po);
  (0x0024, 0x0024, Sc); (0x0025, 0x0027, Po); (0x0028, 0x0028, Ps);
  (0x0029, 0x0029, Pe); (0x002A, 0x002A, Po); (0x002B, 0x002B, Sm);
  (0x002C, 0x002C, Po); (0x002D, 0x002D, Pd); (0x002E, 0x002F, Po);
  (0x0030, 0x0039, Nd); (0x003A, 0x003B, Po); (0x003C, 0x003E, Sm);
  (0x003F, 0x0040, Po); (0x0041, 0x005A, Lu); (0x005B, 0x005B, Ps);
  (0x005C, 0x005C, Po); (0x005D, 0x005D, Pe); (0x005E, 0x005E, Sk);
  (0x005F, 0x005F, Pc); (0x0060, 0x0060, Sk); (0x0061, 0x007A, Ll);
  (0x007B, 0x007B, Ps); (0x007C, 0x007C, Sm); (0x007D, 0x007D, Pe);
  (0x007E, 0x007E, Sm); (0x007F, 0x009F, Cc); (0x00A0, 0x00A0, Zs);
  (0x00A1, 0x00A1, Po); (0x00A2, 0x00A5, Sc); (0x00A6, 0x00A6, So);
  (0x00A7, 0x00A7, Po); (0x00A8, 0x00A8, Sk); (0x00A9, 0x00A9, So);
  (0x00AA, 0x00AA, Lo); (0x00AB, 0x00AB, Pi); (0x00AC, 0x00AC, Sm);
  (0x00AD, 0x00AD, Cf); (0x00AE, 0x00AE, So); (0x00AF, 0x00AF, Sk);
  (0x00B0, 0x00B0, So); (0x00B1, 0x00B1, Sm); (0x00B2, 0x00B3, No);
  (0x00B4, 0x00B4, Sk); (0x00B5, 0x00B5, Ll); (0x00B6, 0x00B7, Po);
  (0x00B8, 0x00B8, Sk); (0x00B9, 0x00B9, No); (0x00BA, 0x00BA, Lo);
  (0x00BB, 0x00BB, Pf); (0x00BC, 0x00BE, No); (0x00BF, 0x00BF, Po);
  (0x00C0, 0x00D6, Lu); (0x00D7, 0x00D7, Sm); (0x00D8, 0x00DE, Lu);
  (0x00DF, 0x00F6, Ll); (0x00F7, 0x00F7, Sm); (0x00F8, 0x00FF, Ll);
  (0x0100, 0x0100, Lu); (0x0101, 0x0101, Ll); (0x0102, 0x0102, Lu);
  (0x0103, 0x0103, Ll); (0x0104, 0x0104, Lu); (0x0105, 0x0105, Ll);
  (0x0106, 0x0106, Lu); (0x0107, 0x0107, Ll); (0x0108, 0x0108, Lu);
  (0x0109, 0x0109, Ll); (0x010A, 0x010A, Lu); (0x010B, 0x010B, Ll);
  (0x010C, 0x010C, Lu); (0x010D, 0x010D, Ll); (0x010E, 0x010E, Lu);
  (0x010F, 0x010F, Ll); (0x0110, 0x0110, Lu); (0x0111, 0x0111, Ll);
  (0x0112, 0x0112, Lu); (0x0113, 0x0113, Ll); (0x0114, 0x0114, Lu);
  (0x0115, 0x0115, Ll); (0x0116, 0x0116, Lu); (0x0117, 0x0117, Ll);
  (0x0118, 0x0118, Lu); (0x0119, 0x0119, Ll); (0x011A, 0x011A, Lu);
  (0x011B, 0x011B, Ll); (0x011C, 0x011C, Lu); (0x011D, 0x011D, Ll);
  (0x011E, 0x011E, Lu); (0x011F, 0x011F, Ll); (0x0120, 0x0120, Lu);
  (0x0121, 0x0121, Ll); (0x0122, 0x0122, Lu); (0x0123, 0x0123, Ll);
  (0x0124, 0x0124, Lu); (0x0125, 0x0125, Ll); (0x0126, 0x0126, Lu);
  (0x0127, 0x0127, Ll); (0x0128, 0x0128, Lu); (0x0129, 0x0129, Ll);
  (0x012A, 0x012A, Lu); (0x012B, 0x012B, Ll); (0x012C, 0x012C, Lu);
  (0x012D, 0x012D, Ll); (0x012E, 0x012E, Lu); (0x012F, 0x012F, Ll);
  (0x0130, 0x0130, Lu); (0x0131, 0x0131, Ll); (0x0132, 0x0132, Lu);
  (0x0133, 0x0133, Ll); (0x0134, 0x0134, Lu); (0x0135, 0x0135, Ll);
  (0x0136, 0x0136, Lu); (0x0137, 0x0138, Ll); (0x0139, 0x0139, Lu);
  (0x013A, 0x013A, Ll); (0x013B, 0x013B, Lu); (0x013C, 0x013C, Ll);
  (0x013D, 0x013D, Lu); (0x013E, 0x013E, Ll); (0x013F, 0x013F, Lu);
  (0x0140, 0x0140, Ll); (0x0141, 0x0141, Lu); (0x0142, 0x0142, Ll);
  (0x0143, 0x0143, Lu); (0x0144, 0x0144, Ll); (0x0145, 0x0145, Lu);
  (0x0146, 0x0146, Ll); (0x0147, 0x0147, Lu); (0x0148, 0x0149, Ll);
  (0x014A, 0x014A, Lu); (0x014B, 0x014B, Ll); (0x014C, 0x014C, Lu);
  (0x014D, 0x014D, Ll); (0x014E, 0x014E, Lu); (0x014F, 0x014F, Ll);
  (0x0150, 0x0150, Lu); (0x0151, 0x0151, Ll); (0x0152, 0x0152, Lu);
  (0x0153, 0x0153, Ll); (0x0154, 0x0154, Lu); (0x0155, 0x0155, Ll);
  (0x0156, 0x0156, Lu); (0x0157, 0x0157, Ll); (0x0158, 0x0158, Lu);
  (0x0159, 0x0159, Ll); (0x015A, 0x015A, Lu); (0x015B, 0x015B, Ll);
  (0x015C, 0x015C, Lu); (0x015D, 0x015D, Ll); (0x015E, 0x015E, Lu);
  (0x015F, 0x015F, Ll); (0x0160, 0x0160, Lu); (0x0161, 0x0161, Ll);
  (0x0162, 0x0162, Lu); (0x0163, 0x0163, Ll); (0x0164, 0x0164, Lu);
  (0x0165, 0x0165, Ll); (0x0166, 0x0166, Lu); (0x0167, 0x0167, Ll);
  (0x0168, 0x0168, Lu); (0x0169, 0x0169, Ll); (0x016A, 0x016A, Lu);
  (0x016B, 0x016B, Ll); (0x016C, 0x016C, Lu); (0x016D, 0x016D, Ll);
  (0x016E, 0x016E, Lu); (0x016F, 0x016F, Ll); (0x0170, 0x0170, Lu);
  (0x0171, 0x0171, Ll); (0x0172, 0x0172, Lu); (0x0173, 0x0173, Ll);
  (0x0174, 0x0174, Lu); (0x0175, 0x0175, Ll); (0x0176, 0x0176, Lu);
  (0x0177, 0x0177, Ll); (0x0178, 0x0179, Lu); (0x017A, 0x017A, Ll);
  (0x017B, 0x017B, Lu); (0x017C, 0x017C, Ll); (0x017D, 0x017D, Lu);
  (0x017E, 0x017F, Ll); (0x0300, 0x036F, Mn); (0x20DD, 0x20DD, Me);
  (0x302E, 0x302F, Mc); (0x1D165, 0x1D165, Mc)
  ].

(** The lowercase mapping of each code point that has one. *)
Definition lowercase_table : list (codepoint * str) :=
  [
  (0x0041, [0x0061]); (0x0042, [0x0062]); (0x0043, [0x0063]);
  (0x0044, [0x0064]); (0x0045, [0x0065]); (0x0046, [0x0066]);
  (0x0047, [0x0067]); (0x0048, [0x0068]); (0x0049, [0x0069]);
  (0x004A, [0x006A]); (0x004B, [0x006B]); (0x004C, [0x006C]);
  (0x004D, [0x006D]); (0x004E, [0x006E]); (0x004F, [0x006F]);
  (0x0050, [0x0070]); (0x0051, [0x0071]); (0x0052, [0x0072]);
  (0x0053, [0x0073]); (0x0054, [0x0074]); (0x0055, [0x0075]);
  (0x0056, [0x0076]); (0x0057, [0x0077]); (0x0058, [0x0078]);
  (0x0059, [0x0079]); (0x005A, [0x007A]); (0x00C0, [0x00E0]);
  (0x00C1, [0x00E1]); (0x00C2, [0x00E2]); (0x00C3, [0x00E3]);
  (0x00C4, [0x00E4]); (0x00C5, [0x00E5]); (0x00C6, [0x00E6]);
  (0x00C7, [0x00E7]); (0x00C8, [0x00E8]); (0x00C9, [0x00E9]);
  (0x00CA, [0x00EA]); (0x00CB, [0x00EB]); (0x00CC, [0x00EC]);
  (0x00CD, [0x00ED]); (0x00CE, [0x00EE]); (0x00CF, [0x00EF]);
  (0x00D0, [0x00F0]); (0x00D1, [0x00F1]); (0x00D2, [0x00F2]);
  (0x00D3, [0x00F3]); (0x00D4, [0x00F4]); (0x00D5, [0x00F5]);
  (0x00D6, [0x00F6]); (0x00D8, [0x00F8]); (0x00D9, [0x00F9]);
  (0x00DA, [0x00FA]); (0x00DB, [0x00FB]); (0x00DC, [0x00FC]);
  (0x00DD, [0x00FD]); (0x00DE, [0x00FE]); (0x0100, [0x0101]);
  (0x0102, [0x0103]); (0x0104, [0x0105]); (0x0106, [0x0107]);
  (0x0108, [0x0109]); (0x010A, [0x010B]); (0x010C, [0x010D]);
  (0x010E, [0x010F]); (0x0110, [0x0111]); (0x0112, [0x0113]);
  (0x0114, [0x0115]); (0x0116, [0x0117]); (0x0118, [0x0119]);
  (0x011A, [0x011B]); (0x011C, [0x011D]); (0x011E, [0x011F]);
  (0x0120, [0x0121]); (0x0122, [0x0123]); (0x0124, [0x0125]);
  (0x0126, [0x0127]); (0x0128, [0x0129]); (0x012A, [0x012B]);
  (0x012C, [0x012D]); (0x012E, [0x012F]); (0x0130, [0x0069; 0x0307]);
  (0x0132, [0x0133]); (0x0134, [0x0135]); (0x0136, [0x0137]);
  (0x0139, [0x013A]); (0x013B, [0x013C]); (0x013D, [0x013E]);
  (0x013F, [0x0140]); (0x0141, [0x0142]); (0x0143, [0x0144]);
  (0x0145, [0x0146]); (0x0147, [0x0148]); (0x014A, [0x014B]);
  (0x014C, [0x014D]); (0x014E, [0x014F]); (0x0150, [0x0151]);
  (0x0152, [0x0153]); (0x0154, [0x0155]); (0x0156, [0x0157]);
  (0x0158, [0x0159]); (0x015A, [0x015B]); (0x015C, [0x015D]);
  (0x015E, [0x015F]); (0x0160, [0x0161]); (0x0162, [0x0163]);
  (0x0164, [0x0165]); (0x0166, [0x0167]); (0x0168, [0x0169]);
  (0x016A, [0x016B]); (0x016C, [0x016D]); (0x016E, [0x016F]);
  (0x0170, [0x0171]); (0x0172, [0x0173]); (0x0174, [0x0175]);
  (0x0176, [0x0177]); (0x0178, [0x00FF]); (0x0179, [0x017A]);
  (0x017B, [0x017C]); (0x017D, [0x017E])
  ].

Definition whitespace : list codepoint :=
  [ 0x0009; 0x000A; 0x000B; 0x000C; 0x000D; 0x001C; 0x001D; 0x001E; 0x001F;
    0x0020; 0x0085; 0x00A0; 0x1680; 0x2000; 0x2001; 0x2002; 0x2003; 0x2004;
    0x2005; 0x2006; 0x2007; 0x2008; 0x2009; 0x200A; 0x2028; 0x2029; 0x202F;
    0x205F; 0x3000 ].

Definition decompose (c : codepoint) : str :=
  match assoc c decomposition_table with
  | Some d => d
  | None => [c]
  end.

Definition combining (c : codepoint) : N :=
  match in_ranges c combining_table with
  | Some n => n
  | None => 0
  end.

(** Canonical ordering. [before] is the text already ordered, last character
    first; [c] moves back over the marks of a higher class. *)
Fixpoint place (c : codepoint) (before : str) : str :=
  match before with
  | [] => [c]
  | p :: r =>
      if (combining p =? 0) || (combining c =? 0) || (combining p <=? combining c)
      then c :: before
      else p :: place c r
  end.

Definition canonical_order (s : str) : str :=
  rev (fold_left (fun before c => place c before) s []).

Definition normalize_NFD (s : str) : str :=
  canonical_order (flat_map decompose s).

Definition general_category (c : codepoint) : Category :=
  match in_ranges c category_table with
  | Some g => g
  | None => Cn
  end.

Definition lower_char (c : codepoint) : str :=
  match assoc c lowercase_table with
  | Some l => l
  | None => [c]
  end.

Definition str_lower (s : str) : str := flat_map lower_char s.

Definition is_whitespace (c : codepoint) : bool :=
  existsb (N.eqb c) whitespace.

#[export] Instance data : UnicodeData :=
  {| nfd := normalize_NFD;
     category := general_category;
     lower := str_lower;
     isspace := is_whitespace |}.

End UCD.

(** ** Vocabulary of the statements *)

(** The entry under [k], or [default] when there is none. *)
Definition get_or {V : Type} (default : V) (k : str) (d : dict V) : V :=
  match dict_get k d with
  | Some v => v
  | None => default
  end.

(** [sum(f(x) for x in l)] *)
Definition total {A : Type} (f : A -> Z) (l : list A) : Z :=
  fold_right (fun x acc => f x + acc) 0 l.

(** The team that the loop credits a normalised name to: the roster's entry,
    when there is one and it is not empty. *)
Definition team_of (player_to_team : dict str) (normalized_name : str) : option str :=
  match dict_get normalized_name player_to_team with
  | Some nhl_team => if truthy nhl_team then Some nhl_team else None
  | None => None
  end.

Definition goes_to (player_to_team : dict str) (team : str) (item : str * Stats) : bool :=
  match team_of player_to_team (fst item) with
  | Some t => str_eqb t team
  | None => false
  end.

Definition is_unmatched (player_to_team : dict str) (item : str * Stats) : bool :=
  match team_of player_to_team (fst item) with
  | Some _ => false
  | None => true
  end.

(** The player dict that the loop appends for a source record, and the
    source record that a player dict came from. *)
Definition player_of (stats : Stats) : Player :=
  {| p_name := name stats; p_goals := goals stats; p_assists := assists stats;
     p_points := goals stats + assists stats |}.

Definition stats_of (p : Player) : Stats :=
  {| name := p_name p; goals := p_goals p; assists := p_assists p |}.

(** A team's entry after one more player. *)
Definition credited (stats : Stats) (t : TeamStats) : TeamStats :=
  append_player (player_of stats)
    (add_assists (assists stats)
      (add_goals (goals stats)
        (add_points (goals stats + assists stats) t))).

(** The player list of [team] in a list of teams, empty when the team is not
    in it. *)
Definition players_of (team : str) (teams : list (str * TeamStats)) : list Player :=
  match dict_get team teams with
  | Some t => players t
  | None => []
  end.

(** All the players of all the teams. *)
Definition all_players (teams : list (str * TeamStats)) : list Player :=
  flat_map (fun x => players (snd x)) teams.

(** The totals of a team agree with its player list. *)
Definition consistent (t : TeamStats) : Prop :=
  points t = total (fun p => p_goals p + p_assists p) (players t) /\
  t_goals t = total p_goals (players t) /\
  t_assists t = total p_assists (players t).

(** [a] ranks at least as high as [b]. *)
Definition outranks (a b : str * TeamStats) : Prop :=
  tuple_le (rank_key b) (rank_key a).

Definition tuple_eqb (a b : Z * Z) : bool :=
  (fst a =? fst b) && (snd a =? snd b).

(** The teams of a list whose ranking key is [kv], in the order of the list. *)
Definition tied_at (kv : Z * Z) (teams : list (str * TeamStats)) : list (str * TeamStats) :=
  filter (fun x => tuple_eqb (rank_key x) kv) teams.

(** The distinct elements of a list in the order of their first occurrence. *)
Fixpoint first_occurrences (seen l : list str) : list str :=
  match l with
  | [] => []
  | x :: l' =>
      if in_dec str_eq_dec x seen then first_occurrences seen l'
      else x :: first_occurrences (x :: seen) l'
  end.

(** The teams that the items of the source are credited to, item by item. *)
Definition credited_teams (player_to_team : dict str) (src : dict Stats) : list str :=
  flat_map (fun item => match team_of player_to_team (fst item) with
                        | Some t => [t]
                        | None => []
                        end) src.

Section CollectVocabulary.
Context {U : UnicodeData}.

(** The fetched records whose name normalises to [k], in fetch order. *)
Definition occurrences (k : str) (fetched : list (list Player)) : list Player :=
  filter (fun player => str_eqb (normalize_name (p_name player)) k) (List.concat fetched).
End CollectVocabulary.

(** The entry that a non-empty list of colliding records merges into. *)
Definition merged (occ : list Player) : option Stats :=
  match occ with
  | [] => None
  | first :: _ =>
      Some {| name := p_name first; goals := total p_goals occ;
              assists := total p_assists occ |}
  end.

(** The text whose words [normalize_name] joins. *)
Definition folded {U : UnicodeData} (x : str) : str :=
  lower (filter (fun c => negb (is_nonspacing_mark c)) (nfd x)).

(** A word: not empty, no whitespace in it. *)
Definition is_word {U : UnicodeData} (w : str) : Prop :=
  w <> [] /\ Forall (fun c => isspace c = false) w.

(** ** The Latin blocks

    The code points that player names are written in: Basic Latin, Latin-1
    Supplement, Latin Extended-A, and the Combining Diacritical Marks. *)

Module Latin.

Local Open Scope N_scope.

Definition covered (c : codepoint) : bool :=
  (c <? 0x180) || ((0x300 <=? c) && (c <? 0x370)).

Definition covered_list : list codepoint :=
  map N.of_nat (seq 0 0x180 ++ seq 0x300 0x70).

Definition is_Mn (c : codepoint) : bool :=
  category_eqb (UCD.general_category c) Mn.

(** Fully decomposed. *)
Definition decomposed (c : codepoint) : bool :=
  str_eqb (UCD.decompose c) [c].

(** What is left of a decomposed text once the marks are dropped: a letter,
    digit, sign or space that has no decomposition and combining class 0. *)
Definition base (c : codepoint) : bool :=
  decomposed c && negb (is_Mn c) && (UCD.combining c =? 0).

(** A character that none of the three passes changes. *)
Definition stable (c : codepoint) : bool :=
  base c && str_eqb (UCD.lower_char c) [c].

End Latin.

(** ** The console listing of [main]: the top contributors *)

Section SortedInt.
Variable A : Type.
Variable key : A -> Z.

(** [sorted] with a key that is one integer. *)
Fixpoint insert_stable_int (x : A) (l : list A) : list A :=
  match l with
  | [] => [x]
  | y :: l' =>
      if key x <=? key y then x :: y :: l'
      else y :: insert_stable_int x l'
  end.

Definition stable_sort_int (l : list A) : list A :=
  fold_right insert_stable_int [] l.

Definition sorted_int (reverse : bool) (l : list A) : list A :=
  if reverse then rev (stable_sort_int (rev l)) else stable_sort_int l.
End SortedInt.

(** [sorted(stats['players'], key=lambda x: x['points'], reverse=True)[:3]] *)
Definition top_players (stats : TeamStats) : list Player :=
  firstn 3 (sorted_int p_points true (players stats)).

(** The players that the listing leaves out. *)
Definition other_players (stats : TeamStats) : list Player :=
  skipn 3 (sorted_int p_points true (players stats)).

(** ** Canonical order *)

Module Canonical.

(** [c] may stand right after [p]: one of them has class 0, or the class of
    [p] is not the higher one. *)
Definition may_follow (p c : codepoint) : bool :=
  ((UCD.combining p =? 0) || (UCD.combining c =? 0)
   || (UCD.combining p <=? UCD.combining c))%N.

(** A text, last character first, in which each character may follow the
    one before it. *)
Fixpoint ordered (before : str) : Prop :=
  match before with
  | [] => True
  | c :: r =>
      match r with
      | [] => True
      | p :: _ => may_follow p c = true /\ ordered r
      end
  end.

End Canonical.

(** ** Maps and their order *)

(** Two dicts that answer every lookup alike: the same map, whatever the
    order of the items. *)
Definition same_map {V : Type} (d d' : dict V) : Prop :=
  forall k, dict_get k d = dict_get k d'.

(** The totals of a team in a ranking, those of a new entry when the team is
    not ranked. *)
Definition totals_of (team : str) (teams : list (str * TeamStats)) : Z * Z * Z :=
  let t := get_or new_team_stats team teams in
  (points t, t_goals t, t_assists t).

(** ** The aggregation step on a heap

    The dicts and lists of the script are objects, reached through
    references: the values of [all_player_stats] are dict objects that the
    loop reads, the values of [nhl_team_stats] are dict objects that it
    updates in place, and two names may reach one object. Here the loop of
    step 3 and the [sorted] of step 4 run on a heap of such objects,
    statement by statement, so that what they write to is part of the model.
    Integers and strings are immutable and are held as values. *)

Module Heap.

Inductive value : Type :=
| VNone
| VInt (z : Z)
| VStr (s : str)
| VRef (l : nat).

Inductive object : Type :=
| ODict (items : dict value)
| OList (items : list value)
| OTuple (items : list value).

(** A reference is the index of its object. *)
Definition heap : Type := list object.

(** A computation reads and writes the heap; [None] is a raised exception. *)
Definition Run (A : Type) : Type := heap -> option (A * heap).

Definition ret {A : Type} (a : A) : Run A := fun h => Some (a, h).

Definition bind {A B : Type} (m : Run A) (f : A -> Run B) : Run B :=
  fun h => match m h with
           | Some (a, h') => f a h'
           | None => None
           end.

Definition raise {A : Type} : Run A := fun _ => None.

Notation "x <- m ;; k" := (bind m (fun x => k))
  (at level 61, m at next level, right associativity).
Notation "m ;; k" := (bind m (fun _ => k))
  (at level 61, right associativity).

(** A new object goes to the end of the heap. *)
Definition alloc (o : object) : Run value :=
  fun h => Some (VRef (List.length h), h ++ [o]).

Definition load (v : value) : Run object :=
  fun h => match v with
           | VRef l => match nth_error h l with
                       | Some o => Some (o, h)
                       | None => None
                       end
           | _ => None
           end.

Fixpoint replace (l : nat) (o : object) (h : heap) : heap :=
  match h with
  | [] => []
  | x :: h' => match l with
               | O => o :: h'
               | S l' => x :: replace l' o h'
               end
  end.

Definition store (v : value) (o : object) : Run unit :=
  fun h => match v with
           | VRef l => Some (tt, replace l o h)
           | _ => None
           end.

(** The dicts of the script have strings for keys; a subscript that is not
    a string raises here. *)
Definition key (v : value) : Run str :=
  match v with
  | VStr s => ret s
  | _ => raise
  end.

Definition field (s : string) : value := VStr (lit s).

Definition items (d : value) : Run (dict value) :=
  o <- load d ;;
  match o with
  | ODict its => ret its
  | _ => raise
  end.

Definition elements (l : value) : Run (list value) :=
  o <- load l ;;
  match o with
  | OList vs => ret vs
  | _ => raise
  end.

(** [d[k]] *)
Definition getitem (d k : value) : Run value :=
  its <- items d ;;
  s <- key k ;;
  match dict_get s its with
  | Some v => ret v
  | None => raise
  end.

(** [d[k] = v] *)
Definition setitem (d k v : value) : Run unit :=
  its <- items d ;;
  s <- key k ;;
  store d (ODict (dict_set s v its)).

(** [d.get(k)] *)
Definition get (d k : value) : Run value :=
  its <- items d ;;
  s <- key k ;;
  match dict_get s its with
  | Some v => ret v
  | None => ret VNone
  end.

(** [l.append(v)] *)
Definition append (l v : value) : Run unit :=
  vs <- elements l ;;
  store l (OList (vs ++ [v])).

(** [a + b], on integers and on strings. *)
Definition add (a b : value) : Run value :=
  match a, b with
  | VInt x, VInt y => ret (VInt (x + y))
  | VStr x, VStr y => ret (VStr (x ++ y))
  | _, _ => raise
  end.

(** The truth value that [if v:] takes. *)
Definition truth (v : value) : Run bool :=
  match v with
  | VNone => ret false
  | VInt z => ret (negb (z =? 0))
  | VStr s => ret (truthy s)
  | VRef _ =>
      o <- load v ;;
      ret (match o with
           | ODict [] | OList [] | OTuple [] => false
           | _ => true
           end)
  end.

(** The [lambda] given to [defaultdict]: the list of the players is made
    first, then the dict that holds it. *)
Definition team_stats_factory : Run value :=
  team_players <- alloc (OList []) ;;
  alloc (ODict [(lit "points", VInt 0); (lit "goals", VInt 0);
                (lit "assists", VInt 0); (lit "players", team_players)]).

(** [d[k]] on a [defaultdict]: a missing key is given what the factory
    makes, which is stored and returned. *)
Definition getitem_default (factory : Run value) (d k : value) : Run value :=
  its <- items d ;;
  s <- key k ;;
  match dict_get s its with
  | Some v => ret v
  | None => v <- factory ;; setitem d k v ;; ret v
  end.

(** [target[k] += rhs]: the target, its item, the right-hand side, the sum,
    the store, in this order. *)
Definition iadd_item (target : Run value) (k : value) (rhs : Run value) : Run unit :=
  e <- target ;;
  old <- getitem e k ;;
  x <- rhs ;;
  new <- add old x ;;
  setitem e k new.

(** The body of [for normalized_name, stats in all_player_stats.items()]. *)
Definition loop_body (nhl_team_stats unmatched_players player_to_team : value)
    (normalized_name stats : value) : Run unit :=
  nhl_team <- get player_to_team normalized_name ;;
  b <- truth nhl_team ;;
  if b then
    g <- getitem stats (field "goals") ;;
    a <- getitem stats (field "assists") ;;
    pts <- add g a ;;
    iadd_item (getitem_default team_stats_factory nhl_team_stats nhl_team)
      (field "points") (ret pts) ;;
    iadd_item (getitem_default team_stats_factory nhl_team_stats nhl_team)
      (field "goals") (getitem stats (field "goals")) ;;
    iadd_item (getitem_default team_stats_factory nhl_team_stats nhl_team)
      (field "assists") (getitem stats (field "assists")) ;;
    e <- getitem_default team_stats_factory nhl_team_stats nhl_team ;;
    l <- getitem e (field "players") ;;
    n <- getitem stats (field "name") ;;
    g' <- getitem stats (field "goals") ;;
    a' <- getitem stats (field "assists") ;;
    p <- alloc (ODict [(lit "name", n); (lit "goals", g');
                       (lit "assists", a'); (lit "points", pts)]) ;;
    append l p
  else
    n <- getitem stats (field "name") ;;
    g <- getitem stats (field "goals") ;;
    a <- getitem stats (field "assists") ;;
    p <- alloc (ODict [(lit "name", n); (lit "goals", g); (lit "assists", a)]) ;;
    append unmatched_players p.

(** [for k, v in d.items()]: the view is live, each step reads the dict
    again; a dict whose size has changed since the loop began raises.
    [size] is the number of items when the loop began, [todo] of them are
    still to come. *)
Fixpoint for_items (size todo : nat) (d : value) (body : value -> value -> Run unit)
    : Run unit :=
  its <- items d ;;
  if negb (List.length its =? size)%nat then raise
  else match todo with
       | O => ret tt
       | S todo' =>
           match nth_error its (size - todo)%nat with
           | Some (k, v) => body (VStr k) v ;; for_items size todo' d body
           | None => raise
           end
       end.

(** Step 3 of [main], up to the end of the loop; the result is the pair of
    [nhl_team_stats] and [unmatched_players]. *)
Definition aggregation_loop (all_player_stats player_to_team : value)
    : Run (value * value) :=
  nhl_team_stats <- alloc (ODict []) ;;
  unmatched_players <- alloc (OList []) ;;
  its <- items all_player_stats ;;
  for_items (List.length its) (List.length its) all_player_stats
    (loop_body nhl_team_stats unmatched_players player_to_team) ;;
  ret (nhl_team_stats, unmatched_players).

(** [t[i]] on a tuple or a list, for an index that is not negative. *)
Definition index (t : value) (i : nat) : Run value :=
  o <- load t ;;
  match o with
  | OTuple vs | OList vs =>
      match nth_error vs i with
      | Some v => ret v
      | None => raise
      end
  | ODict _ => raise
  end.

(** [d.items()] as [sorted] takes them: a new tuple for each item. *)
Fixpoint item_tuples (its : dict value) : Run (list value) :=
  match its with
  | [] => ret []
  | (k, v) :: its' =>
      t <- alloc (OTuple [VStr k; v]) ;;
      ts <- item_tuples its' ;;
      ret (t :: ts)
  end.

(** [lambda x: (x[1]['points'], x[1]['goals'])]; the two numbers are held
    as a pair, which is what the sort compares. *)
Definition team_key (x : value) : Run (Z * Z) :=
  e <- index x 1 ;;
  p <- getitem e (field "points") ;;
  e' <- index x 1 ;;
  g <- getitem e' (field "goals") ;;
  match p, g with
  | VInt p', VInt g' => ret (p', g')
  | _, _ => raise
  end.

Fixpoint keys_of (key : value -> Run (Z * Z)) (xs : list value) : Run (list (Z * Z)) :=
  match xs with
  | [] => ret []
  | x :: xs' =>
      k <- key x ;;
      ks <- keys_of key xs' ;;
      ret (k :: ks)
  end.

(** [sorted(xs, key=key, reverse=reverse)]: the key of each element is
    taken once, then the elements go into a new list in the order of their
    keys. *)
Definition sorted_list (key : value -> Run (Z * Z)) (reverse : bool) (xs : list value)
    : Run value :=
  ks <- keys_of key xs ;;
  alloc (OList (map snd (sorted fst reverse (combine ks xs)))).

(** Step 3 of [main] and the ranking of step 4: the loop, then
    [sorted(nhl_team_stats.items(), key=..., reverse=True)]. The result is
    the pair of [sorted_teams] and [unmatched_players]. *)
Definition aggregation (all_player_stats player_to_team : value) : Run (value * value) :=
  out <- aggregation_loop all_player_stats player_to_team ;;
  its <- items (fst out) ;;
  ts <- item_tuples its ;;
  ranking <- sorted_list team_key true ts ;;
  ret (ranking, snd out).

(** *** What a heap holds *)

Definition stats_object (s : Stats) : object :=
  ODict [(lit "name", VStr (name s)); (lit "goals", VInt (goals s));
         (lit "assists", VInt (assists s))].

Definition player_object (p : Player) : object :=
  ODict [(lit "name", VStr (p_name p)); (lit "goals", VInt (p_goals p));
         (lit "assists", VInt (p_assists p)); (lit "points", VInt (p_points p))].

Definition team_object (t : TeamStats) (team_players : value) : object :=
  ODict [(lit "points", VInt (points t)); (lit "goals", VInt (t_goals t));
         (lit "assists", VInt (t_assists t)); (lit "players", team_players)].

(** [v] is a reference to the object [o]. *)
Definition points_to (h : heap) (v : value) (o : object) : Prop :=
  exists l, v = VRef l /\ nth_error h l = Some o.

(** [v] is a list of references to the objects of [xs], in order. *)
Definition holds_list {A : Type} (repr : A -> object) (h : heap) (xs : list A)
    (v : value) : Prop :=
  exists vs, points_to h v (OList vs) /\
             Forall2 (fun x v' => points_to h v' (repr x)) xs vs.

(** [v] is a dict with the keys of [d], in order, each value a reference to
    what [holds] of the value in [d]. *)
Definition holds_dict {A : Type} (holds : heap -> A -> value -> Prop) (h : heap)
    (d : dict A) (v : value) : Prop :=
  exists its, points_to h v (ODict its) /\
              Forall2 (fun e i => fst i = fst e /\ holds h (snd e) (snd i)) d its.

(** [all_player_stats], as step 1 leaves it. *)
Definition holds_source : heap -> dict Stats -> value -> Prop :=
  holds_dict (fun h s v => points_to h v (stats_object s)).

(** [player_to_team], as [fetch_nhl_rosters] returns it. *)
Definition holds_roster (h : heap) (roster : dict str) (v : value) : Prop :=
  points_to h v (ODict (map (fun e => (fst e, VStr (snd e))) roster)).

Definition holds_team (h : heap) (t : TeamStats) (v : value) : Prop :=
  exists team_players,
    points_to h v (team_object t team_players) /\
    holds_list player_object h (players t) team_players.

(** [nhl_team_stats] *)
Definition holds_teams : heap -> dict TeamStats -> value -> Prop :=
  holds_dict holds_team.

(** [sorted_teams]: a list of tuples of a team and its entry. *)
Definition holds_ranking (h : heap) (ranked : list (str * TeamStats)) (v : value) : Prop :=
  exists vs, points_to h v (OList vs) /\
    Forall2 (fun e x => exists entry,
               points_to h x (OTuple [VStr (fst e); entry]) /\
               holds_team h (snd e) entry) ranked vs.

(** [unmatched_players] *)
Definition holds_unmatched : heap -> list Stats -> value -> Prop :=
  holds_list stats_object.

(** Every object of [h] is in [h'], at its place and as it was. *)
Definition unchanged (h h' : heap) : Prop :=
  forall l o, nth_error h l = Some o -> nth_error h' l = Some o.

(** *** Who owns an object

    The proof that the loop leaves its inputs alone gives every object of the
    heap one role: the objects that were there before the loop, the two
    containers of the result, the dict and the player list of each team, and
    the records that the loop appends. A statement of the loop writes to
    objects of one role only. *)

Inductive role : Type :=
| ROld
| RTeams
| RUnmatched
| RTeam (team : str)
| RPlayers (team : str)
| RRecord.

(** The object and the role at [l]. *)
Definition at_ (h : heap) (roles : list role) (l : nat) (r : role) (o : object) : Prop :=
  nth_error h l = Some o /\ nth_error roles l = Some r.

(** From [(h, roles)] to [(h', roles')] the objects of every role but [r]
    stay as they are. *)
Definition preserves (r : role) (h : heap) (roles : list role)
    (h' : heap) (roles' : list role) : Prop :=
  forall l r' o, r' <> r -> at_ h roles l r' o -> at_ h' roles' l r' o.

Definition record_list {A : Type} (repr : A -> object) (h : heap) (roles : list role)
    (r : role) (xs : list A) (v : value) : Prop :=
  exists l vs, v = VRef l /\ at_ h roles l r (OList vs) /\
    Forall2 (fun x v' => exists l', v' = VRef l' /\ at_ h roles l' RRecord (repr x)) xs vs.

Definition team_at (h : heap) (roles : list role) (e : str * TeamStats) (i : str * value)
    : Prop :=
  fst i = fst e /\
  exists l team_players,
    snd i = VRef l /\
    at_ h roles l (RTeam (fst e)) (team_object (snd e) team_players) /\
    record_list player_object h roles (RPlayers (fst e)) (players (snd e)) team_players.

(** The state of the loop: [h0] is the heap before step 3, [T] and [M] are
    the places of [nhl_team_stats] and [unmatched_players], [d] and [u] their
    contents. *)
Definition invariant (h0 : heap) (T M : nat) (h : heap) (roles : list role)
    (d : dict TeamStats) (u : list Stats) : Prop :=
  List.length roles = List.length h /\
  (forall l o, nth_error h0 l = Some o -> at_ h roles l ROld o) /\
  (exists its, at_ h roles T RTeams (ODict its) /\ Forall2 (team_at h roles) d its) /\
  record_list stats_object h roles RUnmatched u (VRef M) /\
  NoDup (keys d).

End Heap.

(** ** Sample data *)

Module Sample.

Definition BOS : str := lit "BOS".
Definition EDM : str := lit "EDM".
Definition TOR : str := lit "TOR".

Definition mcdavid : Stats :=
  {| name := lit "Connor McDavid"; goals := 3; assists := 5 |}.

Definition doe : Stats :=
  {| name := lit "Jane Doe"; goals := 1; assists := 0 |}.

(** Two players with 4 goals and 6 assists each, on two teams. *)
Definition alpha : Stats := {| name := lit "Al Alpha"; goals := 4; assists := 6 |}.
Definition beta : Stats := {| name := lit "Bo Beta"; goals := 4; assists := 6 |}.

Definition tie_roster : dict str :=
  [(lit "al alpha", BOS); (lit "bo beta", TOR)].

(** The same source map twice, filled in two different orders. *)
Definition tie_source : dict Stats :=
  [(lit "al alpha", alpha); (lit "bo beta", beta)].

Definition tie_source' : dict Stats :=
  [(lit "bo beta", beta); (lit "al alpha", alpha)].

(** The same player listed twice, once with and once without accents. *)
Definition dube_listed : Player :=
  {| p_name := lit "L" ++ [0xE9%N] ++ lit "o Dub" ++ [0xE9%N];
     p_goals := 1; p_assists := 2; p_points := 3 |}.

Definition dube_listed_again : Player :=
  {| p_name := lit "LEO DUBE"; p_goals := 2; p_assists := 0; p_points := 2 |}.

(** "Léo Dubé", with U+00E9 for the accented letters. *)
Definition leo_dube : str :=
  lit "L" ++ [0xE9%N] ++ lit "o Dub" ++ [0xE9%N].

(** "a" inside U+20DD COMBINING ENCLOSING CIRCLE. *)
Definition circled_a : str := [0x61%N; 0x20DD%N].

(** U+302E HANGUL SINGLE DOT TONE MARK, U+034F COMBINING GRAPHEME JOINER,
    U+1D165 MUSICAL SYMBOL COMBINING STEM. *)
Definition three_marks : str := [0x302E%N; 0x034F%N; 0x1D165%N].

End Sample.

(** ** Fetching: [fetch_with_retry]

    The network is the environment of the script. A call of
    [fetch_with_retry] meets it through [requests.get] and [time.sleep]; the
    model takes what the successive requests meet as a function of the
    attempt number and returns the result of the call together with the
    requests and sleeps, in order. *)

Section Fetch.
Variable Response : Type.
Variable Error : Type.

(** What a request meets: a response whose status is good, or an exception
    (from [requests.get] or from [raise_for_status]). *)
Inductive Attempt (A : Type) : Type :=
  | Ok (a : A)
  | Fails (e : Error).

(** How a call ends. [ReturnedNone] is the end of a function body that is
    reached without [return]. *)
Inductive Result (A : Type) : Type :=
  | Returned (a : A)
  | Raised (e : Error)
  | ReturnedNone.

Inductive Event : Type :=
  | Get
  | Sleep (seconds : Z).

Arguments Ok {A} a.
Arguments Fails {A} e.
Arguments Returned {A} a.
Arguments Raised {A} e.
Arguments ReturnedNone {A}.

(** The iterations [attempt], [attempt + 1], ... of
    [for attempt in range(max_retries)], [remaining] of them. *)
Fixpoint retry_from (get : nat -> Attempt Response) (max_retries : Z)
    (attempt remaining : nat) : Result Response * list Event :=
  match remaining with
  | O => (ReturnedNone, [])
  | S remaining' =>
      match get attempt with
      | Ok response => (Returned response, [Get])
      | Fails e =>
          if Z.of_nat attempt <? max_retries - 1 then
            let wait_time := (Z.of_nat attempt + 1) * 2 in
            let '(result, events) :=
              retry_from get max_retries (S attempt) remaining' in
            (result, Get :: Sleep wait_time :: events)
          else (Raised e, [Get])
      end
  end.

Definition fetch_with_retry (get : nat -> Attempt Response) (max_retries : Z)
    : Result Response * list Event :=
  retry_from get max_retries 0 (Z.to_nat max_retries).

(** The number of requests and the seconds slept in a list of events. *)
Definition requests_made (events : list Event) : nat :=
  List.length (filter (fun ev => match ev with Get => true | Sleep _ => false end) events).

Definition seconds_slept (events : list Event) : Z :=
  fold_right (fun ev acc => match ev with Get => acc | Sleep n => n + acc end) 0 events.

(** [Get, Sleep 2, Get, Sleep 4, ..., Get]: [S failures] requests, numbered
    from [attempt], with a sleep after each but the last. *)
Fixpoint backoff_trace (attempt failures : nat) : list Event :=
  match failures with
  | O => [Get]
  | S failures' =>
      Get :: Sleep ((Z.of_nat attempt + 1) * 2) :: backoff_trace (S attempt) failures'
  end.

(** ** Fetching: [fetch_quanthockey_stats] *)

(** A table cell as the loop reads it: the stripped text of its first link,
    when it has one, and its own stripped text. *)
Record Cell := mkCell {
  link_text : option str;
  cell_text : str
}.

(** [soup.find_all('table')], each table with the cells of its rows. *)
Variable soup_tables : Response -> list (list (list Cell)).

(** [text.isdigit()] and [int(text)], which raises [ValueError] ([None]) on
    some texts. *)
Variable isdigit : str -> bool.
Variable int : str -> option Z.

(** [int(text) if text and text.isdigit() else 0] *)
Definition int_or_zero (text : str) : option Z :=
  if truthy text && isdigit text then int text else Some 0.

(** The body of [for row in rows[2:]]; [None] when the row adds no player. *)
Definition parse_row (cols : list Cell) : option Player :=
  if (9 <=? List.length cols)%nat then
    match nth_error cols 2, nth_error cols 7, nth_error cols 8 with
    | Some name_cell, Some goals_cell, Some assists_cell =>
        let player_name :=
          match link_text name_cell with
          | Some text => text
          | None => cell_text name_cell
          end in
        if negb (truthy player_name) then None
        else
          match int_or_zero (cell_text goals_cell) with
          | None => None
          | Some goals =>
              match int_or_zero (cell_text assists_cell) with
              | None => None
              | Some assists =>
                  let points := goals + assists in
                  if points >? 0 then
                    Some {| p_name := player_name; p_goals := goals;
                            p_assists := assists; p_points := points |}
                  else None
              end
          end
    | _, _, _ => None
    end
  else None.

Definition parse_rows (rows : list (list Cell)) : list Player :=
  flat_map (fun row => match parse_row row with
                       | Some player => [player]
                       | None => []
                       end) (skipn 2 rows).

Definition parse_tables (tables : list (list (list Cell))) : list Player :=
  flat_map parse_rows tables.

(** The call for one country, [get] being what its requests meet. [None]
    stands for an exception that leaves the function: the [try] covers the
    fetch only. *)
Definition fetch_quanthockey_stats (get : nat -> Attempt Response)
    : option (list Player) * list Event :=
  match fetch_with_retry get 2 with
  | (Returned response, events) => (Some (parse_tables (soup_tables response)), events)
  | (Raised _, events) => (Some [], events)
  | (ReturnedNone, events) => (None, events)
  end.
End Fetch.

Arguments Ok {Error A} a.
Arguments Fails {Error A} e.
Arguments Returned {Error A} a.
Arguments Raised {Error A} e.
Arguments ReturnedNone {Error A}.

(** ** Fetching: [fetch_nhl_rosters] *)

Definition NHL_TEAMS : list str :=
  map lit
    [ "ANA"; "BOS"; "BUF"; "CAR"; "CBJ"; "CGY"; "CHI"; "COL"; "DAL"; "DET";
      "EDM"; "FLA"; "LAK"; "MIN"; "MTL"; "NJD"; "NSH"; "NYI"; "NYR"; "OTT";
      "PHI"; "PIT"; "SEA"; "SJS"; "STL"; "TBL"; "TOR"; "UTA"; "VAN"; "VGK";
      "WPG"; "WSH" ]%string.

(** A player of a roster: [player.get('firstName', {}).get('default', '')]
    and the same for ['lastName']. *)
Record RosterPlayer := mkRosterPlayer {
  firstName : str;
  lastName : str
}.

(** The decoded roster: [roster.get(group, [])] for the three groups. *)
Record Roster := mkRoster {
  forwards : list RosterPlayer;
  defensemen : list RosterPlayer;
  goalies : list RosterPlayer
}.

Section Rosters.
Context {U : UnicodeData}.
Variable Response : Type.
Variable Error : Type.

(** [response.json()] *)
Variable json : Response -> Attempt Error Roster.

(** Whether [except requests.RequestException] catches the exception. *)
Variable is_RequestException : Error -> bool.

(** What [None.json()] raises. *)
Variable attribute_error : Error.

(** The body of [for player in roster.get(position_group, [])]. *)
Definition add_roster_player (team_abbrev : str) (player_to_team : dict str)
    (player : RosterPlayer) : dict str :=
  if truthy (firstName player) && truthy (lastName player) then
    let full_name := firstName player ++ [SPACE] ++ lastName player in
    let normalized := normalize_name full_name in
    dict_set normalized team_abbrev player_to_team
  else player_to_team.

(** [for position_group in ['forwards', 'defensemen', 'goalies']] *)
Definition add_roster (team_abbrev : str) (roster : Roster)
    (player_to_team : dict str) : dict str :=
  fold_left
    (fun player_to_team position_group =>
       fold_left (add_roster_player team_abbrev) position_group player_to_team)
    [forwards roster; defensemen roster; goalies roster] player_to_team.

(** [for team_abbrev in NHL_TEAMS], [world team_abbrev] being what the
    requests for that team's roster meet. An exception that is not a
    [RequestException] leaves the function. *)
Fixpoint rosters_loop (world : str -> nat -> Attempt Error Response)
    (teams : list str) (player_to_team : dict str) : Result Error (dict str) :=
  match teams with
  | [] => Returned player_to_team
  | team_abbrev :: teams' =>
      match fst (fetch_with_retry (world team_abbrev) 2) with
      | Returned response =>
          match json response with
          | Ok roster =>
              rosters_loop world teams' (add_roster team_abbrev roster player_to_team)
          | Fails e =>
              if is_RequestException e then rosters_loop world teams' player_to_team
              else Raised e
          end
      | Raised e =>
          if is_RequestException e then rosters_loop world teams' player_to_team
          else Raised e
      | ReturnedNone =>
          if is_RequestException attribute_error
          then rosters_loop world teams' player_to_team
          else Raised attribute_error
      end
  end.

Definition fetch_nhl_rosters (world : str -> nat -> Attempt Error Response)
    : Result Error (dict str) :=
  rosters_loop world NHL_TEAMS [].

(** The roster that the loop processes for a team: the decoded one, or none
    when the fetch or the decoding raised. *)
Definition roster_fetched (world : str -> nat -> Attempt Error Response)
    (team_abbrev : str) : option Roster :=
  match fst (fetch_with_retry (world team_abbrev) 2) with
  | Returned response =>
      match json response with
      | Ok roster => Some roster
      | Fails _ => None
      end
  | _ => None
  end.

(** The exception that the iteration for a team lets through, if any. *)
Definition roster_escapes (world : str -> nat -> Attempt Error Response)
    (team_abbrev : str) : option Error :=
  match fst (fetch_with_retry (world team_abbrev) 2) with
  | Returned response =>
      match json response with
      | Ok _ => None
      | Fails e => if is_RequestException e then None else Some e
      end
  | Raised e => if is_RequestException e then None else Some e
  | ReturnedNone =>
      if is_RequestException attribute_error then None else Some attribute_error
  end.

(** The stores of a roster, in the order in which the loop makes them. *)
Definition roster_entries (team_abbrev : str) (roster : Roster) : list (str * str) :=
  flat_map
    (fun player =>
       if truthy (firstName player) && truthy (lastName player)
       then [(normalize_name (firstName player ++ [SPACE] ++ lastName player),
              team_abbrev)]
       else [])
    (forwards roster ++ defensemen roster ++ goalies roster).

(** The stores of all the teams. *)
Definition all_roster_entries (world : str -> nat -> Attempt Error Response)
    (teams : list str) : list (str * str) :=
  flat_map
    (fun team_abbrev =>
       match roster_fetched world team_abbrev with
       | Some roster => roster_entries team_abbrev roster
       | None => []
       end) teams.
End Rosters.

(** The last item of a list of stores that is under [k]. *)
Definition last_stored (k : str) (stores : list (str * str)) : option str :=
  option_map snd (find (fun kv => str_eqb (fst kv) k) (rev stores)).

(** ** Step 1 of [main], with its fetches *)

Definition olympic_countries : list str :=
  map lit
    [ "canada"; "usa"; "sweden"; "finland"; "czech-republic"; "slovakia";
      "switzerland"; "germany"; "latvia"; "denmark"; "france"; "italy" ]%string.

Section CollectFetched.
Context {U : UnicodeData}.
Variable Response : Type.
Variable Error : Type.
Variable soup_tables : Response -> list (list (list Cell)).
Variable isdigit : str -> bool.
Variable int : str -> option Z.

(** [for country in olympic_countries], [world country] being what the
    requests for that country's page meet. [None] stands for an exception
    that leaves [main]. *)
Fixpoint countries_loop (world : str -> nat -> Attempt Error Response)
    (countries : list str) (all_player_stats : dict Stats) : option (dict Stats) :=
  match countries with
  | [] => Some all_player_stats
  | country :: countries' =>
      match fst (fetch_quanthockey_stats soup_tables isdigit int (world country)) with
      | Some players =>
          countries_loop world countries' (fold_left add_player players all_player_stats)
      | None => None
      end
  end.

Definition fetch_all_player_stats (world : str -> nat -> Attempt Error Response)
    : option (dict Stats) :=
  countries_loop world olympic_countries [].

(** The players that the page of a country yields: those of its tables, or
    none when the fetch failed. *)
Definition country_players (world : str -> nat -> Attempt Error Response)
    (country : str) : list Player :=
  match fst (fetch_with_retry (world country) 2) with
  | Returned response => parse_tables isdigit int (soup_tables response)
  | _ => []
  end.
End CollectFetched.

(** ** The figures of the report: [generate_html] and the end of [main] *)

(** [len(l)] *)
Definition len {A : Type} (l : list A) : Z := Z.of_nat (List.length l).

(** The numbers of the summary boxes and of the footer. *)
Record Summary := mkSummary {
  nhl_teams : Z;
  nhl_players : Z;
  total_points : Z;
  all_olympic_players : Z;
  not_on_rosters : Z
}.

Definition summary (sorted_teams : list (str * TeamStats))
    (total_players unmatched_count : Z) : Summary :=
  {| nhl_teams := len sorted_teams;
     nhl_players := total (fun x => len (players (snd x))) sorted_teams;
     total_points := total (fun x => points (snd x)) sorted_teams;
     all_olympic_players := total_players;
     not_on_rosters := unmatched_count |}.

(** [generate_html(sorted_teams, len(all_player_stats), len(unmatched_players))] *)
Definition main_summary (all_player_stats : dict Stats) (player_to_team : dict str)
    : Summary :=
  let '(sorted_teams, unmatched_players) := aggregate all_player_stats player_to_team in
  summary sorted_teams (len all_player_stats) (len unmatched_players).

(** [lambda p: (p['points'], p['goals'])] *)
Definition player_key (p : Player) : Z * Z := (p_points p, p_goals p).

(** The player cards of a team, in the order of the page. *)
Definition sorted_players (stats : TeamStats) : list Player :=
  sorted player_key true (players stats).

Section RosterVocabulary.
Variable Response : Type.
Variable Error : Type.
Variable json : Response -> Attempt Error Roster.
Variable is_RequestException : Error -> bool.
Variable attribute_error : Error.

(** The exception of the first team whose iteration lets one through. *)
Fixpoint first_escape (world : str -> nat -> Attempt Error Response)
    (teams : list str) : option Error :=
  match teams with
  | [] => None
  | team_abbrev :: teams' =>
      match roster_escapes json is_RequestException attribute_error world team_abbrev with
      | Some e => Some e
      | None => first_escape world teams'
      end
  end.
End RosterVocabulary.

(** [d[k] = v] for each item [(k, v)] of a list, in order. *)
Definition store_all (stores : list (str * str)) (d : dict str) : dict str :=
  fold_left (fun d kv => dict_set (fst kv) (snd kv) d) stores d.

(** A scorer as [fetch_quanthockey_stats] returns them: named, with the
    points that the goals and assists add up to, and with points. *)
Definition is_scorer (p : Player) : Prop :=
  truthy (p_name p) = true /\
  p_points p = p_goals p + p_assists p /\
  0 < p_points p.

(** An entry of [all_player_stats] that stands for a scorer. *)
Definition has_points (entry : Stats) : Prop :=
  truthy (name entry) = true /\ 0 < goals entry + assists entry.

(** A ranking entry as the loop builds them: under a team code that is not
    empty, with at least one player, each player with the points that the
    goals and assists add up to. *)
Definition well_formed_team (entry : str * TeamStats) : Prop :=
  truthy (fst entry) = true /\
  players (snd entry) <> [] /\
  Forall (fun p => p_points p = p_goals p + p_assists p) (players (snd entry)).

(** The players of a ranking entry are no more than its points. *)
Definition players_within_points (entry : str * TeamStats) : Prop :=
  1 <= len (players (snd entry)) <= points (snd entry).

(** [a] comes before [b] on a team's list of player cards. *)
Definition card_before (a b : Player) : Prop :=
  tuple_le (player_key b) (player_key a).

(** ** Sample servers and pages *)

Module SampleNet.

(** A server that fails twice and then answers; the exception carries the
    number of the request. *)
Definition flaky (i : nat) : Attempt nat Z :=
  if (i <? 2)%nat then Fails i else Ok 200.

(** A server that never answers. *)
Definition down (i : nat) : Attempt nat Z := Fails i.

(** Decimal digits and numerals in ASCII. *)
Definition is_ascii_digit (c : codepoint) : bool :=
  ((0x30 <=? c) && (c <=? 0x39))%N.

Definition isdigit (text : str) : bool :=
  truthy text && forallb is_ascii_digit text.

Definition int (text : str) : option Z :=
  if isdigit text
  then Some (fold_left (fun n c => 10 * n + (Z.of_N c - 0x30)) text 0)
  else None.

Definition cell (text : string) : Cell :=
  {| link_text := None; cell_text := lit text |}.

Definition linked (text : string) : Cell :=
  {| link_text := Some (lit text); cell_text := lit text |}.

(** A page with one table: two header rows, a scorer, a player without
    points. *)
Definition page : list (list (list Cell)) :=
  [[ [cell "Rk"]; [cell "Name"];
     [cell "1"; cell ""; linked "Connor McDavid"; cell "CAN"; cell "29";
      cell "F"; cell "3"; cell "3"; cell "5"; cell "8"];
     [cell "2"; cell ""; linked "Jane Doe"; cell "CAN"; cell "30";
      cell "D"; cell "3"; cell "0"; cell "-"; cell "0"] ]].

(** Rosters as responses, every exception a [RequestException]: Edmonton
    answers, every other team is down. *)
Definition edmonton : Roster :=
  {| forwards := [ {| firstName := lit "Connor"; lastName := lit "McDavid" |} ];
     defensemen := [ {| firstName := lit "Evan"; lastName := lit "" |} ];
     goalies := [] |}.

Definition roster_world (team_abbrev : str) (i : nat) : Attempt nat Roster :=
  if str_eqb team_abbrev (lit "EDM") then Ok edmonton else Fails i.

End SampleNet.

Module SampleHeap.
Import Heap.

(** The tied source and its roster on a heap: the two records, then
    [all_player_stats], then [player_to_team]. *)
Definition tie_heap : heap :=
  [stats_object Sample.alpha;
   stats_object Sample.beta;
   ODict [(lit "al alpha", VRef 0); (lit "bo beta", VRef 1)];
   ODict [(lit "al alpha", VStr Sample.BOS); (lit "bo beta", VStr Sample.TOR)]].

Definition tie_source_ref : value := VRef 2.
Definition tie_roster_ref : value := VRef 3.

End SampleHeap.

(** * Properties *)

(** ** Dictionaries *)

Section DictFacts.
Variable V : Type.
Implicit Types (d : dict V) (k : str) (v : V).

Lemma dict_get_set_same k v d : dict_get k (dict_set k v d) = Some v.
Proof.
  induction d as [|[k' v'] d IH]; simpl.
  - destruct (str_eq_dec k k); congruence.
  - destruct (str_eq_dec k k') as [->|Hne]; simpl.
    + destruct (str_eq_dec k' k'); congruence.
    + destruct (str_eq_dec k k'); [contradiction|assumption].
Qed.

Lemma dict_get_set_other k k' v d :
  k <> k' -> dict_get k' (dict_set k v d) = dict_get k' d.
Proof.
  intros Hne. induction d as [|[k0 v0] d IH]; simpl.
  - destruct (str_eq_dec k' k); congruence.
  - destruct (str_eq_dec k k0) as [->|Hk]; simpl.
    + destruct (str_eq_dec k' k0); congruence.
    + destruct (str_eq_dec k' k0); [reflexivity|assumption].
Qed.

Lemma dict_set_set k v v' d : dict_set k v' (dict_set k v d) = dict_set k v' d.
Proof.
  induction d as [|[k0 v0] d IH]; simpl.
  - destruct (str_eq_dec k k); congruence.
  - destruct (str_eq_dec k k0) as [->|Hk]; simpl.
    + destruct (str_eq_dec k0 k0); congruence.
    + destruct (str_eq_dec k k0); [contradiction|now rewrite IH].
Qed.

(** A store to a key that is present keeps the keys and their order. *)
Lemma dict_set_present k v v0 d :
  dict_get k d = Some v0 -> keys (dict_set k v d) = keys d.
Proof.
  induction d as [|[k0 v1] d IH]; simpl; [discriminate|].
  destruct (str_eq_dec k k0) as [->|Hk]; simpl; [reflexivity|].
  intros H. now rewrite IH.
Qed.

(** A store to a new key appends the item. *)
Lemma dict_set_absent k v d :
  dict_get k d = None -> dict_set k v d = d ++ [(k, v)].
Proof.
  induction d as [|[k0 v1] d IH]; simpl; [reflexivity|].
  destruct (str_eq_dec k k0) as [->|Hk]; [discriminate|].
  intros H. now rewrite IH.
Qed.

Lemma dict_get_None_not_In k d : dict_get k d = None <-> ~ In k (keys d).
Proof.
  induction d as [|[k0 v0] d IH]; simpl.
  - tauto.
  - destruct (str_eq_dec k k0) as [->|Hk].
    + split; [discriminate|]. intros H. exfalso. apply H. now left.
    + rewrite IH. split; intros H; [intros [E|HIn]; [congruence|tauto]|tauto].
Qed.

Lemma dict_get_In k v d : dict_get k d = Some v -> In (k, v) d.
Proof.
  induction d as [|[k0 v0] d IH]; simpl; [discriminate|].
  destruct (str_eq_dec k k0) as [->|Hk].
  - intros [= ->]. now left.
  - intros H. right. now apply IH.
Qed.

Lemma In_dict_get k v d : NoDup (keys d) -> In (k, v) d -> dict_get k d = Some v.
Proof.
  induction d as [|[k0 v0] d IH]; simpl; [tauto|].
  intros Hnd [E|HIn].
  - injection E as -> ->. destruct (str_eq_dec k k); congruence.
  - inversion Hnd as [|? ? Hnot Hnd']; subst.
    destruct (str_eq_dec k k0) as [->|Hk].
    + exfalso. apply Hnot. change k0 with (fst (k0, v)). now apply in_map.
    + now apply IH.
Qed.

(** Two dictionaries with the same items, in any order, answer lookups alike. *)
Lemma dict_get_Permutation k d d' :
  NoDup (keys d) -> Permutation d d' -> dict_get k d = dict_get k d'.
Proof.
  intros Hnd Hperm.
  assert (Hnd' : NoDup (keys d')).
  { unfold keys. eapply Permutation_NoDup; [|exact Hnd]. now apply Permutation_map. }
  destruct (dict_get k d) as [v|] eqn:E.
  - symmetry. apply In_dict_get; [assumption|].
    eapply Permutation_in; [exact Hperm|]. now apply dict_get_In.
  - symmetry. apply dict_get_None_not_In. apply dict_get_None_not_In in E.
    intros HIn. apply E. unfold keys in *.
    eapply Permutation_in; [|exact HIn]. apply Permutation_map. now symmetry.
Qed.

Lemma dict_set_NoDup k v d : NoDup (keys d) -> NoDup (keys (dict_set k v d)).
Proof.
  intros Hnd. destruct (dict_get k d) as [v0|] eqn:E.
  - now rewrite dict_set_present with (v0 := v0).
  - rewrite dict_set_absent by assumption. unfold keys. rewrite map_app. simpl.
    apply NoDup_app_remove_l with (l := []). simpl.
    apply Permutation_NoDup with (l := k :: map fst d).
    + apply Permutation_cons_append.
    + constructor; [|assumption]. now apply dict_get_None_not_In.
Qed.

Lemma defaultdict_update_eq default k f d :
  defaultdict_update default k f d = dict_set k (f (get_or default k d)) d.
Proof.
  unfold defaultdict_update, defaultdict_getitem, get_or.
  destruct (dict_get k d); [reflexivity|apply dict_set_set].
Qed.

Lemma defaultdict_update_twice default k f g d :
  defaultdict_update default k g (defaultdict_update default k f d)
  = defaultdict_update default k (fun v => g (f v)) d.
Proof.
  rewrite !defaultdict_update_eq. unfold get_or at 1.
  now rewrite dict_get_set_same, dict_set_set.
Qed.
End DictFacts.

(** ** The aggregation loop *)

Lemma total_app {A : Type} (f : A -> Z) (l l' : list A) :
  total f (l ++ l') = total f l + total f l'.
Proof. induction l as [|x l IH]; simpl; [reflexivity|rewrite IH; lia]. Qed.

Lemma stats_eta (stats : Stats) :
  {| name := name stats; goals := goals stats; assists := assists stats |} = stats.
Proof. now destruct stats. Qed.

Lemma stats_of_player_of (stats : Stats) : stats_of (player_of stats) = stats.
Proof. now destruct stats. Qed.

(** The four statements of the branch amount to one store. *)
Lemma credit_team_eq nhl_team stats d :
  credit_team nhl_team stats d
  = dict_set nhl_team (credited stats (get_or new_team_stats nhl_team d)) d.
Proof.
  unfold credit_team. rewrite !defaultdict_update_twice.
  now rewrite defaultdict_update_eq.
Qed.

Lemma aggregate_item_eq roster d u k stats :
  aggregate_item roster (d, u) (k, stats)
  = match team_of roster k with
    | Some t => (credit_team t stats d, u)
    | None => (d, u ++ [stats])
    end.
Proof.
  unfold aggregate_item, team_of, record_unmatched. rewrite stats_eta.
  destruct (dict_get k roster) as [t|]; [destruct (truthy t)|]; reflexivity.
Qed.

Lemma credited_consistent stats t : consistent t -> consistent (credited stats t).
Proof.
  unfold consistent. intros (Hp & Hg & Ha). simpl.
  rewrite !total_app. simpl. lia.
Qed.

Lemma new_team_stats_consistent : consistent new_team_stats.
Proof. repeat split. Qed.

Section ValuesFacts.
Variable V : Type.
Variable P : V -> Prop.

Lemma Forall_values_dict_set k v (d : dict V) :
  Forall P (values d) -> P v -> Forall P (values (dict_set k v d)).
Proof.
  intros Hd Hv. induction d as [|[k0 v0] d IH]; simpl.
  - now constructor.
  - inversion Hd; subst. destruct (str_eq_dec k k0); simpl; constructor; auto.
Qed.

Lemma get_or_Forall default k (d : dict V) :
  Forall P (values d) -> P default -> P (get_or default k d).
Proof.
  intros Hd Hdef. unfold get_or. destruct (dict_get k d) as [v|] eqn:E; [|assumption].
  apply dict_get_In in E. rewrite Forall_forall in Hd. apply Hd.
  change v with (snd (k, v)). now apply in_map.
Qed.
End ValuesFacts.

Lemma credit_team_consistent nhl_team stats d :
  Forall consistent (values d) ->
  Forall consistent (values (credit_team nhl_team stats d)).
Proof.
  intros H. rewrite credit_team_eq. apply Forall_values_dict_set; [assumption|].
  apply credited_consistent, get_or_Forall; [assumption|apply new_team_stats_consistent].
Qed.

Lemma fold_aggregate_consistent roster l acc :
  Forall consistent (values (fst acc)) ->
  Forall consistent (values (fst (fold_left (aggregate_item roster) l acc))).
Proof.
  revert acc. induction l as [|[k stats] l IH]; intros [d u] H; cbn [fold_left];
    [assumption|].
  apply IH. rewrite aggregate_item_eq. destruct (team_of roster k); simpl; [|assumption].
  now apply credit_team_consistent.
Qed.

(** ** Sorting *)

Lemma tuple_leb_le a b : tuple_leb a b = true <-> tuple_le a b.
Proof.
  unfold tuple_leb, tuple_le.
  rewrite orb_true_iff, andb_true_iff, Z.ltb_lt, Z.eqb_eq, Z.leb_le. tauto.
Qed.

Lemma tuple_le_refl a : tuple_le a a.
Proof. unfold tuple_le. lia. Qed.

Lemma tuple_le_trans a b c : tuple_le a b -> tuple_le b c -> tuple_le a c.
Proof. unfold tuple_le. lia. Qed.

Lemma tuple_le_total a b : tuple_le a b \/ tuple_le b a.
Proof. unfold tuple_le. lia. Qed.

Lemma tuple_leb_false a b : tuple_leb a b = false -> tuple_le b a /\ a <> b.
Proof.
  intros H. split.
  - destruct (tuple_le_total a b) as [Hab|]; [|assumption].
    apply tuple_leb_le in Hab. congruence.
  - intros ->. pose proof (tuple_le_refl b) as Hr.
    apply tuple_leb_le in Hr. congruence.
Qed.

Lemma tuple_eqb_eq a b : tuple_eqb a b = true <-> a = b.
Proof.
  unfold tuple_eqb. rewrite andb_true_iff, !Z.eqb_eq.
  destruct a, b; simpl. split; [intros [-> ->]; reflexivity|intros [= -> ->]; auto].
Qed.

Section SortFacts.
Variable A : Type.
Variable key : A -> Z * Z.

Let ascending (x y : A) : Prop := tuple_le (key x) (key y).
Let descending (x y : A) : Prop := tuple_le (key y) (key x).

Lemma insert_stable_Permutation x l : Permutation (x :: l) (insert_stable key x l).
Proof.
  induction l as [|y l IH]; simpl; [reflexivity|].
  destruct (tuple_leb (key x) (key y)); [reflexivity|].
  rewrite perm_swap. now apply perm_skip.
Qed.

Lemma stable_sort_Permutation l : Permutation l (stable_sort key l).
Proof.
  induction l as [|x l IH]; simpl; [reflexivity|].
  rewrite <- insert_stable_Permutation. now apply perm_skip.
Qed.

Lemma sorted_Permutation reverse l : Permutation l (sorted key reverse l).
Proof.
  unfold sorted. destruct reverse.
  - rewrite <- Permutation_rev, <- stable_sort_Permutation. apply Permutation_rev.
  - apply stable_sort_Permutation.
Qed.

Lemma insert_stable_sorted x l :
  StronglySorted ascending l -> StronglySorted ascending (insert_stable key x l).
Proof.
  induction l as [|y l IH]; intros Hs; simpl.
  - constructor; constructor.
  - destruct (tuple_leb (key x) (key y)) eqn:E.
    + apply tuple_leb_le in E. constructor; [assumption|].
      constructor; [assumption|].
      apply StronglySorted_inv in Hs as [_ Hall].
      eapply Forall_impl; [|exact Hall]. intros z Hz.
      unfold ascending in *. eapply tuple_le_trans; eassumption.
    + apply tuple_leb_false in E as [E _].
      apply StronglySorted_inv in Hs as [Hs Hall].
      constructor; [now apply IH|].
      eapply Permutation_Forall; [apply insert_stable_Permutation|].
      now constructor.
Qed.

Lemma stable_sort_sorted l : StronglySorted ascending (stable_sort key l).
Proof.
  induction l as [|x l IH]; simpl; [constructor|now apply insert_stable_sorted].
Qed.

Lemma StronglySorted_snoc (R : A -> A -> Prop) l x :
  StronglySorted R l -> Forall (fun y => R y x) l -> StronglySorted R (l ++ [x]).
Proof.
  induction l as [|y l IH]; intros Hs Hall; simpl.
  - constructor; constructor.
  - apply StronglySorted_inv in Hs as [Hs Hy]. inversion Hall; subst.
    constructor; [now apply IH|].
    apply Forall_app. split; [assumption|]. now constructor.
Qed.

Lemma StronglySorted_rev l :
  StronglySorted ascending l -> StronglySorted descending (rev l).
Proof.
  induction l as [|x l IH]; intros Hs; simpl; [constructor|].
  apply StronglySorted_inv in Hs as [Hs Hall].
  apply StronglySorted_snoc; [now apply IH|].
  apply Forall_rev. exact Hall.
Qed.

Lemma sorted_reverse_descending l : StronglySorted descending (sorted key true l).
Proof. apply StronglySorted_rev, stable_sort_sorted. Qed.

(** Stability: the elements that share a key keep their order. *)
Lemma insert_stable_tied kv x l :
  filter (fun y => tuple_eqb (key y) kv) (insert_stable key x l)
  = filter (fun y => tuple_eqb (key y) kv) (x :: l).
Proof.
  induction l as [|y l IH]; [reflexivity|].
  cbn [insert_stable]. destruct (tuple_leb (key x) (key y)) eqn:E; [reflexivity|].
  apply tuple_leb_false in E as [_ Hne].
  cbn [filter] in *. rewrite IH.
  destruct (tuple_eqb (key x) kv) eqn:Ex, (tuple_eqb (key y) kv) eqn:Ey;
    try reflexivity.
  apply tuple_eqb_eq in Ex, Ey. congruence.
Qed.

Lemma stable_sort_tied kv l :
  filter (fun y => tuple_eqb (key y) kv) (stable_sort key l)
  = filter (fun y => tuple_eqb (key y) kv) l.
Proof.
  induction l as [|x l IH]; [reflexivity|].
  cbn [stable_sort fold_right]. rewrite insert_stable_tied.
  cbn [filter]. unfold stable_sort in IH. now rewrite IH.
Qed.

Lemma filter_rev (f : A -> bool) l : filter f (rev l) = rev (filter f l).
Proof.
  induction l as [|x l IH]; [reflexivity|].
  simpl. rewrite filter_app, IH. simpl. destruct (f x); simpl;
    [reflexivity|apply app_nil_r].
Qed.

Lemma sorted_tied kv reverse l :
  filter (fun y => tuple_eqb (key y) kv) (sorted key reverse l)
  = filter (fun y => tuple_eqb (key y) kv) l.
Proof.
  unfold sorted. destruct reverse; [|apply stable_sort_tied].
  now rewrite filter_rev, stable_sort_tied, filter_rev, rev_involutive.
Qed.
End SortFacts.

(** ** Where each source record goes *)

Lemma str_eqb_eq a b : str_eqb a b = true <-> a = b.
Proof. unfold str_eqb. destruct (str_eq_dec a b); split; congruence. Qed.

Lemma str_eqb_refl a : str_eqb a a = true.
Proof. now apply str_eqb_eq. Qed.

Lemma players_of_credit_same team stats d :
  players_of team (credit_team team stats d) = players_of team d ++ [player_of stats].
Proof.
  rewrite credit_team_eq. unfold players_of, get_or.
  rewrite dict_get_set_same. now destruct (dict_get team d).
Qed.

Lemma players_of_credit_other team team' stats d :
  team <> team' ->
  players_of team' (credit_team team stats d) = players_of team' d.
Proof.
  intros Hne. rewrite credit_team_eq. unfold players_of.
  now rewrite dict_get_set_other.
Qed.

Lemma fold_aggregate_players roster team l d u :
  players_of team (fst (fold_left (aggregate_item roster) l (d, u)))
  = players_of team d ++ map player_of (values (filter (goes_to roster team) l)).
Proof.
  revert d u. induction l as [|[k stats] l IH]; intros d u; cbn [fold_left].
  - simpl. now rewrite app_nil_r.
  - rewrite aggregate_item_eq. cbn [filter].
    replace (goes_to roster team (k, stats))
      with (match team_of roster k with Some t => str_eqb t team | None => false end)
      by reflexivity.
    destruct (team_of roster k) as [t|]; rewrite IH; [|reflexivity].
    destruct (str_eqb t team) eqn:E.
    + apply str_eqb_eq in E. subst t. rewrite players_of_credit_same.
      simpl. now rewrite <- app_assoc.
    + rewrite players_of_credit_other; [reflexivity|].
      intros ->. now rewrite str_eqb_refl in E.
Qed.

Lemma fold_aggregate_unmatched roster l d u :
  snd (fold_left (aggregate_item roster) l (d, u))
  = u ++ values (filter (is_unmatched roster) l).
Proof.
  revert d u. induction l as [|[k stats] l IH]; intros d u; cbn [fold_left].
  - simpl. now rewrite app_nil_r.
  - rewrite aggregate_item_eq. cbn [filter].
    replace (is_unmatched roster (k, stats))
      with (match team_of roster k with Some _ => false | None => true end)
      by reflexivity.
    destruct (team_of roster k) as [t|]; rewrite IH; [reflexivity|].
    simpl. now rewrite <- app_assoc.
Qed.

Lemma fold_aggregate_NoDup roster l acc :
  NoDup (keys (fst acc)) ->
  NoDup (keys (fst (fold_left (aggregate_item roster) l acc))).
Proof.
  revert acc. induction l as [|[k stats] l IH]; intros [d u] H; cbn [fold_left];
    [assumption|].
  apply IH. rewrite aggregate_item_eq. destruct (team_of roster k); simpl;
    [|assumption].
  rewrite credit_team_eq. now apply dict_set_NoDup.
Qed.

Lemma all_players_dict_set k v p d :
  players v = players (get_or new_team_stats k d) ++ [p] ->
  Permutation (all_players (dict_set k v d)) (p :: all_players d).
Proof.
  induction d as [|[k0 v0] d IH]; intros Hv.
  - simpl. unfold get_or in Hv. simpl in Hv. rewrite Hv. reflexivity.
  - unfold get_or in Hv, IH. simpl in Hv |- *.
    destruct (str_eq_dec k k0) as [->|Hne]; simpl.
    + rewrite Hv, <- app_assoc. simpl. symmetry. apply Permutation_middle.
    + rewrite (IH Hv). symmetry. apply Permutation_middle.
Qed.

Lemma all_players_credit team stats d :
  Permutation (all_players (credit_team team stats d)) (player_of stats :: all_players d).
Proof. rewrite credit_team_eq. now apply all_players_dict_set. Qed.

Lemma fold_aggregate_Permutation roster l d u :
  Permutation
    (map stats_of (all_players (fst (fold_left (aggregate_item roster) l (d, u))))
       ++ snd (fold_left (aggregate_item roster) l (d, u)))
    (map stats_of (all_players d) ++ u ++ values l).
Proof.
  revert d u. induction l as [|[k stats] l IH]; intros d u; cbn [fold_left].
  - simpl. now rewrite app_nil_r.
  - rewrite aggregate_item_eq. destruct (team_of roster k) as [t|]; rewrite IH.
    + cbn [fst snd]. rewrite all_players_credit. simpl.
      rewrite stats_of_player_of.
      etransitivity; [apply Permutation_middle|].
      apply Permutation_app_head. apply Permutation_middle.
    + simpl. now rewrite <- app_assoc.
Qed.

Lemma all_players_Permutation teams teams' :
  Permutation teams teams' -> Permutation (all_players teams) (all_players teams').
Proof. intros H. unfold all_players. now apply Permutation_flat_map. Qed.

Lemma goes_to_roster roster team item :
  goes_to roster team item = true ->
  dict_get (fst item) roster = Some team /\ is_unmatched roster item = false.
Proof.
  unfold goes_to, is_unmatched, team_of.
  destruct (dict_get (fst item) roster) as [t|]; [|discriminate].
  destruct (truthy t); [|discriminate].
  intros E. apply str_eqb_eq in E. now subst.
Qed.

Lemma is_unmatched_goes_to roster team item :
  is_unmatched roster item = true -> goes_to roster team item = false.
Proof.
  unfold goes_to, is_unmatched. now destruct (team_of roster (fst item)).
Qed.

Lemma aggregate_fst src roster :
  fst (aggregate src roster) = sorted_teams (fst (aggregate_loop src roster)).
Proof. unfold aggregate. now destruct (aggregate_loop src roster). Qed.

Lemma aggregate_snd src roster :
  snd (aggregate src roster) = snd (aggregate_loop src roster).
Proof. unfold aggregate. now destruct (aggregate_loop src roster). Qed.

Lemma sorted_teams_Permutation d : Permutation d (sorted_teams d).
Proof. apply sorted_Permutation. Qed.

Lemma aggregate_loop_NoDup src roster :
  NoDup (keys (fst (aggregate_loop src roster))).
Proof. apply fold_aggregate_NoDup. constructor. Qed.

(** C1: every record of the source map is appended exactly once, either to
    the player list of the team that the roster maps its key to, or to the
    unmatched list. Each team occurs once in the ranking; the player list of
    a team is made of the source records that go to it, in source order; the
    unmatched list is made of the records that go to no team; a record goes
    to a team or is unmatched, never both, and to no second team; and the
    player lists and the unmatched list together hold the source records,
    each as many times as the source does. *)
Theorem every_record_classified_once (src : dict Stats) (roster : dict str) :
  NoDup (keys (fst (aggregate src roster))) /\
  (forall team,
     players_of team (fst (aggregate src roster))
     = map player_of (values (filter (goes_to roster team) src))) /\
  snd (aggregate src roster) = values (filter (is_unmatched roster) src) /\
  Forall (fun item =>
            (is_unmatched roster item = true /\
             forall team, goes_to roster team item = false) \/
            (exists team,
               dict_get (fst item) roster = Some team /\
               goes_to roster team item = true /\
               is_unmatched roster item = false /\
               forall team', goes_to roster team' item = true -> team' = team)) src /\
  Permutation
    (map stats_of (all_players (fst (aggregate src roster))) ++ snd (aggregate src roster))
    (values src).
Proof.
  rewrite aggregate_fst, aggregate_snd.
  pose proof (aggregate_loop_NoDup src roster) as Hnd.
  pose proof (sorted_teams_Permutation (fst (aggregate_loop src roster))) as Hperm.
  split; [|split; [|split; [|split]]].
  - unfold keys. eapply Permutation_NoDup; [|exact Hnd]. now apply Permutation_map.
  - intros team. unfold players_of.
    rewrite <- (dict_get_Permutation team Hnd Hperm).
    apply (fold_aggregate_players roster team src [] []).
  - apply (fold_aggregate_unmatched roster src [] []).
  - apply Forall_forall. intros item _.
    destruct (is_unmatched roster item) eqn:Eu.
    + left. split; [reflexivity|]. intros team. now apply is_unmatched_goes_to.
    + right. unfold is_unmatched in Eu.
      destruct (team_of roster (fst item)) as [t|] eqn:Et; [|discriminate].
      exists t. assert (Hg : goes_to roster t item = true).
      { unfold goes_to. rewrite Et. apply str_eqb_refl. }
      split; [now apply goes_to_roster|]. split; [assumption|].
      split; [reflexivity|]. intros team' H'. unfold goes_to in H'.
      rewrite Et in H'. apply str_eqb_eq in H'. congruence.
  - rewrite <- (all_players_Permutation Hperm).
    apply (fold_aggregate_Permutation roster src [] []).
Qed.

(** C2: in every entry of the ranking, [points] is the sum of goals plus
    assists over the entry's player list, [goals] is the sum of their goals
    and [assists] the sum of their assists. *)
Theorem team_totals_match_players (src : dict Stats) (roster : dict str) :
  Forall (fun entry => consistent (snd entry)) (fst (aggregate src roster)).
Proof.
  rewrite aggregate_fst.
  eapply Permutation_Forall; [apply sorted_teams_Permutation|].
  apply Forall_map with (f := snd) (P := consistent).
  apply (fold_aggregate_consistent roster src ([], [])). constructor.
Qed.

(** C3: the ranking is sorted non-increasing by (points, goals): each entry's
    pair is lexicographically at least the pair of the entry after it. *)
Theorem ranking_sorted_by_points_then_goals (src : dict Stats) (roster : dict str) :
  Sorted outranks (fst (aggregate src roster)).
Proof.
  rewrite aggregate_fst. apply StronglySorted_Sorted.
  apply (sorted_reverse_descending rank_key).
Qed.

(** ** Ties in the ranking *)

Lemma first_occurrences_ext seen seen' l :
  (forall x, In x seen <-> In x seen') ->
  first_occurrences seen l = first_occurrences seen' l.
Proof.
  revert seen seen'. induction l as [|x l IH]; intros seen seen' H; simpl;
    [reflexivity|].
  destruct (in_dec str_eq_dec x seen) as [Hin|Hin],
           (in_dec str_eq_dec x seen') as [Hin'|Hin'].
  - now apply IH.
  - exfalso. apply Hin'. now apply H.
  - exfalso. apply Hin. now apply H.
  - f_equal. apply IH. intros y. simpl. rewrite H. tauto.
Qed.

Lemma keys_credit_team team stats d :
  keys (credit_team team stats d)
  = keys d ++ first_occurrences (keys d) [team].
Proof.
  rewrite credit_team_eq. simpl.
  destruct (in_dec str_eq_dec team (keys d)) as [Hin|Hin].
  - destruct (dict_get team d) as [v|] eqn:E.
    + rewrite dict_set_present with (v0 := v) by assumption. now rewrite app_nil_r.
    + apply dict_get_None_not_In in E. contradiction.
  - apply dict_get_None_not_In in Hin. rewrite dict_set_absent by assumption.
    unfold keys. now rewrite map_app.
Qed.

Lemma fold_aggregate_keys roster l d u :
  keys (fst (fold_left (aggregate_item roster) l (d, u)))
  = keys d ++ first_occurrences (keys d) (credited_teams roster l).
Proof.
  revert d u. induction l as [|[k stats] l IH]; intros d u; cbn [fold_left].
  - simpl. now rewrite app_nil_r.
  - rewrite aggregate_item_eq. unfold credited_teams. cbn [flat_map fst].
    destruct (team_of roster k) as [t|]; rewrite IH; [|reflexivity].
    rewrite keys_credit_team. simpl.
    destruct (in_dec str_eq_dec t (keys d)) as [Hin|Hin].
    + now rewrite app_nil_r.
    + rewrite <- app_assoc. simpl. do 2 f_equal.
      apply first_occurrences_ext. intros x. rewrite in_app_iff. simpl. tauto.
Qed.

(** C4, as the code has it: teams with the same (points, goals) all appear in
    the ranking, and they appear in the order in which [nhl_team_stats] holds
    them, which is the order in which the teams were first credited while the
    source map was iterated. The sort is stable and has no further key. *)
Theorem ties_keep_first_credited_order (src : dict Stats) (roster : dict str) :
  Permutation (fst (aggregate_loop src roster)) (fst (aggregate src roster)) /\
  (forall kv,
     tied_at kv (fst (aggregate src roster))
     = tied_at kv (fst (aggregate_loop src roster))) /\
  keys (fst (aggregate_loop src roster))
  = first_occurrences [] (credited_teams roster src).
Proof.
  rewrite aggregate_fst. split; [apply sorted_teams_Permutation|]. split.
  - intros kv. apply (sorted_tied rank_key).
  - apply (fold_aggregate_keys roster src [] []).
Qed.

(** C4, as stated, fails: no tie-break key orders tied teams. Whatever strict
    order on ranking entries is proposed, there is a run in which two tied
    entries appear against it: the two sample sources hold the same records
    under the same keys and yield the same two tied entries, in opposite
    orders. *)
Lemma tie_order_follows_iteration_order :
  ~ exists before : str * TeamStats -> str * TeamStats -> Prop,
      (forall a b, before a b -> ~ before b a) /\
      (forall src roster l1 a l2 b l3,
         fst (aggregate src roster) = l1 ++ a :: l2 ++ b :: l3 ->
         rank_key a = rank_key b ->
         before a b).
Proof.
  intros (before & Hasym & Hord).
  set (bos := (Sample.BOS, {| points := 10; t_goals := 4; t_assists := 6;
                              players := [player_of Sample.alpha] |})).
  set (tor := (Sample.TOR, {| points := 10; t_goals := 4; t_assists := 6;
                              players := [player_of Sample.beta] |})).
  assert (H1 : before bos tor).
  { apply (Hord Sample.tie_source Sample.tie_roster [] bos [] tor []);
      reflexivity. }
  assert (H2 : before tor bos).
  { apply (Hord Sample.tie_source' Sample.tie_roster [] tor [] bos []);
      reflexivity. }
  exact (Hasym _ _ H1 H2).
Qed.

(** ** Merging the fetched records *)

Lemma dict_get_modify_same {V : Type} k (f : V -> V) d :
  dict_get k (dict_modify k f d) = option_map f (dict_get k d).
Proof.
  unfold dict_modify. destruct (dict_get k d) as [v|] eqn:E; simpl.
  - apply dict_get_set_same.
  - assumption.
Qed.

Lemma dict_get_modify_other {V : Type} k k' (f : V -> V) d :
  k <> k' -> dict_get k' (dict_modify k f d) = dict_get k' d.
Proof.
  intros Hne. unfold dict_modify. destruct (dict_get k d); [|reflexivity].
  now apply dict_get_set_other.
Qed.

Section CollectFacts.
Context {U : UnicodeData}.

Lemma collect_concat fetched : collect fetched = fold_left add_player (List.concat fetched) [].
Proof.
  unfold collect. generalize (@nil (str * Stats)) as d.
  induction fetched as [|players fetched IH]; intros d; simpl; [reflexivity|].
  now rewrite IH, fold_left_app.
Qed.

Lemma dict_get_add_player_same d player :
  dict_get (normalize_name (p_name player)) (add_player d player)
  = Some match dict_get (normalize_name (p_name player)) d with
         | Some entry =>
             {| name := name entry; goals := goals entry + p_goals player;
                assists := assists entry + p_assists player |}
         | None =>
             {| name := p_name player; goals := p_goals player;
                assists := p_assists player |}
         end.
Proof.
  unfold add_player. destruct (dict_get (normalize_name (p_name player)) d) as [e|] eqn:E.
  - rewrite !dict_get_modify_same, E. reflexivity.
  - apply dict_get_set_same.
Qed.

Lemma dict_get_add_player_other d player k :
  normalize_name (p_name player) <> k ->
  dict_get k (add_player d player) = dict_get k d.
Proof.
  intros Hne. unfold add_player.
  destruct (dict_get (normalize_name (p_name player)) d).
  - now rewrite !dict_get_modify_other.
  - now apply dict_get_set_other.
Qed.

Lemma merged_snoc occ player :
  merged (occ ++ [player])
  = Some match merged occ with
         | Some entry =>
             {| name := name entry; goals := goals entry + p_goals player;
                assists := assists entry + p_assists player |}
         | None =>
             {| name := p_name player; goals := p_goals player;
                assists := p_assists player |}
         end.
Proof.
  destruct occ as [|first occ]; simpl.
  - now rewrite !Z.add_0_r.
  - rewrite !total_app. simpl. now rewrite !Z.add_0_r, !Z.add_assoc.
Qed.

(** Each entry of the merged map is the merge of the records that collide on
    its key. *)
Lemma dict_get_collect fetched k :
  dict_get k (collect fetched) = merged (occurrences k fetched).
Proof.
  rewrite collect_concat. unfold occurrences.
  induction (List.concat fetched) as [|player l IH] using rev_ind; [reflexivity|].
  rewrite fold_left_app, filter_app. cbn [fold_left filter].
  destruct (str_eqb (normalize_name (p_name player)) k) eqn:E.
  - apply str_eqb_eq in E. subst k.
    now rewrite dict_get_add_player_same, merged_snoc, IH.
  - rewrite app_nil_r, dict_get_add_player_other; [assumption|].
    intros Heq. now rewrite Heq, str_eqb_refl in E.
Qed.

(** C8: in the merged map, the goals and the assists under a key are the sums
    over all the fetched records with that key, and with a single such record
    they are that record's. *)
Theorem colliding_records_are_summed (fetched : list (list Player)) (k : str) :
  match dict_get k (collect fetched) with
  | Some entry =>
      occurrences k fetched <> [] /\
      goals entry = total p_goals (occurrences k fetched) /\
      assists entry = total p_assists (occurrences k fetched)
  | None => occurrences k fetched = []
  end /\
  (forall player,
     occurrences k fetched = [player] ->
     exists entry,
       dict_get k (collect fetched) = Some entry /\
       goals entry = p_goals player /\ assists entry = p_assists player).
Proof.
  rewrite dict_get_collect. split.
  - destruct (occurrences k fetched) as [|first occ]; simpl; [reflexivity|].
    repeat split. discriminate.
  - intros player ->. simpl. eexists. split; [reflexivity|]. simpl. lia.
Qed.

End CollectFacts.

(** ** Whitespace *)

Section WhitespaceFacts.
Context {U : UnicodeData}.

Lemma split_unfold c s :
  split (c :: s)
  = if isspace c then split s
    else
      match s with
      | [] => [[c]]
      | d :: _ =>
          if isspace d then [c] :: split s
          else
            match split s with
            | w :: ws => (c :: w) :: ws
            | [] => [[c]]
            end
      end.
Proof. reflexivity. Qed.

Lemma split_cons_space c s : isspace c = true -> split (c :: s) = split s.
Proof. intros H. simpl. now rewrite H. Qed.

Lemma split_cons_word c s :
  isspace c = false -> exists w ws, split (c :: s) = (c :: w) :: ws.
Proof.
  intros H. simpl. rewrite H. destruct s as [|d s]; [now exists [], []|].
  destruct (isspace d); [now exists [], (split (d :: s))|].
  destruct (split (d :: s)) as [|w ws]; [now exists [], []|now exists w, ws].
Qed.

Lemma split_trim_left s : split (trim_left s) = split s.
Proof.
  induction s as [|c s IH]; [reflexivity|].
  cbn [trim_left]. destruct (isspace c) eqn:E; [|reflexivity].
  now rewrite split_cons_space.
Qed.

Lemma trim_right_unfold c s :
  trim_right (c :: s)
  = match trim_right s with
    | [] => if isspace c then [] else [c]
    | r => c :: r
    end.
Proof. reflexivity. Qed.

Lemma squeeze_unfold c s :
  squeeze (c :: s)
  = if isspace c then
      match s with
      | [] => [SPACE]
      | d :: _ => if isspace d then squeeze s else SPACE :: squeeze s
      end
    else c :: squeeze s.
Proof. reflexivity. Qed.

Lemma trim_right_cons c s :
  trim_right (c :: s) = [] \/ exists r, trim_right (c :: s) = c :: r.
Proof.
  simpl. destruct (trim_right s); [destruct (isspace c)|]; eauto.
Qed.

Lemma trim_right_nil s : trim_right s = [] <-> split s = [].
Proof.
  induction s as [|c s IH]; [tauto|].
  destruct (isspace c) eqn:E.
  - rewrite split_cons_space by assumption. rewrite <- IH. simpl. rewrite E.
    destruct (trim_right s); split; congruence.
  - destruct (split_cons_word c s E) as (w & ws & ->). simpl. rewrite E.
    destruct (trim_right s); split; congruence.
Qed.

Lemma trim_right_cons_word c s :
  isspace c = false -> trim_right (c :: s) = c :: trim_right s.
Proof. intros E. simpl. rewrite E. now destruct (trim_right s). Qed.

Lemma join_cons_word sep c w ws : join sep ((c :: w) :: ws) = c :: join sep (w :: ws).
Proof. simpl. now destruct ws. Qed.

(** The words of a text, joined, are the text with its right end trimmed and
    its whitespace squeezed, but for a leading space when the text starts
    with whitespace. *)
Lemma squeeze_trim_right s :
  squeeze (trim_right s)
  = match s with
    | [] => []
    | d :: _ =>
        if isspace d then
          match split s with
          | [] => []
          | _ :: _ => SPACE :: join [SPACE] (split s)
          end
        else join [SPACE] (split s)
    end.
Proof.
  induction s as [|d s IH]; [reflexivity|].
  destruct (isspace d) eqn:Ed.
  - rewrite split_cons_space by assumption.
    destruct (split s) as [|w ws] eqn:Es.
    + apply trim_right_nil in Es. simpl. now rewrite Es, Ed.
    + assert (Hne : trim_right s <> []).
      { intros H. apply trim_right_nil in H. congruence. }
      destruct s as [|e s]; [discriminate|].
      destruct (trim_right_cons e s) as [H|[r Hr]]; [contradiction|].
      rewrite (trim_right_unfold d (e :: s)), Hr in *.
      rewrite (squeeze_unfold d (e :: r)), Ed.
      destruct (isspace e) eqn:Ee; rewrite IH; reflexivity.
  - rewrite trim_right_cons_word by assumption. rewrite squeeze_unfold, Ed, IH.
    destruct s as [|e s]; [simpl; now rewrite Ed|].
    rewrite (split_unfold d (e :: s)), Ed.
    destruct (isspace e) eqn:Ee.
    + destruct (split (e :: s)); reflexivity.
    + destruct (split_cons_word e s Ee) as (w & ws & Hw).
      rewrite Hw. symmetry. apply join_cons_word.
Qed.

(** [' '.join(s.split())] trims [s] and squeezes its whitespace. *)
Lemma join_split_squeeze_trim s : join [SPACE] (split s) = squeeze (trim s).
Proof.
  unfold trim. rewrite squeeze_trim_right, split_trim_left.
  induction s as [|c s IH]; [reflexivity|].
  cbn [trim_left]. destruct (isspace c) eqn:E.
  - now rewrite split_cons_space.
  - now rewrite E.
Qed.
End WhitespaceFacts.

(** ** The normaliser *)

Section NormalizeFacts.
Context {U : UnicodeData}.

Lemma normalize_name_folded x : normalize_name x = join [SPACE] (split (folded x)).
Proof. reflexivity. Qed.

Lemma split_words s : Forall is_word (split s).
Proof.
  induction s as [|c s IH]; [constructor|].
  rewrite split_unfold. destruct (isspace c) eqn:Ec; [assumption|].
  assert (Hc : is_word [c]) by (split; [discriminate|now constructor]).
  destruct s as [|d s]; [now constructor|].
  destruct (isspace d) eqn:Ed; [now constructor|].
  destruct (split (d :: s)) as [|w ws]; [now constructor|].
  inversion IH as [|? ? [Hne Hw] Hws]; subst.
  constructor; [|assumption]. split; [discriminate|now constructor].
Qed.

Hypothesis space_is_whitespace : isspace SPACE = true.

Lemma split_word_then_space w t : is_word w -> split (w ++ SPACE :: t) = w :: split t.
Proof.
  intros [Hne Hw]. induction w as [|c w IH]; [contradiction|].
  inversion Hw as [|? ? Hc Hw']; subst.
  cbn [app]. rewrite split_unfold, Hc.
  destruct w as [|d w].
  - cbn [app]. now rewrite space_is_whitespace, split_cons_space.
  - inversion Hw' as [|? ? Hd _]; subst. cbn [app] in *. rewrite Hd.
    now rewrite IH by (assumption || discriminate).
Qed.

Lemma split_word w : is_word w -> split w = [w].
Proof.
  intros [Hne Hw]. induction w as [|c w IH]; [contradiction|].
  inversion Hw as [|? ? Hc Hw']; subst.
  rewrite split_unfold, Hc. destruct w as [|d w]; [reflexivity|].
  inversion Hw' as [|? ? Hd _]; subst. rewrite Hd.
  now rewrite IH by (assumption || discriminate).
Qed.

(** Joining words with single spaces and splitting again gives the words
    back, in their order. *)
Lemma split_join ws : Forall is_word ws -> split (join [SPACE] ws) = ws.
Proof.
  induction ws as [|w ws IH]; intros H; [reflexivity|].
  inversion H as [|? ? Hw Hws]; subst.
  destruct ws as [|w' ws]; [now apply split_word|].
  change (join [SPACE] (w :: w' :: ws)) with (w ++ SPACE :: join [SPACE] (w' :: ws)).
  rewrite split_word_then_space by assumption. now rewrite IH.
Qed.

Lemma split_normalize_name x : split (normalize_name x) = split (folded x).
Proof. rewrite normalize_name_folded. apply split_join, split_words. Qed.

(** A key that the three passes leave alone is a fixed point. *)
Lemma normalize_name_fixed x :
  nfd (normalize_name x) = normalize_name x ->
  filter (fun c => negb (is_nonspacing_mark c)) (normalize_name x) = normalize_name x ->
  lower (normalize_name x) = normalize_name x ->
  normalize_name (normalize_name x) = normalize_name x.
Proof.
  intros Hnfd Hmarks Hlower.
  rewrite (normalize_name_folded (normalize_name x)). unfold folded.
  rewrite Hnfd, Hmarks, Hlower, split_normalize_name.
  reflexivity.
Qed.
End NormalizeFacts.

Lemma UCD_space_is_whitespace : isspace (UnicodeData := UCD.data) SPACE = true.
Proof. reflexivity. Qed.

(** The passes of the code: [normalize_name] decomposes its input into
    canonical decomposed form, drops the characters of general category Mn
    (nonspacing marks; spacing and enclosing marks stay), lowercases, trims
    and replaces each run of whitespace by one space. "Léo Dubé", "LEO DUBE"
    and "leo   dube" get the same key, "leo dube". *)
Theorem normalize_name_drops_nonspacing_marks :
  (forall (U : UnicodeData) (x : str),
     normalize_name x = spec_normalize is_nonspacing_mark x) /\
  normalize_name (U := UCD.data) Sample.leo_dube = lit "leo dube" /\
  normalize_name (U := UCD.data) (lit "LEO DUBE") = lit "leo dube" /\
  normalize_name (U := UCD.data) (lit "leo   dube") = lit "leo dube".
Proof.
  split; [|repeat split; vm_compute; reflexivity].
  intros U x. unfold spec_normalize. rewrite <- join_split_squeeze_trim.
  reflexivity.
Qed.

(** C7: [normalize_name] does not reorder the words of a name. "Cassidy
    Klein" and "KLEIN Cassidy" get different keys, and the words of a key are
    the words of the decomposed, stripped and lowercased name, in the order
    in which they stand there. *)
Theorem normalize_name_keeps_word_order :
  normalize_name (U := UCD.data) (lit "Cassidy Klein") = lit "cassidy klein" /\
  normalize_name (U := UCD.data) (lit "KLEIN Cassidy") = lit "klein cassidy" /\
  normalize_name (U := UCD.data) (lit "Cassidy Klein")
    <> normalize_name (U := UCD.data) (lit "KLEIN Cassidy") /\
  (forall x : str,
     split (U := UCD.data) (normalize_name (U := UCD.data) x)
     = split (U := UCD.data) (folded (U := UCD.data) x)).
Proof.
  split; [vm_compute; reflexivity|]. split; [vm_compute; reflexivity|].
  split; [vm_compute; discriminate|].
  intros x. apply split_normalize_name. apply UCD_space_is_whitespace.
Qed.

(** ** Keys of names in the Latin blocks *)

Section CharsFacts.
Context {U : UnicodeData}.
Variable P : codepoint -> Prop.

Lemma split_Forall s : Forall P s -> Forall (Forall P) (split s).
Proof.
  induction s as [|c s IH]; intros H; [constructor|].
  inversion H as [|? ? Hc Hs]; subst. specialize (IH Hs).
  rewrite split_unfold. destruct (isspace c); [assumption|].
  assert (H1 : Forall P [c]) by now constructor.
  destruct s as [|d s]; [now constructor|].
  destruct (isspace d); [now constructor|].
  destruct (split (d :: s)) as [|w ws]; [now constructor|].
  inversion IH; subst. constructor; [now constructor|assumption].
Qed.

Lemma join_Forall sep ws : Forall P sep -> Forall (Forall P) ws -> Forall P (join sep ws).
Proof.
  intros Hsep. induction ws as [|w ws IH]; intros H; [constructor|].
  inversion H as [|? ? Hw Hws]; subst. specialize (IH Hws).
  destruct ws as [|w' ws]; [assumption|].
  change (join sep (w :: w' :: ws)) with (w ++ sep ++ join sep (w' :: ws)).
  rewrite !Forall_app. auto.
Qed.
End CharsFacts.

Module LatinFacts.
Import Latin.

Local Open Scope N_scope.

Lemma covered_In c : covered c = true -> In c covered_list.
Proof.
  unfold covered, covered_list. intros H.
  rewrite <- (N2Nat.id c). apply in_map. apply in_app_iff.
  rewrite !in_seq.
  apply orb_true_iff in H as [H|H].
  - apply N.ltb_lt in H. left. lia.
  - apply andb_true_iff in H as [H1 H2].
    apply N.leb_le in H1. apply N.ltb_lt in H2. right. lia.
Qed.

(** A property checked on each covered code point holds of all of them. *)
Lemma covered_all (p : codepoint -> bool) :
  forallb p covered_list = true -> forall c, covered c = true -> p c = true.
Proof.
  intros H c Hc. rewrite forallb_forall in H. apply H, covered_In, Hc.
Qed.

Lemma decompose_covered c :
  covered c = true ->
  forallb (fun d => covered d && decomposed d) (UCD.decompose c) = true.
Proof.
  revert c. apply covered_all with (p := fun c =>
    forallb (fun d => covered d && decomposed d) (UCD.decompose c)).
  vm_compute. reflexivity.
Qed.

(** In these blocks the characters of a combining class other than 0 are
    nonspacing marks. *)
Lemma unmarked_base c :
  covered c = true -> decomposed c = true -> is_Mn c = false -> base c = true.
Proof.
  intros Hc Hd Hm.
  assert (H : (negb (decomposed c) || is_Mn c || base c) = true).
  { clear Hd Hm. revert c Hc. apply covered_all. vm_compute. reflexivity. }
  rewrite Hd, Hm in H. exact H.
Qed.

(** Lowercasing a base character gives characters of these blocks that
    nothing changes. *)
Lemma lower_char_stable c :
  covered c = true -> base c = true ->
  forallb (fun d => covered d && stable d) (UCD.lower_char c) = true.
Proof.
  intros Hc Hb.
  assert (H : (negb (base c)
               || forallb (fun d => covered d && stable d) (UCD.lower_char c)) = true).
  { clear Hb. revert c Hc. apply covered_all. vm_compute. reflexivity. }
  rewrite Hb in H. exact H.
Qed.

Lemma place_Permutation c before : Permutation (c :: before) (UCD.place c before).
Proof.
  induction before as [|p r IH]; [reflexivity|].
  cbn [UCD.place].
  destruct ((UCD.combining p =? 0) || (UCD.combining c =? 0)
            || (UCD.combining p <=? UCD.combining c)); [reflexivity|].
  rewrite perm_swap. now apply perm_skip.
Qed.

Lemma canonical_order_Permutation s : Permutation s (UCD.canonical_order s).
Proof.
  unfold UCD.canonical_order. rewrite <- Permutation_rev.
  assert (H : forall before,
             Permutation (rev s ++ before)
               (fold_left (fun before c => UCD.place c before) s before)).
  { induction s as [|c s IH]; intros before; [reflexivity|].
    cbn [fold_left rev]. rewrite <- IH, <- app_assoc. cbn [app].
    apply Permutation_app_head, place_Permutation. }
  specialize (H []). rewrite app_nil_r in H. rewrite <- H. apply Permutation_rev.
Qed.

(** A text of class-0 characters is in canonical order. *)
Lemma canonical_order_starters s :
  Forall (fun c => UCD.combining c = 0) s -> UCD.canonical_order s = s.
Proof.
  intros H. unfold UCD.canonical_order.
  assert (Hfold : forall before,
             fold_left (fun before c => UCD.place c before) s before = rev s ++ before).
  { induction H as [|c s Hc Hs IH]; intros before; [reflexivity|].
    cbn [fold_left rev]. rewrite IH, <- app_assoc. cbn [app]. f_equal.
    destruct before as [|p r]; [reflexivity|].
    cbn [UCD.place]. rewrite Hc. cbn [N.eqb]. now rewrite orb_true_r. }
  now rewrite Hfold, app_nil_r, rev_involutive.
Qed.
Lemma split_andb a b : a && b = true -> a = true /\ b = true.
Proof. apply andb_true_iff. Qed.

Lemma nfd_covered x :
  forallb covered x = true ->
  Forall (fun c => covered c = true /\ decomposed c = true) (UCD.normalize_NFD x).
Proof.
  intros H. unfold UCD.normalize_NFD.
  eapply Permutation_Forall; [apply canonical_order_Permutation|].
  induction x as [|c x IH]; [constructor|].
  cbn [forallb] in H. apply split_andb in H as [Hc Hx].
  cbn [flat_map]. apply Forall_app. split; [|now apply IH].
  apply Forall_forall. intros d Hd.
  pose proof (decompose_covered c Hc) as Hall.
  rewrite forallb_forall in Hall. now apply split_andb, Hall.
Qed.

Lemma stripped_base x :
  forallb covered x = true ->
  Forall (fun c => covered c = true /\ base c = true)
    (filter (fun c => negb (is_Mn c)) (UCD.normalize_NFD x)).
Proof.
  intros H. apply Forall_forall. intros c Hc.
  apply filter_In in Hc as [Hin Hm]. apply negb_true_iff in Hm.
  pose proof (nfd_covered x H) as Hall. rewrite Forall_forall in Hall.
  destruct (Hall c Hin) as [Hcov Hdec]. split; [assumption|].
  now apply unmarked_base.
Qed.

Lemma folded_stable x :
  forallb covered x = true ->
  Forall (fun c => stable c = true) (folded (U := UCD.data) x).
Proof.
  intros H. unfold folded.
  change (Forall (fun c => stable c = true)
            (flat_map UCD.lower_char
               (filter (fun c => negb (is_Mn c)) (UCD.normalize_NFD x)))).
  pose proof (stripped_base x H) as Hall.
  induction Hall as [|c l [Hcov Hbase] _ IH]; [constructor|].
  cbn [flat_map]. apply Forall_app. split; [|assumption].
  apply Forall_forall. intros d Hd.
  pose proof (lower_char_stable c Hcov Hbase) as Hl.
  rewrite forallb_forall in Hl. now destruct (split_andb _ _ (Hl d Hd)).
Qed.

Lemma key_stable x :
  forallb covered x = true ->
  Forall (fun c => stable c = true) (normalize_name (U := UCD.data) x).
Proof.
  intros H. rewrite normalize_name_folded.
  apply join_Forall; [now repeat constructor|].
  apply split_Forall. now apply folded_stable.
Qed.

Lemma stable_inv c :
  stable c = true ->
  UCD.decompose c = [c] /\ is_Mn c = false /\ UCD.combining c = 0
  /\ UCD.lower_char c = [c].
Proof.
  unfold stable, base, decomposed. intros H.
  apply split_andb in H as [H Hl]. apply split_andb in H as [H Hc].
  apply split_andb in H as [Hd Hm].
  apply str_eqb_eq in Hd, Hl. apply negb_true_iff in Hm. apply N.eqb_eq in Hc.
  auto.
Qed.

(** None of the three passes changes a text of stable characters. *)
Lemma stable_text_fixed r :
  Forall (fun c => stable c = true) r ->
  UCD.normalize_NFD r = r /\
  filter (fun c => negb (is_Mn c)) r = r /\
  UCD.str_lower r = r.
Proof.
  intros H. split; [|split].
  - unfold UCD.normalize_NFD.
    assert (Hd : flat_map UCD.decompose r = r).
    { induction H as [|c r Hc _ IH]; [reflexivity|].
      cbn [flat_map]. apply stable_inv in Hc as (-> & _). now rewrite IH. }
    rewrite Hd. apply canonical_order_starters.
    eapply Forall_impl; [|exact H]. intros c Hc. now apply stable_inv in Hc.
  - induction H as [|c r Hc _ IH]; [reflexivity|].
    cbn [filter]. apply stable_inv in Hc as (_ & -> & _). cbn [negb]. now rewrite IH.
  - unfold UCD.str_lower. induction H as [|c r Hc _ IH]; [reflexivity|].
    cbn [flat_map]. apply stable_inv in Hc as (_ & _ & _ & ->). now rewrite IH.
Qed.

(** On names written in the Latin blocks the key is a fixed point: the
    premises of [normalize_name_fixed] hold of every such name. *)
Lemma normalize_name_idempotent_latin x :
  forallb covered x = true ->
  normalize_name (U := UCD.data) (normalize_name (U := UCD.data) x)
  = normalize_name (U := UCD.data) x.
Proof.
  intros H.
  destruct (stable_text_fixed (key_stable x H)) as (Hnfd & Hmarks & Hlower).
  apply normalize_name_fixed; [reflexivity|assumption..].
Qed.
End LatinFacts.

(** ** The scenarios of the specification *)

(** One scorer, on a roster. *)
Example scenario_matched :
  aggregate [(lit "connor mcdavid", Sample.mcdavid)] [(lit "connor mcdavid", Sample.EDM)]
  = ([(Sample.EDM, {| points := 8; t_goals := 3; t_assists := 5;
                      players := [player_of Sample.mcdavid] |})], []).
Proof. reflexivity. Qed.

(** A scorer on no roster is unmatched, and no team lists that scorer. *)
Example scenario_unmatched :
  aggregate [(lit "connor mcdavid", Sample.mcdavid); (lit "jane doe", Sample.doe)]
            [(lit "connor mcdavid", Sample.EDM)]
  = ([(Sample.EDM, {| points := 8; t_goals := 3; t_assists := 5;
                      players := [player_of Sample.mcdavid] |})], [Sample.doe]).
Proof. reflexivity. Qed.

(** A roster entry with an empty team code counts as no entry. *)
Example scenario_empty_team_code :
  aggregate [(lit "jane doe", Sample.doe)] [(lit "jane doe", [])] = ([], [Sample.doe]).
Proof. reflexivity. Qed.

(** Two teams tied at 10 points and 4 goals: the ranking follows the order of
    the source map. *)
Example scenario_tie :
  map fst (fst (aggregate Sample.tie_source Sample.tie_roster)) = [Sample.BOS; Sample.TOR] /\
  map fst (fst (aggregate Sample.tie_source' Sample.tie_roster)) = [Sample.TOR; Sample.BOS].
Proof. split; reflexivity. Qed.

(** A player listed by two countries under two spellings of one name. *)
Example scenario_collision :
  collect (U := UCD.data) [[Sample.dube_listed]; [Sample.dube_listed_again]]
  = [(lit "leo dube", {| name := Sample.leo_dube; goals := 3; assists := 2 |})].
Proof. vm_compute. reflexivity. Qed.

(** * Further properties *)

(** ** [fetch_with_retry] *)

Section RetryFacts.
Variable Response : Type.
Variable Error : Type.
Implicit Types (get : nat -> Attempt Error Response) (max_retries : Z).

Lemma requests_made_backoff attempt failures :
  requests_made (backoff_trace attempt failures) = S failures.
Proof.
  revert attempt. induction failures as [|n IH]; intros attempt; [reflexivity|].
  cbn [backoff_trace]. unfold requests_made in *. cbn [filter List.length].
  now rewrite IH.
Qed.

Lemma seconds_slept_backoff attempt failures :
  seconds_slept (backoff_trace attempt failures)
  = Z.of_nat failures * (2 * Z.of_nat attempt + Z.of_nat failures + 1).
Proof.
  revert attempt. induction failures as [|n IH]; intros attempt; [reflexivity|].
  cbn [backoff_trace]. unfold seconds_slept in *. cbn [fold_right].
  rewrite IH. lia.
Qed.

(** The loop from [attempt] on, when the next [failures] requests fail and
    the one after them succeeds. *)
Lemma retry_from_success get max_retries failures : forall attempt remaining response,
  (forall i, (i < failures)%nat -> exists e, get (attempt + i)%nat = Fails e) ->
  get (attempt + failures)%nat = Ok response ->
  (failures < remaining)%nat ->
  Z.of_nat (attempt + failures) < max_retries ->
  retry_from get max_retries attempt remaining
  = (Returned response, backoff_trace attempt failures).
Proof.
  induction failures as [|n IH]; intros attempt remaining response Hfail Hok Hrem Hmax.
  - destruct remaining as [|rem]; [lia|]. cbn [retry_from backoff_trace].
    rewrite Nat.add_0_r in Hok. now rewrite Hok.
  - destruct remaining as [|rem]; [lia|]. cbn [retry_from backoff_trace].
    destruct (Hfail 0%nat) as [e He]; [lia|]. rewrite Nat.add_0_r in He. rewrite He.
    destruct (Z.ltb_spec (Z.of_nat attempt) (max_retries - 1)) as [_|Hge]; [|lia].
    rewrite (IH (S attempt) rem response); [reflexivity| | |lia|].
    + intros i Hi. destruct (Hfail (S i)) as [e' He']; [lia|].
      exists e'. rewrite <- He'. f_equal. lia.
    + rewrite <- Hok. f_equal. lia.
    + lia.
Qed.

(** The loop from [attempt] on, when every request fails: the last one, the
    request number [max_retries - 1], lets its exception through. *)
Lemma retry_from_exhausted get max_retries : forall remaining attempt e,
  (forall i, (i < remaining)%nat -> exists e', get (attempt + i)%nat = Fails e') ->
  get (attempt + remaining)%nat = Fails e ->
  Z.of_nat (attempt + remaining) = max_retries - 1 ->
  retry_from get max_retries attempt (S remaining)
  = (Raised e, backoff_trace attempt remaining).
Proof.
  induction remaining as [|n IH]; intros attempt e Hfail Hlast Hmax.
  - cbn [retry_from backoff_trace]. rewrite Nat.add_0_r in Hlast, Hmax. rewrite Hlast.
    destruct (Z.ltb_spec (Z.of_nat attempt) (max_retries - 1)); [lia|reflexivity].
  - cbn [backoff_trace].
    change (retry_from get max_retries attempt (S (S n)))
      with (match get attempt with
            | Ok response => (Returned response, [Get])
            | Fails e0 =>
                if Z.of_nat attempt <? max_retries - 1 then
                  let '(result, events) :=
                    retry_from get max_retries (S attempt) (S n) in
                  (result, Get :: Sleep ((Z.of_nat attempt + 1) * 2) :: events)
                else (Raised e0, [Get])
            end).
    destruct (Hfail 0%nat) as [e0 He0]; [lia|]. rewrite Nat.add_0_r in He0. rewrite He0.
    destruct (Z.ltb_spec (Z.of_nat attempt) (max_retries - 1)) as [_|Hge]; [|lia].
    rewrite (IH (S attempt) e); [reflexivity| | |lia].
    + intros i Hi. destruct (Hfail (S i)) as [e' He']; [lia|].
      exists e'. rewrite <- He'. f_equal. lia.
    + rewrite <- Hlast. f_equal. lia.
Qed.

(** X1: when the first [failures] requests fail and the next one succeeds
    within [max_retries] requests, the call returns that response after
    [failures + 1] requests, having slept 2, 4, ..., [2 * failures] seconds
    between them, [failures * (failures + 1)] seconds in all. *)
Theorem fetch_with_retry_returns_first_success get max_retries failures response :
  Z.of_nat failures < max_retries ->
  (forall i, (i < failures)%nat -> exists e, get i = Fails e) ->
  get failures = Ok response ->
  fetch_with_retry get max_retries = (Returned response, backoff_trace 0 failures) /\
  requests_made (snd (fetch_with_retry get max_retries)) = S failures /\
  seconds_slept (snd (fetch_with_retry get max_retries))
  = Z.of_nat failures * (Z.of_nat failures + 1).
Proof.
  intros Hmax Hfail Hok.
  assert (E : fetch_with_retry get max_retries
              = (Returned response, backoff_trace 0 failures)).
  { unfold fetch_with_retry. apply retry_from_success; try assumption; lia. }
  rewrite E. cbn [snd]. rewrite requests_made_backoff, seconds_slept_backoff.
  repeat split; lia.
Qed.

(** X2: when all of the [max_retries] requests fail, the call raises the
    exception of the last one, after exactly [max_retries] requests; it has
    slept after each failure but the last, [(max_retries - 1) * max_retries]
    seconds in all. *)
Theorem fetch_with_retry_raises_last_error get max_retries e :
  0 < max_retries ->
  (forall i, Z.of_nat i < max_retries -> exists e', get i = Fails e') ->
  get (Z.to_nat (max_retries - 1)) = Fails e ->
  fetch_with_retry get max_retries
  = (Raised e, backoff_trace 0 (Z.to_nat (max_retries - 1))) /\
  Z.of_nat (requests_made (snd (fetch_with_retry get max_retries))) = max_retries /\
  seconds_slept (snd (fetch_with_retry get max_retries))
  = (max_retries - 1) * max_retries.
Proof.
  intros Hpos Hfail Hlast.
  assert (E : fetch_with_retry get max_retries
              = (Raised e, backoff_trace 0 (Z.to_nat (max_retries - 1)))).
  { unfold fetch_with_retry.
    replace (Z.to_nat max_retries) with (S (Z.to_nat (max_retries - 1))) by lia.
    apply retry_from_exhausted; [|assumption|cbn; lia].
    intros i Hi. apply Hfail. cbn. lia. }
  rewrite E. cbn [snd]. rewrite requests_made_backoff, seconds_slept_backoff.
  rewrite Z2Nat.id by lia. repeat split; [lia|]. cbn [Z.of_nat]. ring.
Qed.

(** X3: with [max_retries] zero or negative the loop body never runs: no
    request is made, nothing is raised, and the call returns [None]. *)
Theorem fetch_with_retry_without_attempts get max_retries :
  max_retries <= 0 ->
  fetch_with_retry get max_retries = (ReturnedNone, []).
Proof.
  intros H. unfold fetch_with_retry.
  replace (Z.to_nat max_retries) with 0%nat by lia. reflexivity.
Qed.
End RetryFacts.

Section RetryShape.
Variable Response : Type.
Variable Error : Type.
Implicit Types (get : nat -> Attempt Error Response) (max_retries : Z).

Lemma retry_from_shape get max_retries : forall remaining attempt,
  Z.of_nat (attempt + S remaining) = max_retries ->
  exists failures,
    (failures <= remaining)%nat /\
    (forall i, (i < failures)%nat -> exists e, get (attempt + i)%nat = Fails e) /\
    snd (retry_from get max_retries attempt (S remaining))
    = backoff_trace attempt failures /\
    match fst (retry_from get max_retries attempt (S remaining)) with
    | Returned response => get (attempt + failures)%nat = Ok response
    | Raised e => get (attempt + failures)%nat = Fails e /\ failures = remaining
    | ReturnedNone => False
    end.
Proof.
  induction remaining as [|n IH]; intros attempt Hmax.
  - exists 0%nat. rewrite Nat.add_0_r. cbn [retry_from].
    split; [lia|]. split; [intros i Hi; lia|].
    destruct (get attempt) as [response|e] eqn:E; [now split|].
    destruct (Z.ltb_spec (Z.of_nat attempt) (max_retries - 1)); [lia|].
    now repeat split.
  - change (retry_from get max_retries attempt (S (S n)))
      with (match get attempt with
            | Ok response => (Returned response, [Get])
            | Fails e0 =>
                if Z.of_nat attempt <? max_retries - 1 then
                  let '(result, events) :=
                    retry_from get max_retries (S attempt) (S n) in
                  (result, Get :: Sleep ((Z.of_nat attempt + 1) * 2) :: events)
                else (Raised e0, [Get])
            end).
    destruct (get attempt) as [response|e] eqn:E.
    + exists 0%nat. rewrite Nat.add_0_r. split; [lia|].
      split; [intros i Hi; lia|]. now split.
    + destruct (Z.ltb_spec (Z.of_nat attempt) (max_retries - 1)) as [_|Hge]; [|lia].
      destruct (IH (S attempt)) as (k & Hk & Hfail & Htrace & Hres); [lia|].
      destruct (retry_from get max_retries (S attempt) (S n)) as [result events].
      cbn [fst snd] in *. exists (S k). split; [lia|]. split.
      * intros [|i] Hi; [exists e; now rewrite Nat.add_0_r|].
        destruct (Hfail i) as [e' He']; [lia|]. exists e'. rewrite <- He'. f_equal. lia.
      * split; [now rewrite Htrace|].
        replace (attempt + S k)%nat with (S attempt + k)%nat by lia.
        destruct result; [assumption| |assumption].
        destruct Hres as [Hres ->]. now split.
Qed.

(** X4: with [max_retries] at least 1 the call never returns [None]. It
    makes between 1 and [max_retries] requests, sleeping 2, 4, ... seconds
    between them and never after the last; it returns the response of the
    last request, or raises its exception when that was request number
    [max_retries]; all the requests before the last failed. *)
Theorem fetch_with_retry_shape get max_retries :
  0 < max_retries ->
  exists failures,
    Z.of_nat failures < max_retries /\
    (forall i, (i < failures)%nat -> exists e, get i = Fails e) /\
    snd (fetch_with_retry get max_retries) = backoff_trace 0 failures /\
    match fst (fetch_with_retry get max_retries) with
    | Returned response => get failures = Ok response
    | Raised e => get failures = Fails e /\ Z.of_nat failures = max_retries - 1
    | ReturnedNone => False
    end.
Proof.
  intros Hpos. unfold fetch_with_retry.
  replace (Z.to_nat max_retries) with (S (Z.to_nat (max_retries - 1))) by lia.
  destruct (retry_from_shape get (max_retries := max_retries)
              (Z.to_nat (max_retries - 1)) 0) as (k & Hk & Hfail & Htrace & Hres);
    [cbn; lia|].
  exists k. split; [lia|]. split; [exact Hfail|]. split; [exact Htrace|].
  cbn [Nat.add] in Hres.
  destruct (fst (retry_from get max_retries 0 (S (Z.to_nat (max_retries - 1)))));
    [assumption| |assumption].
  destruct Hres as [Hres ->]. split; [assumption|lia].
Qed.
End RetryShape.

(** The two attempts of the callers, which pass [max_retries=2]. *)
Lemma fetch_with_retry_two (Response Error : Type) (get : nat -> Attempt Error Response) :
  fetch_with_retry get 2
  = match get 0%nat with
    | Ok response => (Returned response, [Get])
    | Fails _ =>
        match get 1%nat with
        | Ok response => (Returned response, [Get; Sleep 2; Get])
        | Fails e => (Raised e, [Get; Sleep 2; Get])
        end
    end.
Proof.
  unfold fetch_with_retry. change (Z.to_nat 2) with 2%nat. cbn [retry_from].
  destruct (get 0%nat); [reflexivity|]. cbn. now destruct (get 1%nat).
Qed.

Lemma fetch_with_retry_returns_first_success_witness :
  fetch_with_retry SampleNet.flaky 3
  = (Returned 200, [Get; Sleep 2; Get; Sleep 4; Get]) /\
  requests_made (snd (fetch_with_retry SampleNet.flaky 3)) = 3%nat /\
  seconds_slept (snd (fetch_with_retry SampleNet.flaky 3)) = 6.
Proof.
  apply (@fetch_with_retry_returns_first_success Z nat SampleNet.flaky 3 2 200).
  - lia.
  - intros [|[|i]] Hi; [now exists 0%nat|now exists 1%nat|lia].
  - reflexivity.
Defined.

Lemma fetch_with_retry_raises_last_error_witness :
  fetch_with_retry SampleNet.down 3 = (Raised 2%nat, [Get; Sleep 2; Get; Sleep 4; Get]) /\
  Z.of_nat (requests_made (snd (fetch_with_retry SampleNet.down 3))) = 3 /\
  seconds_slept (snd (fetch_with_retry SampleNet.down 3)) = 6.
Proof.
  apply (@fetch_with_retry_raises_last_error Z nat SampleNet.down 3 2%nat).
  - lia.
  - intros i _. now exists i.
  - reflexivity.
Defined.

Lemma fetch_with_retry_without_attempts_witness :
  fetch_with_retry SampleNet.down 0 = (ReturnedNone, []).
Proof. apply (@fetch_with_retry_without_attempts Z nat SampleNet.down 0). lia. Defined.

Lemma fetch_with_retry_shape_witness :
  exists failures,
    Z.of_nat failures < 2 /\
    (forall i, (i < failures)%nat -> exists e, SampleNet.flaky i = Fails e) /\
    snd (fetch_with_retry SampleNet.flaky 2) = backoff_trace 0 failures /\
    match fst (fetch_with_retry SampleNet.flaky 2) with
    | Returned response => SampleNet.flaky failures = Ok response
    | Raised e => SampleNet.flaky failures = Fails e /\ Z.of_nat failures = 2 - 1
    | ReturnedNone => False
    end.
Proof. apply (@fetch_with_retry_shape Z nat SampleNet.flaky 2). lia. Defined.

(** ** [fetch_quanthockey_stats] *)

Section QuanthockeyFacts.
Variable Response : Type.
Variable Error : Type.
Variable soup_tables : Response -> list (list (list Cell)).
Variable isdigit : str -> bool.
Variable int : str -> option Z.

Lemma parse_row_scorer cols p : parse_row isdigit int cols = Some p -> is_scorer p.
Proof.
  unfold parse_row. destruct (9 <=? List.length cols)%nat; [|discriminate].
  destruct (nth_error cols 2) as [name_cell|]; [|discriminate].
  destruct (nth_error cols 7) as [goals_cell|]; [|discriminate].
  destruct (nth_error cols 8) as [assists_cell|]; [|discriminate].
  set (player_name := match link_text name_cell with
                      | Some text => text
                      | None => cell_text name_cell
                      end).
  destruct (truthy player_name) eqn:Hname; [|discriminate]. cbn [negb].
  destruct (int_or_zero isdigit int (cell_text goals_cell)) as [goals|]; [|discriminate].
  destruct (int_or_zero isdigit int (cell_text assists_cell)) as [assists|];
    [|discriminate].
  destruct (Z.gtb_spec (goals + assists) 0) as [Hpos|]; [|discriminate].
  intros [= <-]. repeat split; [assumption|]. cbn. lia.
Qed.

Lemma parse_tables_scorers tables : Forall is_scorer (parse_tables isdigit int tables).
Proof.
  unfold parse_tables, parse_rows. apply Forall_forall. intros p Hp.
  apply in_flat_map in Hp as (rows & _ & Hp).
  apply in_flat_map in Hp as (row & _ & Hp).
  destruct (parse_row isdigit int row) as [q|] eqn:E; [|contradiction].
  destruct Hp as [<-|[]]. now apply parse_row_scorer in E.
Qed.

(** X5: [fetch_quanthockey_stats] lets no exception through, whatever the
    requests meet: it returns a list, and every player of the list has a name
    that is not empty and points that are the sum of the goals and assists and
    are positive. It makes one or two requests. *)
Theorem fetch_quanthockey_stats_returns_scorers (get : nat -> Attempt Error Response) :
  exists players,
    fst (fetch_quanthockey_stats soup_tables isdigit int get) = Some players /\
    Forall is_scorer players /\
    (1 <= requests_made (snd (fetch_quanthockey_stats soup_tables isdigit int get)) <= 2)%nat.
Proof.
  unfold fetch_quanthockey_stats. rewrite fetch_with_retry_two.
  destruct (get 0%nat) as [response|e0].
  - eexists. split; [reflexivity|]. split; [apply parse_tables_scorers|cbn; lia].
  - destruct (get 1%nat) as [response|e1].
    + eexists. split; [reflexivity|]. split; [apply parse_tables_scorers|cbn; lia].
    + eexists. split; [reflexivity|]. split; [constructor|cbn; lia].
Qed.

(** X6: when both requests for a page fail, [fetch_quanthockey_stats]
    returns the empty list, as it does for a page without scorers; it has
    made two requests and slept 2 seconds in between. *)
Theorem fetch_quanthockey_stats_failure_is_empty
    (get : nat -> Attempt Error Response) e0 e1 :
  get 0%nat = Fails e0 ->
  get 1%nat = Fails e1 ->
  fetch_quanthockey_stats soup_tables isdigit int get = (Some [], [Get; Sleep 2; Get]).
Proof.
  intros H0 H1. unfold fetch_quanthockey_stats.
  now rewrite fetch_with_retry_two, H0, H1.
Qed.

(** X7: when [int] gives no negative number on the texts that [isdigit]
    accepts, no returned player has negative goals or assists: a text that is
    empty or not made of digits counts as 0. *)
Theorem parse_tables_counts_not_negative tables :
  (forall text n, isdigit text = true -> int text = Some n -> 0 <= n) ->
  Forall (fun p => 0 <= p_goals p /\ 0 <= p_assists p) (parse_tables isdigit int tables).
Proof.
  intros Hint.
  assert (Hz : forall text n, int_or_zero isdigit int text = Some n -> 0 <= n).
  { intros text n. unfold int_or_zero.
    destruct (truthy text); cbn [andb]; [|intros [= <-]; lia].
    destruct (isdigit text) eqn:E; [now apply Hint|intros [= <-]; lia]. }
  unfold parse_tables, parse_rows. apply Forall_forall. intros p Hp.
  apply in_flat_map in Hp as (rows & _ & Hp).
  apply in_flat_map in Hp as (row & _ & Hp).
  destruct (parse_row isdigit int row) as [q|] eqn:E; [|contradiction].
  destruct Hp as [<-|[]]. revert E. unfold parse_row.
  destruct (9 <=? List.length row)%nat; [|discriminate].
  destruct (nth_error row 2) as [name_cell|]; [|discriminate].
  destruct (nth_error row 7) as [goals_cell|]; [|discriminate].
  destruct (nth_error row 8) as [assists_cell|]; [|discriminate].
  destruct (negb _); [discriminate|].
  destruct (int_or_zero isdigit int (cell_text goals_cell)) as [goals|] eqn:Eg;
    [|discriminate].
  destruct (int_or_zero isdigit int (cell_text assists_cell)) as [assists|] eqn:Ea;
    [|discriminate].
  destruct (goals + assists >? 0); [|discriminate].
  intros [= <-]. cbn. split; eapply Hz; eassumption.
Qed.
End QuanthockeyFacts.

Lemma SampleNet_int_not_negative text n :
  SampleNet.isdigit text = true -> SampleNet.int text = Some n -> 0 <= n.
Proof.
  intros Hd. unfold SampleNet.int. rewrite Hd. intros [= <-].
  unfold SampleNet.isdigit in Hd. apply andb_true_iff in Hd as [_ Hd].
  assert (H : forall acc, 0 <= acc ->
            0 <= fold_left (fun n c => 10 * n + (Z.of_N c - 0x30)) text acc).
  { induction text as [|c text IH]; intros acc Hacc; [assumption|].
    cbn [forallb] in Hd. apply andb_true_iff in Hd as [Hc Hd].
    cbn [fold_left]. apply IH; [assumption|].
    unfold SampleNet.is_ascii_digit in Hc. apply andb_true_iff in Hc as [Hlo _].
    apply N.leb_le in Hlo. lia. }
  apply H. lia.
Qed.

Lemma fetch_quanthockey_stats_failure_is_empty_witness :
  fetch_quanthockey_stats (fun _ : Z => SampleNet.page) SampleNet.isdigit SampleNet.int
    SampleNet.down
  = (Some [], [Get; Sleep 2; Get]).
Proof.
  apply (@fetch_quanthockey_stats_failure_is_empty Z nat (fun _ => SampleNet.page)
           SampleNet.isdigit SampleNet.int SampleNet.down 0%nat 1%nat); reflexivity.
Defined.

Lemma parse_tables_counts_not_negative_witness :
  Forall (fun p => 0 <= p_goals p /\ 0 <= p_assists p)
    (parse_tables SampleNet.isdigit SampleNet.int SampleNet.page).
Proof.
  apply (@parse_tables_counts_not_negative SampleNet.isdigit SampleNet.int SampleNet.page).
  exact SampleNet_int_not_negative.
Defined.

(** The sample page yields its one scorer. *)
Example parse_sample_page :
  parse_tables SampleNet.isdigit SampleNet.int SampleNet.page
  = [{| p_name := lit "Connor McDavid"; p_goals := 3; p_assists := 5; p_points := 8 |}].
Proof. vm_compute. reflexivity. Qed.

(** ** The merged map *)

Lemma first_occurrences_fresh seen l :
  NoDup (first_occurrences seen l) /\
  forall x, In x (first_occurrences seen l) -> ~ In x seen.
Proof.
  revert seen. induction l as [|y l IH]; intros seen; cbn [first_occurrences].
  - split; [constructor|intros x []].
  - destruct (in_dec str_eq_dec y seen) as [Hin|Hin]; [apply IH|].
    destruct (IH (y :: seen)) as [Hnd Hfresh]. split.
    + constructor; [|assumption]. intros H. apply (Hfresh y H). now left.
    + intros x [<-|Hx]; [assumption|]. intros Hs. apply (Hfresh x Hx). now right.
Qed.

Lemma keys_dict_modify {V : Type} k (f : V -> V) (d : dict V) :
  keys (dict_modify k f d) = keys d.
Proof.
  unfold dict_modify. destruct (dict_get k d) as [v|] eqn:E; [|reflexivity].
  now rewrite dict_set_present with (v0 := v).
Qed.

Lemma dict_modify_twice {V : Type} k (f g : V -> V) (d : dict V) :
  dict_modify k g (dict_modify k f d) = dict_modify k (fun v => g (f v)) d.
Proof.
  unfold dict_modify at 2 3. destruct (dict_get k d) as [v|] eqn:E.
  - unfold dict_modify. now rewrite dict_get_set_same, dict_set_set.
  - unfold dict_modify. now rewrite E.
Qed.

Lemma total_values_dict_set_absent {V : Type} (f : V -> Z) k v (d : dict V) :
  dict_get k d = None ->
  total f (values (dict_set k v d)) = total f (values d) + f v.
Proof.
  intros E. rewrite dict_set_absent by assumption. unfold values.
  rewrite map_app, total_app. simpl. lia.
Qed.

Lemma total_values_dict_set_present {V : Type} (f : V -> Z) k v v0 (d : dict V) :
  dict_get k d = Some v0 ->
  total f (values (dict_set k v d)) = total f (values d) - f v0 + f v.
Proof.
  induction d as [|[k0 v1] d IH]; simpl; [discriminate|].
  destruct (str_eq_dec k k0) as [->|Hne]; simpl.
  - intros [= ->]. lia.
  - intros E. rewrite (IH E). lia.
Qed.

Section MergedFacts.
Context {U : UnicodeData}.

(** The two updates of the [else] branch amount to one. *)
Lemma add_player_eq d player :
  add_player d player
  = match dict_get (normalize_name (p_name player)) d with
    | None =>
        dict_set (normalize_name (p_name player))
          {| name := p_name player; goals := p_goals player;
             assists := p_assists player |} d
    | Some entry =>
        dict_set (normalize_name (p_name player))
          {| name := name entry; goals := goals entry + p_goals player;
             assists := assists entry + p_assists player |} d
    end.
Proof.
  unfold add_player. destruct (dict_get (normalize_name (p_name player)) d) eqn:E;
    [|reflexivity].
  rewrite dict_modify_twice. unfold dict_modify. now rewrite E.
Qed.

Lemma keys_add_player d player :
  keys (add_player d player)
  = keys d ++ first_occurrences (keys d) [normalize_name (p_name player)].
Proof.
  rewrite add_player_eq. cbn [first_occurrences].
  destruct (dict_get (normalize_name (p_name player)) d) as [entry|] eqn:E.
  - rewrite dict_set_present with (v0 := entry) by assumption.
    destruct (in_dec str_eq_dec _ (keys d)) as [_|Hin]; [now rewrite app_nil_r|].
    apply dict_get_None_not_In in Hin. congruence.
  - rewrite dict_set_absent by assumption. unfold keys at 1. rewrite map_app.
    destruct (in_dec str_eq_dec _ (keys d)) as [Hin|_]; [|reflexivity].
    apply dict_get_None_not_In in E. contradiction.
Qed.

Lemma keys_fold_add_player l d :
  keys (fold_left add_player l d)
  = keys d ++ first_occurrences (keys d) (map (fun p => normalize_name (p_name p)) l).
Proof.
  revert d. induction l as [|player l IH]; intros d; cbn [fold_left map].
  - cbn. now rewrite app_nil_r.
  - rewrite IH, keys_add_player. cbn [first_occurrences].
    destruct (in_dec str_eq_dec _ (keys d)) as [Hin|Hin].
    + now rewrite app_nil_r.
    + rewrite <- app_assoc. cbn [app]. do 2 f_equal.
      apply first_occurrences_ext. intros x. rewrite in_app_iff. simpl. tauto.
Qed.

(** X8: the keys of the merged map are the normalised names of the fetched
    records, each once, in the order in which they first occur; this is the
    order in which the map is iterated later. *)
Theorem collect_keys_in_first_occurrence_order (fetched : list (list Player)) :
  keys (collect fetched)
  = first_occurrences [] (map (fun p => normalize_name (p_name p)) (List.concat fetched)) /\
  NoDup (keys (collect fetched)).
Proof.
  rewrite collect_concat, keys_fold_add_player. cbn [keys map app].
  split; [reflexivity|]. apply first_occurrences_fresh.
Qed.

Lemma total_add_player (f : Stats -> Z) (g : Player -> Z) d player :
  (forall n a b, f {| name := n; goals := a; assists := b |}
                 = f {| name := [] ; goals := a; assists := b |}) ->
  (forall a b a' b', f {| name := []; goals := a + a'; assists := b + b' |}
                     = f {| name := []; goals := a; assists := b |}
                       + f {| name := []; goals := a'; assists := b' |}) ->
  g player = f {| name := []; goals := p_goals player; assists := p_assists player |} ->
  total f (values (add_player d player)) = total f (values d) + g player.
Proof.
  intros Hname Hadd Hg. rewrite add_player_eq.
  destruct (dict_get (normalize_name (p_name player)) d) as [entry|] eqn:E.
  - rewrite total_values_dict_set_present with (v0 := entry) by assumption.
    rewrite Hname, Hadd, Hg. destruct entry as [n a b]. cbn [goals assists].
    rewrite (Hname n a b). lia.
  - rewrite total_values_dict_set_absent by assumption. now rewrite Hname, Hg.
Qed.

(** X9: merging loses and invents nothing: the goals of the entries of the
    merged map add up to the goals of all the fetched records, and so do the
    assists. *)
Theorem collect_keeps_totals (fetched : list (list Player)) :
  total (fun kv => goals (snd kv)) (collect fetched) = total p_goals (List.concat fetched) /\
  total (fun kv => assists (snd kv)) (collect fetched) = total p_assists (List.concat fetched).
Proof.
  rewrite collect_concat.
  assert (Hvalues : forall (f : Stats -> Z) (d : dict Stats),
             total (fun kv => f (snd kv)) d = total f (values d)).
  { intros f d. induction d as [|kv d IH]; [reflexivity|]. simpl. now rewrite IH. }
  rewrite !Hvalues.
  induction (List.concat fetched) as [|player l IH] using rev_ind; [split; reflexivity|].
  destruct IH as [IHg IHa]. rewrite fold_left_app, !total_app. cbn [fold_left].
  split.
  - rewrite total_add_player with (g := p_goals); [rewrite IHg; simpl; lia|..];
      reflexivity.
  - rewrite total_add_player with (g := p_assists); [rewrite IHa; simpl; lia|..];
      reflexivity.
Qed.

Lemma add_player_has_points d player :
  is_scorer player ->
  Forall has_points (values d) ->
  Forall has_points (values (add_player d player)).
Proof.
  intros (Hname & Hsum & Hpos) Hd. rewrite add_player_eq.
  destruct (dict_get (normalize_name (p_name player)) d) as [entry|] eqn:E.
  - apply Forall_values_dict_set; [assumption|].
    apply dict_get_In in E. rewrite Forall_forall in Hd.
    destruct (Hd entry) as [Hn Hp]; [change entry with (snd (normalize_name (p_name player), entry)); now apply in_map|].
    split; cbn; [assumption|lia].
  - apply Forall_values_dict_set; [assumption|]. split; cbn; [assumption|lia].
Qed.

Lemma collect_has_points (fetched : list (list Player)) :
  Forall is_scorer (List.concat fetched) ->
  Forall has_points (values (collect fetched)).
Proof.
  rewrite collect_concat. intros Hl.
  assert (H : forall l d, Forall is_scorer l -> Forall has_points (values d) ->
                          Forall has_points (values (fold_left add_player l d))).
  { clear. induction l as [|player l IH]; intros d Hl Hd; [assumption|].
    inversion Hl; subst. cbn [fold_left]. apply IH; [assumption|].
    now apply add_player_has_points. }
  apply H; [assumption|constructor].
Qed.
End MergedFacts.

(** ** More on the aggregation *)

Lemma Forall_dict_set {V : Type} (P : str * V -> Prop) k v (d : dict V) :
  Forall P d -> P (k, v) -> Forall P (dict_set k v d).
Proof.
  intros Hd Hv. induction d as [|[k0 v0] d IH]; simpl; [now constructor|].
  inversion Hd; subst. destruct (str_eq_dec k k0) as [->|Hne]; constructor; auto.
Qed.

Lemma get_or_Forall_items {V : Type} (P : str * V -> Prop) default k (d : dict V) :
  Forall P d -> P (k, default) -> P (k, get_or default k d).
Proof.
  intros Hd Hdef. unfold get_or. destruct (dict_get k d) as [v|] eqn:E; [|assumption].
  apply dict_get_In in E. rewrite Forall_forall in Hd. now apply Hd.
Qed.

Lemma total_Permutation {A : Type} (f : A -> Z) l l' :
  Permutation l l' -> total f l = total f l'.
Proof. induction 1; simpl; lia. Qed.

Lemma total_map {A B : Type} (f : B -> Z) (g : A -> B) l :
  total f (map g l) = total (fun x => f (g x)) l.
Proof. induction l as [|x l IH]; simpl; [reflexivity|now rewrite IH]. Qed.

Lemma total_ext {A : Type} (f g : A -> Z) l :
  Forall (fun x => f x = g x) l -> total f l = total g l.
Proof. induction 1 as [|x l Hx _ IH]; simpl; [reflexivity|now rewrite Hx, IH]. Qed.

Lemma len_app {A : Type} (l l' : list A) : len (l ++ l') = len l + len l'.
Proof. unfold len. rewrite length_app. lia. Qed.

Lemma len_all_players teams :
  total (fun x => len (players (snd x))) teams = len (all_players teams).
Proof.
  induction teams as [|x teams IH]; [reflexivity|].
  change (all_players (x :: teams)) with (players (snd x) ++ all_players teams).
  rewrite len_app, <- IH. reflexivity.
Qed.

(** A fold of the loop keeps what each of its branches keeps. *)
Lemma fold_aggregate_invariant (P : str * TeamStats -> Prop) (Q : Stats -> Prop) roster :
  (forall team stats t,
     truthy team = true -> Q stats ->
     (P (team, t) \/ t = new_team_stats) -> P (team, credited stats t)) ->
  forall l d u,
    Forall Q (values l) -> Forall P d ->
    Forall P (fst (fold_left (aggregate_item roster) l (d, u))).
Proof.
  intros Hcredit. induction l as [|[k stats] l IH]; intros d u Hl Hd; cbn [fold_left];
    [assumption|].
  inversion Hl; subst. rewrite aggregate_item_eq. unfold team_of.
  destruct (dict_get k roster) as [t|]; [destruct (truthy t) eqn:Ht|];
    try (now apply IH).
  apply IH; [assumption|]. rewrite credit_team_eq.
  apply Forall_dict_set; [assumption|]. apply Hcredit; [assumption..|].
  unfold get_or. destruct (dict_get t d) as [v|] eqn:E; [left|now right].
  apply dict_get_In in E. rewrite Forall_forall in Hd. now apply Hd.
Qed.

Lemma aggregate_well_formed src roster :
  Forall well_formed_team (fst (aggregate src roster)).
Proof.
  rewrite aggregate_fst.
  eapply Permutation_Forall; [apply sorted_teams_Permutation|].
  apply (fold_aggregate_invariant (P := well_formed_team) (Q := fun _ => True));
    [|apply Forall_forall; auto|constructor].
  intros team stats t Ht _ Hprev. unfold well_formed_team. cbn [fst snd credited
    append_player add_assists add_goals add_points players].
  split; [assumption|]. split; [now destruct (players t)|].
  apply Forall_app. split; [|now repeat constructor].
  destruct Hprev as [(_ & _ & H)| ->]; [assumption|constructor].
Qed.

(** X10: every entry of the ranking stands under a team code that is not
    empty and has at least one player, and each of its players carries the
    points that the goals and assists add up to. No team without a scorer is
    ranked. *)
Theorem ranked_teams_have_players (src : dict Stats) (roster : dict str) :
  Forall well_formed_team (fst (aggregate src roster)).
Proof. apply aggregate_well_formed. Qed.

(** X11: when every record of the source has points, every entry of the
    ranking has at least one point for each of its players: its points are no
    less than the number of its players, which is at least 1. *)
Theorem ranked_teams_points_cover_players (src : dict Stats) (roster : dict str) :
  Forall (fun stats => 0 < goals stats + assists stats) (values src) ->
  Forall players_within_points (fst (aggregate src roster)).
Proof.
  intros Hsrc. rewrite aggregate_fst.
  eapply Permutation_Forall; [apply sorted_teams_Permutation|].
  apply (fold_aggregate_invariant (P := players_within_points)
           (Q := fun stats => 0 < goals stats + assists stats));
    [|assumption|constructor].
  intros team stats t _ Hpos Hprev. unfold players_within_points in *.
  cbn [fst snd credited append_player add_assists add_goals add_points players points]
    in *.
  rewrite len_app. change (len [player_of stats]) with 1.
  destruct Hprev as [H| ->]; [lia|]. cbn. lia.
Qed.

Lemma ranked_teams_points_cover_players_witness :
  Forall players_within_points (fst (aggregate Sample.tie_source Sample.tie_roster)).
Proof.
  apply (ranked_teams_points_cover_players Sample.tie_source Sample.tie_roster).
  repeat constructor.
Defined.

Lemma total_points_all_players teams :
  Forall (fun x => consistent (snd x)) teams ->
  total (fun x => points (snd x)) teams
  = total (fun p => p_goals p + p_assists p) (all_players teams).
Proof.
  induction 1 as [|x teams (Hp & _) _ IH]; [reflexivity|].
  change (all_players (x :: teams)) with (players (snd x) ++ all_players teams).
  rewrite total_app, <- IH, <- Hp. reflexivity.
Qed.

Lemma aggregate_Permutation src roster :
  Permutation
    (map stats_of (all_players (fst (aggregate src roster))) ++ snd (aggregate src roster))
    (values src).
Proof.
  rewrite aggregate_fst, aggregate_snd.
  rewrite <- (all_players_Permutation
                (sorted_teams_Permutation (fst (aggregate_loop src roster)))).
  apply (fold_aggregate_Permutation roster src [] []).
Qed.

Lemma aggregate_consistent src roster :
  Forall (fun x => consistent (snd x)) (fst (aggregate src roster)).
Proof.
  rewrite aggregate_fst.
  eapply Permutation_Forall; [apply sorted_teams_Permutation|].
  apply Forall_map with (f := snd) (P := consistent).
  apply (fold_aggregate_consistent roster src ([], [])). constructor.
Qed.

(** X12: the aggregation keeps the points of the source: the points of the
    ranked teams and the goals and assists of the unmatched players add up to
    the goals and assists of all the source records. *)
Theorem aggregate_keeps_points (src : dict Stats) (roster : dict str) :
  total (fun x => points (snd x)) (fst (aggregate src roster))
  + total (fun stats => goals stats + assists stats) (snd (aggregate src roster))
  = total (fun stats => goals stats + assists stats) (values src).
Proof.
  rewrite (total_points_all_players (aggregate_consistent src roster)).
  rewrite <- (total_Permutation _ (aggregate_Permutation src roster)).
  rewrite total_app, total_map. reflexivity.
Qed.

Lemma credited_teams_nil roster src :
  credited_teams roster src = [] <-> forallb (is_unmatched roster) src = true.
Proof.
  induction src as [|item src IH]; [now split|].
  unfold credited_teams in *. cbn [flat_map forallb]. unfold is_unmatched at 1.
  destruct (team_of roster (fst item)); cbn [app andb]; [split; discriminate|exact IH].
Qed.

Lemma filter_all {A : Type} (f : A -> bool) l : forallb f l = true -> filter f l = l.
Proof.
  induction l as [|x l IH]; [reflexivity|]. cbn [forallb filter].
  intros H. apply andb_true_iff in H as [-> H]. now rewrite IH.
Qed.

Lemma aggregate_loop_keys src roster :
  keys (fst (aggregate_loop src roster)) = first_occurrences [] (credited_teams roster src).
Proof. apply (fold_aggregate_keys roster src [] []). Qed.

Lemma aggregate_unmatched src roster :
  snd (aggregate src roster) = values (filter (is_unmatched roster) src).
Proof. rewrite aggregate_snd. apply (fold_aggregate_unmatched roster src [] []). Qed.

Lemma aggregate_nil_iff src roster :
  fst (aggregate src roster) = [] <-> forallb (is_unmatched roster) src = true.
Proof.
  rewrite aggregate_fst, <- credited_teams_nil.
  pose proof (aggregate_loop_keys src roster) as Hk.
  pose proof (sorted_teams_Permutation (fst (aggregate_loop src roster))) as Hp.
  split; intros H.
  - rewrite H in Hp. apply Permutation_sym, Permutation_nil in Hp.
    rewrite Hp in Hk. cbn in Hk.
    destruct (credited_teams roster src); [reflexivity|discriminate].
  - rewrite H in Hk. cbn in Hk.
    destruct (fst (aggregate_loop src roster)); [|discriminate].
    now apply Permutation_nil in Hp.
Qed.

(** X13: the ranking is empty exactly when no record of the source is on a
    roster, and then the unmatched list is the whole source, in its order.
    In particular an empty source or an empty roster gives an empty ranking
    and raises nothing. *)
Theorem ranking_empty_iff_all_unmatched (src : dict Stats) (roster : dict str) :
  (fst (aggregate src roster) = [] <-> forallb (is_unmatched roster) src = true) /\
  (forallb (is_unmatched roster) src = true -> snd (aggregate src roster) = values src) /\
  aggregate [] roster = ([], []) /\
  aggregate src [] = ([], values src).
Proof.
  split; [apply aggregate_nil_iff|]. split.
  - intros H. now rewrite aggregate_unmatched, filter_all.
  - split; [reflexivity|].
    assert (H : forallb (is_unmatched []) src = true).
    { apply forallb_forall. intros item _. reflexivity. }
    rewrite (surjective_pairing (aggregate src [])). f_equal.
    + now apply aggregate_nil_iff.
    + now rewrite aggregate_unmatched, filter_all.
Qed.

(** ** The figures of the report *)

Lemma main_summary_eq src roster :
  main_summary src roster
  = summary (fst (aggregate src roster)) (len src) (len (snd (aggregate src roster))).
Proof. unfold main_summary. now destruct (aggregate src roster). Qed.

Lemma total_filter_split {A : Type} (f : A -> Z) (p : A -> bool) l :
  total f l = total f (filter p l) + total f (filter (fun x => negb (p x)) l).
Proof.
  induction l as [|x l IH]; [reflexivity|]. cbn [filter].
  change (total f (x :: l)) with (f x + total f l).
  destruct (p x); cbn [negb];
    [change (total f (x :: filter p l)) with (f x + total f (filter p l))
    |change (total f (x :: filter (fun x => negb (p x)) l))
       with (f x + total f (filter (fun x => negb (p x)) l))]; lia.
Qed.

Lemma teams_no_more_than_players teams :
  Forall well_formed_team teams -> len teams <= len (all_players teams).
Proof.
  induction 1 as [|x teams (_ & Hne & _) _ IH]; [reflexivity|].
  change (all_players (x :: teams)) with (players (snd x) ++ all_players teams).
  rewrite len_app. unfold len in *. cbn [List.length].
  destruct (players (snd x)); [contradiction|]. cbn [List.length]. lia.
Qed.

(** X14: the figures of the report agree with each other. "NHL Players" and
    the number of players not on rosters add up to "All Olympic Players";
    there are no more "NHL Teams" than "NHL Players"; and "Total Points" is
    the sum of goals and assists over the source records that are on a
    roster. *)
Theorem report_figures_agree (src : dict Stats) (roster : dict str) :
  nhl_players (main_summary src roster) + not_on_rosters (main_summary src roster)
  = all_olympic_players (main_summary src roster) /\
  nhl_teams (main_summary src roster) <= nhl_players (main_summary src roster) /\
  total_points (main_summary src roster)
  = total (fun item => goals (snd item) + assists (snd item))
      (filter (fun item => negb (is_unmatched roster item)) src).
Proof.
  rewrite main_summary_eq. cbn [summary nhl_players not_on_rosters all_olympic_players
    nhl_teams total_points]. rewrite len_all_players.
  split; [|split].
  - pose proof (Permutation_length (aggregate_Permutation src roster)) as H.
    rewrite length_app, length_map in H. unfold values in H. rewrite length_map in H.
    unfold len. lia.
  - apply teams_no_more_than_players, aggregate_well_formed.
  - pose proof (total_points_all_players (aggregate_consistent src roster)) as Hp.
    pose proof (total_Permutation (fun stats => goals stats + assists stats)
                  (aggregate_Permutation src roster)) as Hperm.
    rewrite total_app, total_map in Hperm. cbn [stats_of goals assists] in Hperm.
    rewrite aggregate_unmatched in Hperm. unfold values in Hperm. rewrite !total_map in Hperm.
    rewrite (total_filter_split _ (is_unmatched roster) src) in Hperm.
    rewrite Hp. lia.
Qed.

(** X15: the player cards of a ranked team are its players, each once, from
    the most points down and, at equal points, from the most goals down; the
    points on the cards add up to the points of the team's row. *)
Theorem player_cards_add_up (src : dict Stats) (roster : dict str) :
  Forall (fun entry =>
            Permutation (players (snd entry)) (sorted_players (snd entry)) /\
            Sorted card_before (sorted_players (snd entry)) /\
            total p_points (sorted_players (snd entry)) = points (snd entry))
    (fst (aggregate src roster)).
Proof.
  pose proof (aggregate_consistent src roster) as Hc.
  pose proof (aggregate_well_formed src roster) as Hw.
  rewrite Forall_forall in *. intros entry Hin.
  destruct (Hc entry Hin) as (Hpoints & _). destruct (Hw entry Hin) as (_ & _ & Hplayers).
  unfold sorted_players. split; [apply sorted_Permutation|]. split.
  - apply StronglySorted_Sorted. apply (sorted_reverse_descending player_key).
  - rewrite <- (total_Permutation p_points (sorted_Permutation player_key true _)).
    rewrite Hpoints. now apply total_ext.
Qed.

(** ** Step 1 of [main], with its fetches *)

Section CollectFetchedFacts.
Context {U : UnicodeData}.
Variable Response : Type.
Variable Error : Type.
Variable soup_tables : Response -> list (list (list Cell)).
Variable isdigit : str -> bool.
Variable int : str -> option Z.
Implicit Types (world : str -> nat -> Attempt Error Response).

Lemma fetch_quanthockey_stats_players world country :
  fst (fetch_quanthockey_stats soup_tables isdigit int (world country))
  = Some (country_players soup_tables isdigit int world country).
Proof.
  unfold fetch_quanthockey_stats, country_players. rewrite fetch_with_retry_two.
  destruct (world country 0%nat); [reflexivity|].
  now destruct (world country 1%nat).
Qed.

Lemma countries_loop_eq world countries d :
  countries_loop soup_tables isdigit int world countries d
  = Some (fold_left (fun d players => fold_left add_player players d)
            (map (country_players soup_tables isdigit int world) countries) d).
Proof.
  revert d. induction countries as [|country countries IH]; intros d; [reflexivity|].
  cbn [countries_loop map fold_left]. rewrite fetch_quanthockey_stats_players.
  apply IH.
Qed.

Lemma country_players_scorers world country :
  Forall is_scorer (country_players soup_tables isdigit int world country).
Proof.
  unfold country_players.
  destruct (fst (fetch_with_retry (world country) 2));
    [apply parse_tables_scorers|constructor|constructor].
Qed.

(** X16: step 1 of [main] lets no exception through. The map it builds is
    the merge of the lists of the twelve countries, in their order; a country
    whose two requests both failed counts as an empty list there, and the
    other countries are merged all the same. *)
Theorem fetch_all_player_stats_merges_countries world :
  fetch_all_player_stats soup_tables isdigit int world
  = Some (collect (map (country_players soup_tables isdigit int world) olympic_countries)) /\
  (forall country e0 e1,
     world country 0%nat = Fails e0 -> world country 1%nat = Fails e1 ->
     country_players soup_tables isdigit int world country = []).
Proof.
  split; [apply countries_loop_eq|].
  intros country e0 e1 H0 H1. unfold country_players.
  now rewrite fetch_with_retry_two, H0, H1.
Qed.

(** X17: every entry of the map that step 1 builds stands for a scorer: its
    name is not empty and its goals and assists add up to more than 0. *)
Theorem fetch_all_player_stats_has_points world :
  exists d,
    fetch_all_player_stats soup_tables isdigit int world = Some d /\
    Forall has_points (values d).
Proof.
  eexists. split; [apply countries_loop_eq|].
  apply collect_has_points. apply Forall_concat. apply Forall_map.
  apply Forall_forall. intros country _. apply country_players_scorers.
Qed.
End CollectFetchedFacts.

(** ** [fetch_nhl_rosters] *)

Lemma dict_get_store_all k stores d :
  dict_get k (store_all stores d)
  = match last_stored k stores with
    | Some team => Some team
    | None => dict_get k d
    end.
Proof.
  unfold store_all, last_stored.
  induction stores as [|[k0 team] stores IH] using rev_ind; [reflexivity|].
  rewrite fold_left_app, rev_app_distr. cbn [fold_left rev app find fst snd].
  destruct (str_eqb k0 k) eqn:E.
  - apply str_eqb_eq in E. subst k0. cbn [option_map snd]. apply dict_get_set_same.
  - rewrite dict_get_set_other; [exact IH|]. intros ->. now rewrite str_eqb_refl in E.
Qed.

Lemma store_all_app stores stores' d :
  store_all (stores ++ stores') d = store_all stores' (store_all stores d).
Proof. unfold store_all. apply fold_left_app. Qed.

Lemma store_all_values (P : str -> Prop) stores d :
  Forall (fun kv => P (snd kv)) stores ->
  Forall (fun kv => P (snd kv)) d ->
  Forall (fun kv => P (snd kv)) (store_all stores d).
Proof.
  unfold store_all. revert d. induction stores as [|[k team] stores IH]; intros d Hs Hd;
    [assumption|].
  inversion Hs; subst. cbn [fold_left]. apply IH; [assumption|].
  now apply Forall_dict_set.
Qed.

Section RosterFacts.
Context {U : UnicodeData}.
Variable Response : Type.
Variable Error : Type.
Variable json : Response -> Attempt Error Roster.
Variable is_RequestException : Error -> bool.
Variable attribute_error : Error.
Implicit Types (world : str -> nat -> Attempt Error Response).

Lemma fold_add_roster_player team group d :
  fold_left (add_roster_player team) group d
  = store_all
      (flat_map
         (fun player =>
            if truthy (firstName player) && truthy (lastName player)
            then [(normalize_name (firstName player ++ [SPACE] ++ lastName player), team)]
            else []) group) d.
Proof.
  revert d. induction group as [|player group IH]; intros d; [reflexivity|].
  cbn [fold_left flat_map]. rewrite store_all_app, IH. unfold add_roster_player.
  now destruct (truthy (firstName player) && truthy (lastName player)).
Qed.

Lemma add_roster_eq team roster d :
  add_roster team roster d = store_all (roster_entries team roster) d.
Proof.
  unfold add_roster, roster_entries. cbn [fold_left].
  rewrite !flat_map_app, !store_all_app. now rewrite !fold_add_roster_player.
Qed.

Lemma rosters_loop_eq world teams d :
  rosters_loop json is_RequestException attribute_error world teams d
  = match first_escape json is_RequestException attribute_error world teams with
    | Some e => Raised e
    | None => Returned (store_all (all_roster_entries json world teams) d)
    end.
Proof.
  revert d. induction teams as [|team teams IH]; intros d; [reflexivity|].
  cbn [rosters_loop first_escape]. unfold all_roster_entries. cbn [flat_map].
  rewrite store_all_app. fold (all_roster_entries json world teams).
  unfold roster_escapes, roster_fetched.
  destruct (fst (fetch_with_retry (world team) 2)) as [response|e|].
  - destruct (json response) as [roster|e].
    + rewrite IH, add_roster_eq. reflexivity.
    + destruct (is_RequestException e); [apply IH|reflexivity].
  - destruct (is_RequestException e); [apply IH|reflexivity].
  - destruct (is_RequestException attribute_error); [apply IH|reflexivity].
Qed.

(** X18: [fetch_nhl_rosters] either raises the exception of the first team
    whose iteration lets one through, or returns a map in which each name
    stands under the team that stored it last: the last team, in the order of
    [NHL_TEAMS], whose roster lists it. A team whose fetch or decoding raised
    a [RequestException] stores nothing, and the teams after it are still
    processed. *)
Theorem fetch_nhl_rosters_last_store_wins world :
  match fetch_nhl_rosters json is_RequestException attribute_error world with
  | Returned player_to_team =>
      first_escape json is_RequestException attribute_error world NHL_TEAMS = None /\
      forall k,
        dict_get k player_to_team
        = last_stored k (all_roster_entries json world NHL_TEAMS)
  | Raised e =>
      first_escape json is_RequestException attribute_error world NHL_TEAMS = Some e
  | ReturnedNone => False
  end.
Proof.
  unfold fetch_nhl_rosters. rewrite rosters_loop_eq.
  destruct (first_escape json is_RequestException attribute_error world NHL_TEAMS);
    [reflexivity|].
  split; [reflexivity|]. intros k. rewrite dict_get_store_all.
  now destruct (last_stored k (all_roster_entries json world NHL_TEAMS)).
Qed.

Lemma first_escape_none world teams :
  (forall e, is_RequestException e = true) ->
  first_escape json is_RequestException attribute_error world teams = None.
Proof.
  intros H. induction teams as [|team teams IH]; [reflexivity|].
  cbn [first_escape]. unfold roster_escapes.
  destruct (fst (fetch_with_retry (world team) 2)) as [response|e|].
  - destruct (json response) as [roster|e]; [exact IH|]. now rewrite H.
  - now rewrite H.
  - now rewrite H.
Qed.

(** X19: when every exception that a fetch or a decoding can raise is a
    [RequestException], [fetch_nhl_rosters] raises nothing and returns a map,
    however many teams fail. *)
Theorem fetch_nhl_rosters_survives_request_errors world :
  (forall e, is_RequestException e = true) ->
  exists player_to_team,
    fetch_nhl_rosters json is_RequestException attribute_error world
    = Returned player_to_team.
Proof.
  intros H. unfold fetch_nhl_rosters. rewrite rosters_loop_eq.
  rewrite first_escape_none by assumption. eauto.
Qed.

Lemma first_escape_head world team teams e0 e :
  world team 0%nat = Fails e0 ->
  world team 1%nat = Fails e ->
  is_RequestException e = false ->
  first_escape json is_RequestException attribute_error world (team :: teams) = Some e.
Proof.
  intros H0 H1 He. cbn [first_escape]. unfold roster_escapes.
  rewrite fetch_with_retry_two, H0, H1. cbn [fst]. rewrite He. reflexivity.
Qed.

(** X20: an exception that is not a [RequestException] is not caught: when
    the fetch for the first team of [NHL_TEAMS] raises one after its two
    attempts, [fetch_nhl_rosters] raises it and returns no map. *)
Theorem fetch_nhl_rosters_lets_other_errors_through world e0 e :
  world (lit "ANA") 0%nat = Fails e0 ->
  world (lit "ANA") 1%nat = Fails e ->
  is_RequestException e = false ->
  fetch_nhl_rosters json is_RequestException attribute_error world = Raised e.
Proof.
  intros H0 H1 He. unfold fetch_nhl_rosters. rewrite rosters_loop_eq.
  pose proof (first_escape_head world (lit "ANA") (tl NHL_TEAMS) H0 H1 He) as E.
  change (lit "ANA" :: tl NHL_TEAMS) with NHL_TEAMS in E. now rewrite E.
Qed.

Lemma all_roster_entries_teams world teams :
  Forall (fun kv => In (snd kv) teams) (all_roster_entries json world teams).
Proof.
  unfold all_roster_entries. apply Forall_forall. intros [k t] Hin.
  apply in_flat_map in Hin as (team & Hteam & Hin).
  destruct (roster_fetched json world team) as [roster|]; [|contradiction].
  unfold roster_entries in Hin. apply in_flat_map in Hin as (player & _ & Hin).
  destruct (truthy (firstName player) && truthy (lastName player)); [|contradiction].
  destruct Hin as [[= _ <-]|[]]. exact Hteam.
Qed.
End RosterFacts.

Lemma NHL_TEAMS_truthy team : In team NHL_TEAMS -> truthy team = true.
Proof.
  assert (H : forallb truthy NHL_TEAMS = true) by reflexivity.
  rewrite forallb_forall in H. apply H.
Qed.

Lemma first_occurrences_In seen l x : In x (first_occurrences seen l) -> In x l.
Proof.
  revert seen. induction l as [|y l IH]; intros seen; cbn [first_occurrences]; [tauto|].
  destruct (in_dec str_eq_dec y seen); [right; eauto|].
  intros [<-|H]; [now left|right; eauto].
Qed.

Lemma credited_teams_values roster src t :
  In t (credited_teams roster src) -> exists k, In (k, t) roster.
Proof.
  unfold credited_teams. intros H. apply in_flat_map in H as (item & _ & H).
  unfold team_of in H. destruct (dict_get (fst item) roster) as [t'|] eqn:E; [|contradiction].
  destruct (truthy t'); [|contradiction]. destruct H as [<-|[]].
  exists (fst item). now apply dict_get_In.
Qed.

Section RosterAggregation.
Context {U : UnicodeData}.
Variable Response : Type.
Variable Error : Type.
Variable json : Response -> Attempt Error Roster.
Variable is_RequestException : Error -> bool.
Variable attribute_error : Error.

(** X21: in a map that [fetch_nhl_rosters] returns every name stands under
    one of the 32 codes of [NHL_TEAMS], none of them empty. With such a map
    the aggregation leaves a record unmatched exactly when its key is not in
    the map, every ranked team is one of [NHL_TEAMS], and the ranking has at
    most 32 entries. *)
Theorem rosters_feed_aggregation (world : str -> nat -> Attempt Error Response)
    (src : dict Stats) :
  match fetch_nhl_rosters json is_RequestException attribute_error world with
  | Returned player_to_team =>
      Forall (fun kv => In (snd kv) NHL_TEAMS /\ truthy (snd kv) = true) player_to_team /\
      (forall item,
         is_unmatched player_to_team item = true
         <-> dict_get (fst item) player_to_team = None) /\
      Forall (fun entry => In (fst entry) NHL_TEAMS) (fst (aggregate src player_to_team)) /\
      len (fst (aggregate src player_to_team)) <= 32
  | Raised _ => True
  | ReturnedNone => True
  end.
Proof.
  unfold fetch_nhl_rosters. rewrite rosters_loop_eq.
  destruct (first_escape json is_RequestException attribute_error world NHL_TEAMS);
    [exact I|].
  set (d := store_all (all_roster_entries json world NHL_TEAMS) []).
  assert (Hd : Forall (fun kv => In (snd kv) NHL_TEAMS) d).
  { apply (store_all_values (fun t => In t NHL_TEAMS));
      [apply all_roster_entries_teams|constructor]. }
  assert (Hkeys : forall t, In t (keys (fst (aggregate src d))) -> In t NHL_TEAMS).
  { intros t Ht. rewrite aggregate_fst in Ht. unfold keys in Ht.
    eapply Permutation_in in Ht;
      [|apply Permutation_map, Permutation_sym, sorted_teams_Permutation].
    fold (keys (fst (aggregate_loop src d))) in Ht. rewrite aggregate_loop_keys in Ht.
    apply first_occurrences_In, credited_teams_values in Ht as [k Hk].
    rewrite Forall_forall in Hd. exact (Hd _ Hk). }
  split; [|split; [|split]].
  - eapply Forall_impl; [|exact Hd]. intros kv H. split; [assumption|].
    now apply NHL_TEAMS_truthy.
  - intros item. unfold is_unmatched, team_of.
    destruct (dict_get (fst item) d) as [t|] eqn:E; [|tauto].
    apply dict_get_In in E. rewrite Forall_forall in Hd.
    pose proof (NHL_TEAMS_truthy (Hd _ E)) as Ht. cbn [snd] in Ht.
    rewrite Ht. split; discriminate.
  - apply Forall_forall. intros entry Hin. apply Hkeys. unfold keys. now apply in_map.
  - assert (Hnd : NoDup (keys (fst (aggregate src d)))).
    { rewrite aggregate_fst. unfold keys.
      eapply Permutation_NoDup;
        [apply Permutation_map, sorted_teams_Permutation|apply aggregate_loop_NoDup]. }
    pose proof (NoDup_incl_length Hnd Hkeys) as Hlen.
    unfold keys in Hlen. rewrite length_map in Hlen.
    change (List.length NHL_TEAMS) with 32%nat in Hlen. unfold len. lia.
Qed.
End RosterAggregation.

Lemma fetch_nhl_rosters_survives_request_errors_witness :
  exists player_to_team,
    fetch_nhl_rosters (U := UCD.data) (fun roster : Roster => Ok roster)
      (fun _ : nat => true) 0%nat SampleNet.roster_world
    = Returned player_to_team.
Proof.
  apply (@fetch_nhl_rosters_survives_request_errors UCD.data Roster nat
           (fun roster => Ok roster) (fun _ => true) 0%nat SampleNet.roster_world).
  reflexivity.
Defined.

Lemma fetch_nhl_rosters_lets_other_errors_through_witness :
  fetch_nhl_rosters (U := UCD.data) (fun roster : Roster => Ok roster)
    (fun e : nat => (e =? 0)%nat) 0%nat (fun _ i => Fails i)
  = Raised 1%nat.
Proof.
  apply (@fetch_nhl_rosters_lets_other_errors_through UCD.data Roster nat
           (fun roster => Ok roster) (fun e => (e =? 0)%nat) 0%nat
           (fun _ i => Fails i) 0%nat 1%nat); reflexivity.
Defined.

(** With Edmonton alone answering, the map holds its one player with both
    names. *)
Example fetch_sample_rosters :
  fetch_nhl_rosters (U := UCD.data) (fun roster : Roster => Ok roster)
    (fun _ : nat => true) 0%nat SampleNet.roster_world
  = Returned [(lit "connor mcdavid", lit "EDM")].
Proof. vm_compute. reflexivity. Qed.

(** ** The shape of a key *)

Section KeyShape.
Context {U : UnicodeData}.

Lemma last_app_nonempty {A : Type} (l l' : list A) d :
  l' <> [] -> last (l ++ l') d = last l' d.
Proof.
  intros Hne. induction l as [|x l IH]; [reflexivity|].
  cbn [app]. destruct (l ++ l') eqn:E; [|now rewrite <- IH].
  apply app_eq_nil in E as [_ ->]. contradiction.
Qed.

Lemma join_nonempty sep ws : Forall is_word ws -> ws <> [] -> join sep ws <> [].
Proof.
  intros H Hne. destruct ws as [|w ws]; [contradiction|].
  inversion H as [|? ? [Hw _] _]; subst.
  destruct ws; cbn [join]; [assumption|].
  destruct w; [contradiction|discriminate].
Qed.

Lemma join_first sep ws c :
  Forall is_word ws -> hd_error (join sep ws) = Some c -> isspace c = false.
Proof.
  intros H. destruct ws as [|w ws]; [discriminate|].
  inversion H as [|? ? [Hne Hw] _]; subst.
  destruct w as [|c' w]; [contradiction|]. inversion Hw; subst.
  destruct ws; cbn; now intros [= <-].
Qed.

Lemma join_last sep ws d :
  Forall is_word ws -> ws <> [] -> isspace (last (join sep ws) d) = false.
Proof.
  induction ws as [|w ws IH]; intros H Hne; [contradiction|].
  inversion H as [|? ? [Hw Hchars] Hws]; subst.
  destruct ws as [|w' ws].
  - cbn [join]. rewrite Forall_forall in Hchars. apply Hchars.
    destruct (exists_last Hw) as (w0 & c & ->). rewrite last_last.
    apply in_app_iff. right. now left.
  - change (join sep (w :: w' :: ws)) with (w ++ sep ++ join sep (w' :: ws)).
    rewrite !last_app_nonempty;
      try (apply join_nonempty; [assumption|discriminate]).
    + apply IH; [assumption|discriminate].
    + intros E. apply app_eq_nil in E as [_ E].
      revert E. apply join_nonempty; [assumption|discriminate].
Qed.

(** X22: a key is in normal form as to whitespace, when U+0020 counts as
    whitespace: splitting it and joining the words with single spaces gives
    the key back, its first and last characters are not whitespace, and the
    only whitespace character in it is U+0020. *)
Theorem normalize_name_key_is_trimmed (x : str) :
  isspace SPACE = true ->
  join [SPACE] (split (normalize_name x)) = normalize_name x /\
  (forall c, hd_error (normalize_name x) = Some c -> isspace c = false) /\
  (normalize_name x <> [] -> isspace (last (normalize_name x) SPACE) = false) /\
  Forall (fun c => isspace c = true -> c = SPACE) (normalize_name x).
Proof.
  intros Hspace. pose proof (split_words (folded x)) as Hwords.
  rewrite normalize_name_folded. split; [|split; [|split]].
  - now rewrite split_join.
  - intros c. now apply join_first.
  - intros Hne. apply join_last; [assumption|].
    intros E. rewrite E in Hne. now apply Hne.
  - apply join_Forall; [now repeat constructor|].
    eapply Forall_impl; [|exact Hwords]. intros w [_ Hw].
    eapply Forall_impl; [|exact Hw]. intros c Hc Hs. congruence.
Qed.
End KeyShape.

Lemma normalize_name_key_is_trimmed_witness :
  join [SPACE]
    (split (U := UCD.data) (normalize_name (U := UCD.data) (lit "  KLEIN   Cassidy ")))
  = normalize_name (U := UCD.data) (lit "  KLEIN   Cassidy ").
Proof.
  apply (@normalize_name_key_is_trimmed UCD.data (lit "  KLEIN   Cassidy ")).
  reflexivity.
Defined.

(** ** Keys of Latin names: what does not matter *)

Module LatinKeys.
Import Latin Canonical LatinFacts.

Lemma place_unfold c p r :
  UCD.place c (p :: r) = if may_follow p c then c :: p :: r else p :: UCD.place c r.
Proof. reflexivity. Qed.

Lemma may_follow_swap p c : may_follow p c = false -> may_follow c p = true.
Proof.
  unfold may_follow. intros H.
  apply orb_false_iff in H as [H Hle]. apply orb_false_iff in H as [_ _].
  apply N.leb_gt in Hle. apply orb_true_iff. right. apply N.leb_le. lia.
Qed.

Lemma ordered_tail c r : ordered (c :: r) -> ordered r.
Proof. destruct r as [|p r]; [constructor|]. now intros [_ H]. Qed.

Lemma place_ordered c before : ordered before -> ordered (UCD.place c before).
Proof.
  induction before as [|p r IH]; intros H; [constructor|].
  rewrite place_unfold. destruct (may_follow p c) eqn:E; [now split|].
  specialize (IH (ordered_tail _ _ H)).
  destruct r as [|q r]; [cbn; split; [now apply may_follow_swap|constructor]|].
  rewrite place_unfold in *. destruct H as [Hqp Hr].
  destruct (may_follow q c); (split; [|assumption]);
    [now apply may_follow_swap|assumption].
Qed.

Lemma fold_place_ordered s before :
  ordered before -> ordered (fold_left (fun before c => UCD.place c before) s before).
Proof.
  revert before. induction s as [|c s IH]; intros before H; [assumption|].
  cbn [fold_left]. now apply IH, place_ordered.
Qed.

Lemma ordered_app l l' : ordered (l ++ l') -> ordered l'.
Proof.
  induction l as [|c l IH]; [auto|]. intros H. apply IH. exact (ordered_tail _ _ H).
Qed.

Lemma fold_place_of_ordered s before :
  ordered (rev s ++ before) ->
  fold_left (fun before c => UCD.place c before) s before = rev s ++ before.
Proof.
  revert before. induction s as [|c s IH]; intros before H; [reflexivity|].
  cbn [fold_left rev] in *. rewrite <- app_assoc in *. cbn [app] in *.
  assert (Hc : UCD.place c before = c :: before).
  { apply ordered_app in H. destruct before as [|p r]; [reflexivity|].
    rewrite place_unfold. destruct H as [-> _]. reflexivity. }
  rewrite Hc. now apply IH.
Qed.

(** Ordering a text twice is ordering it once. *)
Lemma canonical_order_idempotent s :
  UCD.canonical_order (UCD.canonical_order s) = UCD.canonical_order s.
Proof.
  unfold UCD.canonical_order.
  set (r := fold_left (fun before c => UCD.place c before) s []).
  assert (Hr : ordered r) by (apply fold_place_ordered; constructor).
  rewrite (fold_place_of_ordered (rev r) []); rewrite rev_involutive, app_nil_r;
    [reflexivity|assumption].
Qed.

Lemma decompose_decomposed s :
  Forall (fun c => decomposed c = true) s -> flat_map UCD.decompose s = s.
Proof.
  induction 1 as [|c s Hc _ IH]; [reflexivity|].
  cbn [flat_map]. apply str_eqb_eq in Hc. now rewrite Hc, IH.
Qed.

Lemma nfd_idempotent x :
  forallb covered x = true ->
  UCD.normalize_NFD (UCD.normalize_NFD x) = UCD.normalize_NFD x.
Proof.
  intros H. unfold UCD.normalize_NFD at 1.
  rewrite decompose_decomposed.
  - unfold UCD.normalize_NFD. apply canonical_order_idempotent.
  - eapply Forall_impl; [|apply (nfd_covered x H)]. now intros c [_ Hc].
Qed.

Lemma base_text_fixed w :
  Forall (fun c => covered c = true /\ base c = true) w ->
  UCD.normalize_NFD w = w /\ filter (fun c => negb (is_Mn c)) w = w.
Proof.
  intros H.
  assert (Hb : Forall (fun c => decomposed c = true /\ is_Mn c = false
                                /\ UCD.combining c = 0%N) w).
  { eapply Forall_impl; [|exact H]. intros c [_ Hc]. unfold base in Hc.
    apply split_andb in Hc as [Hc H0]. apply split_andb in Hc as [Hd Hm].
    apply negb_true_iff in Hm. apply N.eqb_eq in H0. auto. }
  split.
  - unfold UCD.normalize_NFD. rewrite decompose_decomposed.
    + apply canonical_order_starters. eapply Forall_impl; [|exact Hb]. now intros c (_ & _ & ?).
    + eapply Forall_impl; [|exact Hb]. now intros c (? & _).
  - clear H. induction Hb as [|c w (_ & Hm & _) _ IH]; [reflexivity|].
    cbn [filter]. rewrite Hm. cbn [negb]. now rewrite IH.
Qed.

(** X23: for a name written in the Latin blocks, neither the form of its
    accented letters, nor its accents, nor its case matter to the key: the
    decomposed spelling of the name, the name without its nonspacing marks
    and the lowercased name without them all get the key of the name. *)
Theorem key_ignores_form_accents_and_case (x : str) :
  forallb covered x = true ->
  normalize_name (U := UCD.data) (UCD.normalize_NFD x)
  = normalize_name (U := UCD.data) x /\
  normalize_name (U := UCD.data)
    (filter (fun c => negb (is_nonspacing_mark (U := UCD.data) c)) (UCD.normalize_NFD x))
  = normalize_name (U := UCD.data) x /\
  normalize_name (U := UCD.data) (folded (U := UCD.data) x)
  = normalize_name (U := UCD.data) x.
Proof.
  intros H. split; [|split].
  - unfold normalize_name. cbn [nfd UCD.data]. now rewrite nfd_idempotent.
  - destruct (base_text_fixed (stripped_base x H)) as [Hnfd Hmarks].
    unfold normalize_name at 1. cbn [nfd UCD.data category lower].
    change (fun char => negb (category_eqb (UCD.general_category char) Mn))
      with (fun c => negb (is_Mn c)).
    change (fun c => negb (is_nonspacing_mark (U := UCD.data) c))
      with (fun c => negb (is_Mn c)).
    rewrite Hnfd, Hmarks. reflexivity.
  - destruct (stable_text_fixed (folded_stable x H)) as (Hnfd & Hmarks & Hlower).
    rewrite (normalize_name_folded (folded (U := UCD.data) x)).
    unfold folded at 1. cbn [nfd UCD.data category lower].
    change (fun c => negb (is_nonspacing_mark (U := UCD.data) c))
      with (fun c => negb (is_Mn c)).
    rewrite Hnfd, Hmarks, Hlower. reflexivity.
Qed.
End LatinKeys.

Lemma key_ignores_form_accents_and_case_witness :
  normalize_name (U := UCD.data) (UCD.normalize_NFD Sample.leo_dube)
  = normalize_name (U := UCD.data) Sample.leo_dube.
Proof.
  apply (LatinKeys.key_ignores_form_accents_and_case Sample.leo_dube). reflexivity.
Defined.

(** ** The top contributors *)

Lemma sorted_int_as_tuple {A : Type} (key : A -> Z) reverse l :
  sorted_int key reverse l = sorted (fun x => (key x, 0)) reverse l.
Proof.
  assert (Hi : forall x l, insert_stable_int key x l
                           = insert_stable (fun x => (key x, 0)) x l).
  { intros x l0. induction l0 as [|y l0 IH]; [reflexivity|].
    cbn [insert_stable_int insert_stable]. rewrite IH.
    replace (tuple_leb (key x, 0) (key y, 0)) with (key x <=? key y); [reflexivity|].
    unfold tuple_leb. cbn [fst snd].
    destruct (Z.leb_spec (key x) (key y)), (Z.ltb_spec (key x) (key y)),
             (Z.eqb_spec (key x) (key y)); cbn; try reflexivity; lia. }
  assert (Hs : forall l, stable_sort_int key l = stable_sort (fun x => (key x, 0)) l).
  { intros l0. induction l0 as [|x l0 IH]; [reflexivity|].
    cbn [stable_sort_int stable_sort fold_right]. unfold stable_sort_int, stable_sort in IH.
    now rewrite IH, Hi. }
  unfold sorted_int, sorted. now rewrite !Hs.
Qed.

Lemma StronglySorted_app_inv {A : Type} (R : A -> A -> Prop) l l' :
  StronglySorted R (l ++ l') -> forall a b, In a l -> In b l' -> R a b.
Proof.
  induction l as [|x l IH]; intros H a b Ha Hb; [contradiction|].
  cbn [app] in H. apply StronglySorted_inv in H as [H Hall].
  destruct Ha as [<-|Ha]; [|now apply IH].
  rewrite Forall_forall in Hall. apply Hall, in_app_iff. now right.
Qed.

(** X24: the top contributors of a team are at most three of its players;
    together with the players left out they are the players of the team, each
    once; and no player left out has more points than a listed one. *)
Theorem top_players_have_most_points (stats : TeamStats) :
  (List.length (top_players stats) <= 3)%nat /\
  List.length (top_players stats) = Nat.min 3 (List.length (players stats)) /\
  Permutation (players stats) (top_players stats ++ other_players stats) /\
  (forall a b, In a (top_players stats) -> In b (other_players stats) ->
               p_points b <= p_points a).
Proof.
  unfold top_players, other_players.
  set (s := sorted_int p_points true (players stats)).
  assert (Hperm : Permutation (players stats) s).
  { unfold s. rewrite sorted_int_as_tuple. apply sorted_Permutation. }
  split; [rewrite length_firstn; lia|]. split.
  - rewrite length_firstn, (Permutation_length Hperm). reflexivity.
  - split; [now rewrite firstn_skipn|].
    intros a b Ha Hb.
    assert (Hs : StronglySorted
                   (fun x y => tuple_le (p_points y, 0) (p_points x, 0))
                   (firstn 3 s ++ skipn 3 s)).
    { rewrite firstn_skipn. unfold s. rewrite sorted_int_as_tuple.
      apply (sorted_reverse_descending (fun x => (p_points x, 0))). }
    pose proof (StronglySorted_app_inv _ _ Hs a b Ha Hb) as Hle.
    unfold tuple_le in Hle. cbn [fst snd] in Hle. lia.
Qed.

(** ** The marks that the filter keeps *)

(** C5: the comment in [normalize_name] announces that combining characters
    are filtered out, and so does the claim; the filter tests for category Mn
    only. U+20DD COMBINING ENCLOSING CIRCLE is a combining mark, of category
    Me. On "a" followed by it the code returns the input as it is; with every
    combining mark dropped the key is "a". *)
Theorem normalize_name_keeps_enclosing_mark :
  is_combining_mark (U := UCD.data) 0x20DD%N = true /\
  is_nonspacing_mark (U := UCD.data) 0x20DD%N = false /\
  normalize_name (U := UCD.data) Sample.circled_a = Sample.circled_a /\
  spec_normalize (U := UCD.data) (is_combining_mark (U := UCD.data)) Sample.circled_a
  = lit "a".
Proof. repeat split; vm_compute; reflexivity. Qed.

(** C6: normalising twice is not normalising once, for the same reason. In
    U+302E U+034F U+1D165 the first pass drops U+034F (category Mn, class 0)
    and keeps the two spacing marks (category Mc, classes 224 and 216), which
    now stand next to each other against the canonical order; the second pass
    swaps them. With every combining mark dropped the key is empty, and
    normalising it again changes nothing. *)
Theorem normalize_name_twice_differs :
  normalize_name (U := UCD.data) Sample.three_marks = [0x302E; 0x1D165]%N /\
  normalize_name (U := UCD.data) (normalize_name (U := UCD.data) Sample.three_marks)
  = [0x1D165; 0x302E]%N /\
  Forall (fun c => is_combining_mark (U := UCD.data) c = true) Sample.three_marks /\
  spec_normalize (U := UCD.data) (is_combining_mark (U := UCD.data)) Sample.three_marks = [] /\
  spec_normalize (U := UCD.data) (is_combining_mark (U := UCD.data))
    (spec_normalize (U := UCD.data) (is_combining_mark (U := UCD.data)) Sample.three_marks)
  = spec_normalize (U := UCD.data) (is_combining_mark (U := UCD.data)) Sample.three_marks.
Proof.
  split; [vm_compute; reflexivity|]. split; [vm_compute; reflexivity|].
  split; [repeat constructor|]. split; vm_compute; reflexivity.
Qed.

(** ** What the order of the maps changes *)

Lemma aggregate_item_same_roster roster roster' acc item :
  same_map roster roster' ->
  aggregate_item roster acc item = aggregate_item roster' acc item.
Proof.
  intros H. destruct acc as [d u], item as [k stats]. unfold aggregate_item.
  now rewrite (H k).
Qed.

(** The roster counts as a map only: the order of its items is immaterial. *)
Lemma aggregate_same_roster src roster roster' :
  same_map roster roster' -> aggregate src roster = aggregate src roster'.
Proof.
  intros H. unfold aggregate, aggregate_loop.
  generalize (@nil (str * TeamStats), @nil Stats).
  induction src as [|item src IH]; intros acc; [reflexivity|].
  cbn [fold_left]. rewrite (aggregate_item_same_roster acc item H).
  specialize (IH (aggregate_item roster' acc item)).
  destruct (fold_left (aggregate_item roster) src (aggregate_item roster' acc item)).
  destruct (fold_left (aggregate_item roster') src (aggregate_item roster' acc item)).
  now injection IH as -> ->.
Qed.

Lemma filter_Permutation {A : Type} (f : A -> bool) l l' :
  Permutation l l' -> Permutation (filter f l) (filter f l').
Proof.
  induction 1 as [|x l l' _ IH|x y l|l l1 l2 _ IH1 _ IH2]; cbn [filter].
  - constructor.
  - destruct (f x); [now constructor|assumption].
  - destruct (f x), (f y); try reflexivity. apply perm_swap.
  - now transitivity (filter f l1).
Qed.

Lemma aggregate_players_of src roster team :
  players_of team (fst (aggregate src roster))
  = map player_of (values (filter (goes_to roster team) src)).
Proof.
  rewrite aggregate_fst. unfold players_of.
  rewrite <- (dict_get_Permutation team (aggregate_loop_NoDup src roster)
                (sorted_teams_Permutation (fst (aggregate_loop src roster)))).
  apply (fold_aggregate_players roster team src [] []).
Qed.

Lemma aggregate_NoDup src roster : NoDup (keys (fst (aggregate src roster))).
Proof.
  rewrite aggregate_fst. unfold keys.
  eapply Permutation_NoDup;
    [apply Permutation_map, sorted_teams_Permutation|apply aggregate_loop_NoDup].
Qed.

Lemma get_or_players team teams :
  players (get_or new_team_stats team teams) = players_of team teams.
Proof. unfold get_or, players_of. now destruct (dict_get team teams). Qed.

Lemma get_or_consistent team teams :
  Forall (fun x => consistent (snd x)) teams ->
  consistent (get_or new_team_stats team teams).
Proof.
  intros H. unfold get_or. destruct (dict_get team teams) as [t|] eqn:E;
    [|apply new_team_stats_consistent].
  apply dict_get_In in E. rewrite Forall_forall in H. exact (H _ E).
Qed.

(** The totals of a team are those of its player list. *)
Lemma totals_of_players src roster team :
  totals_of team (fst (aggregate src roster))
  = (total (fun p => p_goals p + p_assists p) (players_of team (fst (aggregate src roster))),
     total p_goals (players_of team (fst (aggregate src roster))),
     total p_assists (players_of team (fst (aggregate src roster)))).
Proof.
  unfold totals_of.
  destruct (get_or_consistent team (aggregate_consistent src roster)) as (Hp & Hg & Ha).
  now rewrite Hp, Hg, Ha, get_or_players.
Qed.

Lemma ranked_iff_players src roster team :
  In team (keys (fst (aggregate src roster)))
  <-> players_of team (fst (aggregate src roster)) <> [].
Proof.
  pose proof (aggregate_well_formed src roster) as Hw. rewrite Forall_forall in Hw.
  unfold players_of. split.
  - intros Hin. unfold keys in Hin. apply in_map_iff in Hin as ([k t] & <- & Hin).
    cbn [fst]. rewrite (@In_dict_get _ _ _ _ (aggregate_NoDup src roster) Hin).
    now destruct (Hw _ Hin) as (_ & Hne & _).
  - destruct (dict_get team (fst (aggregate src roster))) as [t|] eqn:E;
      [|intros H; now contradiction H].
    intros _. apply dict_get_In in E. unfold keys.
    change team with (fst (team, t)). now apply in_map.
Qed.

Lemma rank_keys_by_team src roster :
  map rank_key (fst (aggregate src roster))
  = map (fun team => let '(p, g, _) := totals_of team (fst (aggregate src roster)) in (p, g))
      (keys (fst (aggregate src roster))).
Proof.
  pose proof (aggregate_NoDup src roster) as Hnd.
  unfold keys. rewrite map_map. apply map_ext_in. intros [team t] Hin.
  unfold totals_of, get_or. cbn [fst]. now rewrite (@In_dict_get _ _ _ _ Hnd Hin).
Qed.

Lemma tuple_le_antisym a b : tuple_le a b -> tuple_le b a -> a = b.
Proof. unfold tuple_le. destruct a, b. cbn [fst snd]. intros H H'. f_equal; lia. Qed.

(** Two lists in descending order with the same elements are the same list. *)
Lemma descending_unique (l l' : list (Z * Z)) :
  StronglySorted (fun a b => tuple_le b a) l ->
  StronglySorted (fun a b => tuple_le b a) l' ->
  Permutation l l' -> l = l'.
Proof.
  revert l'. induction l as [|a l IH]; intros l' Hs Hs' Hp.
  - now apply Permutation_nil in Hp.
  - destruct l' as [|a' l']; [now apply Permutation_sym, Permutation_nil in Hp|].
    apply StronglySorted_inv in Hs as [Hs Ha].
    apply StronglySorted_inv in Hs' as [Hs' Ha'].
    rewrite Forall_forall in Ha, Ha'.
    assert (E : a = a').
    { assert (Hin : In a (a' :: l')) by (eapply Permutation_in; [exact Hp|now left]).
      assert (Hin' : In a' (a :: l))
        by (eapply Permutation_in; [apply Permutation_sym, Hp|now left]).
      destruct Hin as [E|Hin]; [now symmetry|].
      destruct Hin' as [E|Hin']; [assumption|].
      apply tuple_le_antisym; [now apply Ha'|now apply Ha]. }
    subst a'. f_equal. apply IH; [assumption..|].
    now apply Permutation_cons_inv in Hp.
Qed.

Lemma rank_keys_descending src roster :
  StronglySorted (fun a b => tuple_le b a) (map rank_key (fst (aggregate src roster))).
Proof.
  rewrite aggregate_fst.
  pose proof (sorted_reverse_descending rank_key (fst (aggregate_loop src roster))) as H.
  unfold sorted_teams. induction H as [|x l _ IH Hall]; [constructor|].
  cbn [map]. constructor; [assumption|].
  rewrite Forall_map. exact Hall.
Qed.

(** The order of the source changes the order of the outputs only. *)
Lemma aggregate_source_order src src' roster :
  Permutation src src' ->
  Permutation (snd (aggregate src roster)) (snd (aggregate src' roster)) /\
  Permutation (keys (fst (aggregate src roster))) (keys (fst (aggregate src' roster))) /\
  (forall team,
     Permutation (players_of team (fst (aggregate src roster)))
       (players_of team (fst (aggregate src' roster))) /\
     totals_of team (fst (aggregate src roster))
     = totals_of team (fst (aggregate src' roster))) /\
  map rank_key (fst (aggregate src roster)) = map rank_key (fst (aggregate src' roster)).
Proof.
  intros Hp.
  assert (Hplayers : forall team,
             Permutation (players_of team (fst (aggregate src roster)))
               (players_of team (fst (aggregate src' roster)))).
  { intros team. rewrite !aggregate_players_of. unfold values.
    now apply Permutation_map, Permutation_map, filter_Permutation. }
  assert (Htotals : forall team,
             totals_of team (fst (aggregate src roster))
             = totals_of team (fst (aggregate src' roster))).
  { intros team. rewrite !totals_of_players.
    now rewrite !(total_Permutation _ (Hplayers team)). }
  assert (Hkeys : Permutation (keys (fst (aggregate src roster)))
                    (keys (fst (aggregate src' roster)))).
  { apply NoDup_Permutation; try apply aggregate_NoDup.
    intros team. rewrite !ranked_iff_players.
    split; intros H E; apply H.
    - pose proof (Hplayers team) as P. rewrite E in P.
      now apply Permutation_sym, Permutation_nil in P.
    - pose proof (Hplayers team) as P. rewrite E in P.
      now apply Permutation_nil in P. }
  split; [|split; [exact Hkeys|split; [now split|]]].
  - rewrite !aggregate_unmatched. unfold values.
    now apply Permutation_map, filter_Permutation.
  - apply descending_unique; try apply rank_keys_descending.
    rewrite !rank_keys_by_team.
    rewrite (map_ext _ (fun team => let '(p, g, _) :=
                          totals_of team (fst (aggregate src' roster)) in (p, g))).
    + now apply Permutation_map.
    + intros team. now rewrite Htotals.
Qed.

(** The two sample sources are one map, filled in two orders. *)
Lemma tie_sources_same_map : same_map Sample.tie_source Sample.tie_source'.
Proof.
  intros k. unfold Sample.tie_source, Sample.tie_source'. cbn [dict_get].
  destruct (str_eq_dec k (lit "al alpha")) as [Ha|Ha],
           (str_eq_dec k (lit "bo beta")) as [Hb|Hb]; try reflexivity.
  rewrite Ha in Hb. discriminate Hb.
Qed.

(** ** The loop on the heap *)

Module HeapFacts.
Import Heap.

Lemma bind_Some {A B : Type} (m : Run A) (f : A -> Run B) h a h' :
  m h = Some (a, h') -> bind m f h = f a h'.
Proof. unfold bind. now intros ->. Qed.

Lemma nth_error_replace_same l o h o0 :
  nth_error h l = Some o0 -> nth_error (replace l o h) l = Some o.
Proof.
  revert l. induction h as [|x h IH]; intros [|l]; simpl; try discriminate; auto.
Qed.

Lemma nth_error_replace_other l l' o h :
  l' <> l -> nth_error (replace l o h) l' = nth_error h l'.
Proof.
  revert l l'. induction h as [|x h IH]; intros [|l] [|l'] H; simpl; try reflexivity.
  - now contradiction H.
  - apply IH. congruence.
Qed.

Lemma length_replace l o h : List.length (replace l o h) = List.length h.
Proof.
  revert l. induction h as [|x h IH]; intros [|l]; simpl; try reflexivity.
  now rewrite IH.
Qed.

(** *** The operations, where the object is known *)

Lemma items_at h l its :
  nth_error h l = Some (ODict its) -> items (VRef l) h = Some (its, h).
Proof. intros H. unfold items, bind, load. now rewrite H. Qed.

Lemma elements_at h l vs :
  nth_error h l = Some (OList vs) -> elements (VRef l) h = Some (vs, h).
Proof. intros H. unfold elements, bind, load. now rewrite H. Qed.

Lemma getitem_at h l its k v :
  nth_error h l = Some (ODict its) -> dict_get k its = Some v ->
  getitem (VRef l) (VStr k) h = Some (v, h).
Proof.
  intros H Hk. unfold getitem. erewrite bind_Some by (apply items_at, H).
  unfold key, bind, ret. now rewrite Hk.
Qed.

Lemma get_at h l its k :
  nth_error h l = Some (ODict its) ->
  get (VRef l) (VStr k) h
  = Some (match dict_get k its with Some v => v | None => VNone end, h).
Proof.
  intros H. unfold get. erewrite bind_Some by (apply items_at, H).
  unfold key, bind, ret. now destruct (dict_get k its).
Qed.

Lemma setitem_at h l its k v :
  nth_error h l = Some (ODict its) ->
  setitem (VRef l) (VStr k) v h = Some (tt, replace l (ODict (dict_set k v its)) h).
Proof.
  intros H. unfold setitem. erewrite bind_Some by (apply items_at, H). reflexivity.
Qed.

Lemma append_at h l vs v :
  nth_error h l = Some (OList vs) ->
  append (VRef l) v h = Some (tt, replace l (OList (vs ++ [v])) h).
Proof.
  intros H. unfold append. erewrite bind_Some by (apply elements_at, H). reflexivity.
Qed.

(** *** Roles *)

Lemma preserves_trans r h1 roles1 h2 roles2 h3 roles3 :
  preserves r h1 roles1 h2 roles2 -> preserves r h2 roles2 h3 roles3 ->
  preserves r h1 roles1 h3 roles3.
Proof. intros H1 H2 l r' o Hr H. apply H2, H1; assumption. Qed.

Lemma nth_error_app_Some {A : Type} (l l' : list A) n x :
  nth_error l n = Some x -> nth_error (l ++ l') n = Some x.
Proof.
  intros H. rewrite nth_error_app1; [assumption|].
  apply nth_error_Some. congruence.
Qed.

Lemma at_alloc_old h roles o0 r0 l r o :
  at_ h roles l r o -> at_ (h ++ [o0]) (roles ++ [r0]) l r o.
Proof. intros [H1 H2]. split; now apply nth_error_app_Some. Qed.

Lemma preserves_alloc r h roles o0 r0 :
  preserves r h roles (h ++ [o0]) (roles ++ [r0]).
Proof. intros l r' o _. apply at_alloc_old. Qed.

Lemma at_alloc h roles o r :
  List.length roles = List.length h ->
  at_ (h ++ [o]) (roles ++ [r]) (List.length h) r o.
Proof.
  intros E. split.
  - rewrite nth_error_app2, Nat.sub_diag; [reflexivity|lia].
  - rewrite <- E. rewrite nth_error_app2, Nat.sub_diag; [reflexivity|lia].
Qed.

Lemma at_write h roles l r o o' :
  at_ h roles l r o -> at_ (replace l o' h) roles l r o'.
Proof. intros [H1 H2]. split; [|assumption]. eapply nth_error_replace_same, H1. Qed.

Lemma preserves_write h roles l r o o' :
  at_ h roles l r o -> preserves r h roles (replace l o' h) roles.
Proof.
  intros [H1 H2] l' r' o'' Hr [H3 H4]. split; [|assumption].
  rewrite nth_error_replace_other; [assumption|].
  intros ->. congruence.
Qed.

Lemma Forall2_impl_In {A B : Type} (R R' : A -> B -> Prop) l l' :
  (forall x y, In x l -> R x y -> R' x y) -> Forall2 R l l' -> Forall2 R' l l'.
Proof.
  intros H F. induction F as [|x y l l' Hxy F IH]; constructor.
  - apply H; [now left|assumption].
  - apply IH. intros x' y' Hin. apply H. now right.
Qed.

Lemma record_list_preserved {A : Type} (repr : A -> object) r h roles h' roles' rl xs v :
  preserves r h roles h' roles' -> RRecord <> r -> rl <> r ->
  record_list repr h roles rl xs v -> record_list repr h' roles' rl xs v.
Proof.
  intros P Hr Hrl (l & vs & -> & Hat & F). exists l, vs. split; [reflexivity|].
  split; [now apply P|].
  eapply Forall2_impl_In; [|exact F].
  intros x y _ (l' & -> & Hx). exists l'. split; [reflexivity|now apply P].
Qed.

Lemma team_at_preserved r h roles h' roles' e i :
  preserves r h roles h' roles' ->
  RRecord <> r -> RTeam (fst e) <> r -> RPlayers (fst e) <> r ->
  team_at h roles e i -> team_at h' roles' e i.
Proof.
  intros P H1 H2 H3 (Hk & l & p & Hi & Hat & Hl). split; [assumption|].
  exists l, p. split; [assumption|]. split; [now apply P|].
  now apply (record_list_preserved P).
Qed.

(** *** The teams *)

Lemma teams_absent h roles d its k :
  Forall2 (team_at h roles) d its -> dict_get k d = None -> dict_get k its = None.
Proof.
  induction 1 as [|[k0 t0] [k1 v1] d its Hh F IH]; simpl; [reflexivity|].
  assert (E : k1 = k0) by apply Hh. subst k1.
  destruct (str_eq_dec k k0); [discriminate|exact IH].
Qed.

Lemma focus_team h roles d its k t :
  NoDup (keys d) -> Forall2 (team_at h roles) d its -> dict_get k d = Some t ->
  exists v, dict_get k its = Some v /\ team_at h roles (k, t) (k, v) /\
    forall h' roles' t',
      (forall e i, fst e <> k -> team_at h roles e i -> team_at h' roles' e i) ->
      team_at h' roles' (k, t') (k, v) ->
      Forall2 (team_at h' roles') (dict_set k t' d) its.
Proof.
  intros Hnd F. induction F as [|[k0 t0] [k1 v1] d its Hh F IH]; simpl; [discriminate|].
  assert (E : k1 = k0) by apply Hh. subst k1.
  inversion Hnd as [|? ? Hnot Hnd']; subst.
  destruct (str_eq_dec k k0) as [->|Hk].
  - intros [= ->]. exists v1. split; [reflexivity|]. split; [assumption|].
    intros h' roles' t' Hother Hnew. constructor; [assumption|].
    eapply Forall2_impl_In; [|exact F]. intros e i Hin. apply Hother.
    intros E. apply Hnot. unfold keys. rewrite <- E. now apply in_map.
  - intros Hget. destruct (IH Hnd' Hget) as (v & Hv & Hat & Hclose).
    exists v. split; [assumption|]. split; [assumption|].
    intros h' roles' t' Hother Hnew. constructor.
    + apply Hother; [simpl; congruence|assumption].
    + now apply Hclose.
Qed.

Lemma defaultdict_getitem_present {V : Type} (default : V) k d :
  dict_get k (snd (defaultdict_getitem default k d))
  = Some (fst (defaultdict_getitem default k d)).
Proof.
  unfold defaultdict_getitem. destruct (dict_get k d) eqn:E; simpl;
    [assumption|apply dict_get_set_same].
Qed.

Lemma team_stats_factory_eq h :
  team_stats_factory h
  = Some (VRef (List.length (h ++ [OList []])),
          (h ++ [OList []]) ++ [team_object new_team_stats (VRef (List.length h))]).
Proof. reflexivity. Qed.

Section Loop.
Variable h0 : heap.
Variables T M : nat.

Lemma invariant_unchanged h roles d u : invariant h0 T M h roles d u -> unchanged h0 h.
Proof. intros (_ & H & _) l o Hl. now apply H. Qed.

(** A team that is there: its objects, and what a statement that writes to
    them has to show. *)
Lemma focus_invariant h roles d u k t :
  invariant h0 T M h roles d u -> dict_get k d = Some t ->
  exists its l p,
    nth_error h T = Some (ODict its) /\ dict_get k its = Some (VRef l) /\
    at_ h roles l (RTeam k) (team_object t p) /\
    record_list player_object h roles (RPlayers k) (players t) p /\
    forall r h' roles' t',
      r = RTeam k \/ r = RPlayers k ->
      preserves r h roles h' roles' ->
      List.length roles' = List.length h' ->
      team_at h' roles' (k, t') (k, VRef l) ->
      invariant h0 T M h' roles' (dict_set k t' d) u.
Proof.
  intros (Hlen & Hold & (its & HT & F) & Hu & Hnd) Hget.
  destruct (focus_team k Hnd F Hget) as (v & Hv & (_ & l & p & Hl & Hat & Hp) & Hclose).
  simpl in Hl, Hat, Hp. subst v.
  exists its, l, p. split; [apply HT|]. do 3 (split; [assumption|]).
  intros r h' roles' t' Hr P Hlen' Hnew.
  assert (R1 : ROld <> r) by (destruct Hr; subst r; discriminate).
  assert (R2 : RTeams <> r) by (destruct Hr; subst r; discriminate).
  assert (R3 : RUnmatched <> r) by (destruct Hr; subst r; discriminate).
  assert (R4 : RRecord <> r) by (destruct Hr; subst r; discriminate).
  split; [assumption|]. split; [|split; [|split]].
  - intros l' o Hl'. apply P; [assumption|now apply Hold].
  - exists its. split; [now apply P|]. apply Hclose; [|assumption].
    intros e i He. apply (team_at_preserved P); [assumption| |];
      destruct Hr; subst r; congruence.
  - now apply (record_list_preserved P).
  - now apply dict_set_NoDup.
Qed.

(** [nhl_team_stats[nhl_team]]: the object of the team, made if it was not
    there. *)
Lemma getitem_default_spec h roles d u k :
  invariant h0 T M h roles d u ->
  exists l h1 roles1,
    getitem_default team_stats_factory (VRef T) (VStr k) h = Some (VRef l, h1) /\
    invariant h0 T M h1 roles1 (snd (defaultdict_getitem new_team_stats k d)) u /\
    exists its, nth_error h1 T = Some (ODict its) /\ dict_get k its = Some (VRef l).
Proof.
  intros Inv. pose proof Inv as (Hlen & Hold & (its & HT & F) & Hu & Hnd).
  unfold getitem_default. erewrite bind_Some by (apply items_at, HT).
  unfold key at 1. unfold bind at 1, ret at 1.
  unfold defaultdict_getitem.
  destruct (dict_get k d) as [t|] eqn:Hget.
  - destruct (focus_invariant k Inv Hget) as (its' & l & p & HT' & Hl & _).
    assert (E : its' = its) by (destruct HT as [HT _]; congruence). subst its'.
    rewrite Hl. exists l, h, roles. split; [reflexivity|]. split; [exact Inv|].
    exists its. split; [apply HT|assumption].
  - rewrite (teams_absent k F Hget).
    set (p := List.length h).
    set (h1 := h ++ [OList []]).
    set (o := team_object new_team_stats (VRef p)).
    set (h2 := h1 ++ [o]).
    set (roles2 := (roles ++ [RPlayers k]) ++ [RTeam k]).
    set (l := List.length h1).
    set (h3 := replace T (ODict (dict_set k (VRef l) its)) h2).
    assert (Hlen1 : List.length (roles ++ [RPlayers k]) = List.length h1)
      by (unfold h1; rewrite !length_app; simpl; lia).
    assert (Hp : at_ h2 roles2 p (RPlayers k) (OList [])).
    { apply at_alloc_old. now apply at_alloc. }
    assert (Hl : at_ h2 roles2 l (RTeam k) o) by now apply at_alloc.
    assert (HT2 : at_ h2 roles2 T RTeams (ODict its)) by now do 2 apply at_alloc_old.
    assert (P : preserves RTeams h roles h3 roles2).
    { eapply preserves_trans; [apply preserves_alloc|].
      eapply preserves_trans; [apply preserves_alloc|].
      apply (preserves_write _ HT2). }
    assert (P2 : preserves RTeams h2 roles2 h3 roles2) by apply (preserves_write _ HT2).
    exists l, h3, roles2. split; [|split].
    + erewrite bind_Some by apply team_stats_factory_eq. fold p h1 o h2 l.
      erewrite bind_Some by (apply setitem_at, HT2). reflexivity.
    + split; [|split; [|split; [|split]]].
      * unfold h3, roles2, h2, h1. rewrite length_replace, !length_app. simpl. lia.
      * intros l' o' Hl'. apply P; [discriminate|now apply Hold].
      * exists (dict_set k (VRef l) its). split; [apply (at_write _ HT2)|].
        simpl. rewrite !dict_set_absent by (assumption || apply (teams_absent k F Hget)).
        apply Forall2_app.
        -- eapply Forall2_impl_In; [|exact F]. intros e i _.
           apply (team_at_preserved P); discriminate.
        -- constructor; [|constructor]. split; [reflexivity|].
           exists l, (VRef p). split; [reflexivity|]. split.
           ++ apply P2; [discriminate|exact Hl].
           ++ exists p, []. split; [reflexivity|]. split; [|constructor].
              apply P2; [discriminate|exact Hp].
      * apply (record_list_preserved P); [discriminate|discriminate|assumption].
      * simpl. now apply dict_set_NoDup.
    + exists (dict_set k (VRef l) its). split; [apply (at_write _ HT2)|].
      apply dict_get_set_same.
Qed.

(** [nhl_team_stats[nhl_team][fld] += rhs] *)
Lemma iadd_item_spec h roles d u k fld x (f : TeamStats -> TeamStats) (rhs : Run value) :
  invariant h0 T M h roles d u ->
  (forall t p, exists its n,
      team_object t p = ODict its /\ dict_get (lit fld) its = Some (VInt n) /\
      ODict (dict_set (lit fld) (VInt (n + x)) its) = team_object (f t) p) ->
  (forall t, players (f t) = players t) ->
  (forall h', unchanged h0 h' -> rhs h' = Some (VInt x, h')) ->
  exists h' roles',
    iadd_item (getitem_default team_stats_factory (VRef T) (VStr k)) (field fld) rhs h
    = Some (tt, h') /\
    invariant h0 T M h' roles' (defaultdict_update new_team_stats k f d) u.
Proof.
  intros Inv Hfield Hplayers Hrhs.
  destruct (getitem_default_spec k Inv) as (l & h1 & roles1 & Hrun & Inv1 & its & HT & Hl).
  unfold defaultdict_update.
  pose proof (defaultdict_getitem_present new_team_stats k d) as Hget.
  destruct (defaultdict_getitem new_team_stats k d) as [t d1]. simpl in Inv1, Hget.
  destruct (focus_invariant k Inv1 Hget) as (its' & l' & p & HT' & Hl' & Hat & Hp & Hclose).
  assert (E : l' = l) by congruence. subst l'.
  destruct (Hfield t p) as (tits & n & Ht & Hn & Hset).
  unfold iadd_item. erewrite bind_Some by exact Hrun.
  pose proof Hat as [Hat1 _]. rewrite Ht in Hat1.
  unfold field.
  erewrite bind_Some by (eapply getitem_at; [exact Hat1|exact Hn]).
  erewrite bind_Some by (apply Hrhs, (invariant_unchanged Inv1)).
  unfold add. unfold bind at 1, ret at 1.
  rewrite (setitem_at _ _ _ _ Hat1). rewrite Hset.
  exists (replace l (team_object (f t) p) h1), roles1. split; [reflexivity|].
  pose proof (preserves_write (team_object (f t) p) Hat) as P.
  apply (Hclose (RTeam k)); [now left|exact P| |].
  - rewrite length_replace. apply Inv1.
  - split; [reflexivity|]. exists l, p. split; [reflexivity|].
    split; [apply (at_write _ Hat)|]. simpl. rewrite Hplayers.
    apply (record_list_preserved P); [discriminate|discriminate|assumption].
Qed.

(** [nhl_team_stats[nhl_team]['players'].append({...})] *)
Lemma append_player_spec h roles d u k s stats :
  nth_error h0 s = Some (stats_object stats) ->
  invariant h0 T M h roles d u ->
  exists h' roles',
    (e <- getitem_default team_stats_factory (VRef T) (VStr k) ;;
     l <- getitem e (field "players") ;;
     n <- getitem (VRef s) (field "name") ;;
     g' <- getitem (VRef s) (field "goals") ;;
     a' <- getitem (VRef s) (field "assists") ;;
     p <- alloc (ODict [(lit "name", n); (lit "goals", g'); (lit "assists", a');
                        (lit "points", VInt (goals stats + assists stats))]) ;;
     append l p) h = Some (tt, h') /\
    invariant h0 T M h' roles'
      (defaultdict_update new_team_stats k (append_player (player_of stats)) d) u.
Proof.
  intros Hs Inv.
  destruct (getitem_default_spec k Inv) as (l & h1 & roles1 & Hrun & Inv1 & its & HT & Hl).
  unfold defaultdict_update.
  pose proof (defaultdict_getitem_present new_team_stats k d) as Hget.
  destruct (defaultdict_getitem new_team_stats k d) as [t d1]. simpl in Inv1, Hget.
  destruct (focus_invariant k Inv1 Hget)
    as (its' & l' & p & HT' & Hl' & Hat & (pl & vs & -> & Hpl & F) & Hclose).
  assert (E : l' = l) by congruence. subst l'.
  pose proof (invariant_unchanged Inv1 _ Hs) as Hs1.
  erewrite bind_Some by exact Hrun.
  erewrite bind_Some by (eapply getitem_at; [apply Hat|reflexivity]).
  erewrite bind_Some by (eapply getitem_at; [exact Hs1|reflexivity]).
  erewrite bind_Some by (eapply getitem_at; [exact Hs1|reflexivity]).
  erewrite bind_Some by (eapply getitem_at; [exact Hs1|reflexivity]).
  change (ODict [(lit "name", VStr (name stats)); (lit "goals", VInt (goals stats));
                 (lit "assists", VInt (assists stats));
                 (lit "points", VInt (goals stats + assists stats))])
    with (player_object (player_of stats)).
  unfold alloc at 1. unfold bind at 1.
  set (h2 := h1 ++ [player_object (player_of stats)]).
  set (roles2 := roles1 ++ [RRecord]).
  assert (Hlen1 : List.length roles1 = List.length h1) by apply Inv1.
  assert (Hnew : at_ h2 roles2 (List.length h1) RRecord (player_object (player_of stats)))
    by now apply at_alloc.
  assert (Hpl2 : at_ h2 roles2 pl (RPlayers k) (OList vs)) by now apply at_alloc_old.
  rewrite (append_at _ _ (VRef (List.length h1)) (proj1 Hpl2)).
  set (h3 := replace pl (OList (vs ++ [VRef (List.length h1)])) h2).
  assert (P2 : preserves (RPlayers k) h2 roles2 h3 roles2) by apply (preserves_write _ Hpl2).
  assert (P : preserves (RPlayers k) h1 roles1 h3 roles2).
  { eapply preserves_trans; [apply preserves_alloc|exact P2]. }
  exists h3, roles2. split; [reflexivity|].
  apply (Hclose (RPlayers k)); [now right|exact P| |].
  - unfold h3, roles2, h2. rewrite length_replace, !length_app. simpl. lia.
  - split; [reflexivity|]. exists l, (VRef pl). split; [reflexivity|]. split.
    + apply P; [discriminate|exact Hat].
    + exists pl, (vs ++ [VRef (List.length h1)]). split; [reflexivity|].
      split; [apply (at_write _ Hpl2)|]. simpl. apply Forall2_app.
      * eapply Forall2_impl_In; [|exact F]. intros x y _ (l' & -> & Hx).
        exists l'. split; [reflexivity|]. apply P; [discriminate|exact Hx].
      * constructor; [|constructor]. exists (List.length h1). split; [reflexivity|].
        apply P2; [discriminate|exact Hnew].
Qed.

(** [unmatched_players.append({...})] *)
Lemma append_unmatched_spec h roles d u s stats :
  nth_error h0 s = Some (stats_object stats) ->
  invariant h0 T M h roles d u ->
  exists h' roles',
    (n <- getitem (VRef s) (field "name") ;;
     g <- getitem (VRef s) (field "goals") ;;
     a <- getitem (VRef s) (field "assists") ;;
     p <- alloc (ODict [(lit "name", n); (lit "goals", g); (lit "assists", a)]) ;;
     append (VRef M) p) h = Some (tt, h') /\
    invariant h0 T M h' roles' d (record_unmatched stats u).
Proof.
  intros Hs Inv.
  pose proof Inv as (Hlen & Hold & (its & HT & F) & (lm & vs & E & Hm & Fu) & Hnd).
  injection E as <-.
  pose proof (invariant_unchanged Inv _ Hs) as Hs1.
  erewrite bind_Some by (eapply getitem_at; [exact Hs1|reflexivity]).
  erewrite bind_Some by (eapply getitem_at; [exact Hs1|reflexivity]).
  erewrite bind_Some by (eapply getitem_at; [exact Hs1|reflexivity]).
  unfold alloc at 1. unfold bind at 1.
  set (o := ODict [(lit "name", VStr (name stats)); (lit "goals", VInt (goals stats));
                   (lit "assists", VInt (assists stats))]).
  set (h2 := h ++ [o]).
  set (roles2 := roles ++ [RRecord]).
  assert (Hnew : at_ h2 roles2 (List.length h) RRecord o) by now apply at_alloc.
  assert (Hm2 : at_ h2 roles2 M RUnmatched (OList vs)) by now apply at_alloc_old.
  rewrite (append_at _ _ (VRef (List.length h)) (proj1 Hm2)).
  set (h3 := replace M (OList (vs ++ [VRef (List.length h)])) h2).
  assert (P2 : preserves RUnmatched h2 roles2 h3 roles2) by apply (preserves_write _ Hm2).
  assert (P : preserves RUnmatched h roles h3 roles2).
  { eapply preserves_trans; [apply preserves_alloc|exact P2]. }
  exists h3, roles2. split; [reflexivity|].
  split; [|split; [|split; [|split]]].
  - unfold h3, roles2, h2. rewrite length_replace, !length_app. simpl. lia.
  - intros l' o' Hl'. apply P; [discriminate|now apply Hold].
  - exists its. split; [apply P; [discriminate|exact HT]|].
    eapply Forall2_impl_In; [|exact F]. intros e i _.
    apply (team_at_preserved P); discriminate.
  - exists M, (vs ++ [VRef (List.length h)]). split; [reflexivity|].
    split; [apply (at_write _ Hm2)|]. unfold record_unmatched. apply Forall2_app.
    + eapply Forall2_impl_In; [|exact Fu]. intros x y _ (l' & -> & Hx).
      exists l'. split; [reflexivity|]. apply P; [discriminate|exact Hx].
    + constructor; [|constructor]. exists (List.length h). split; [reflexivity|].
      apply P2; [discriminate|exact Hnew].
  - assumption.
Qed.

Lemma dict_get_map_VStr k (roster : dict str) :
  dict_get k (map (fun e => (fst e, VStr (snd e))) roster)
  = option_map VStr (dict_get k roster).
Proof.
  induction roster as [|[k0 t0] roster IH]; simpl; [reflexivity|].
  destruct (str_eq_dec k k0); [reflexivity|exact IH].
Qed.

(** One turn of the loop. *)
Lemma loop_body_spec R roster h roles d u k s stats :
  nth_error h0 R = Some (ODict (map (fun e => (fst e, VStr (snd e))) roster)) ->
  nth_error h0 s = Some (stats_object stats) ->
  invariant h0 T M h roles d u ->
  exists h' roles',
    loop_body (VRef T) (VRef M) (VRef R) (VStr k) (VRef s) h = Some (tt, h') /\
    invariant h0 T M h' roles'
      (fst (aggregate_item roster (d, u) (k, stats)))
      (snd (aggregate_item roster (d, u) (k, stats))).
Proof.
  intros HR Hs Inv.
  pose proof (invariant_unchanged Inv _ HR) as HR1.
  pose proof (invariant_unchanged Inv _ Hs) as Hs1.
  assert (Hgoals : forall h', unchanged h0 h' ->
            getitem (VRef s) (field "goals") h' = Some (VInt (goals stats), h')).
  { intros h' Hu. eapply getitem_at; [apply Hu, Hs|reflexivity]. }
  assert (Hassists : forall h', unchanged h0 h' ->
            getitem (VRef s) (field "assists") h' = Some (VInt (assists stats), h')).
  { intros h' Hu. eapply getitem_at; [apply Hu, Hs|reflexivity]. }
  unfold loop_body, aggregate_item.
  erewrite bind_Some by (apply get_at, HR1).
  rewrite dict_get_map_VStr.
  destruct (dict_get k roster) as [team|]; cbn [option_map truth];
    [destruct (truthy team)|]; unfold bind at 1, ret at 1;
    try apply (append_unmatched_spec s Hs Inv).
  erewrite bind_Some by (apply Hgoals, (invariant_unchanged Inv)).
  erewrite bind_Some by (apply Hassists, (invariant_unchanged Inv)).
  unfold add at 1. unfold bind at 1, ret at 1.
  destruct (@iadd_item_spec h roles d u team "points" (goals stats + assists stats)
              (add_points (goals stats + assists stats))
              (ret (VInt (goals stats + assists stats))) Inv)
    as (h1 & roles1 & Hrun1 & Inv1);
    [intros t p; eexists _, _; split; [reflexivity|]; split; reflexivity
    |reflexivity|reflexivity|].
  erewrite bind_Some by exact Hrun1.
  destruct (@iadd_item_spec h1 roles1 _ u team "goals" (goals stats)
              (add_goals (goals stats)) (getitem (VRef s) (field "goals")) Inv1)
    as (h2 & roles2 & Hrun2 & Inv2);
    [intros t p; eexists _, _; split; [reflexivity|]; split; reflexivity
    |reflexivity|exact Hgoals|].
  erewrite bind_Some by exact Hrun2.
  destruct (@iadd_item_spec h2 roles2 _ u team "assists" (assists stats)
              (add_assists (assists stats)) (getitem (VRef s) (field "assists")) Inv2)
    as (h3 & roles3 & Hrun3 & Inv3);
    [intros t p; eexists _, _; split; [reflexivity|]; split; reflexivity
    |reflexivity|exact Hassists|].
  erewrite bind_Some by exact Hrun3.
  destruct (append_player_spec team s Hs Inv3) as (h4 & roles4 & Hrun4 & Inv4).
  exists h4, roles4. split; [exact Hrun4|exact Inv4].
Qed.

Lemma for_items_unfold size todo d body :
  for_items size todo d body
  = (its <- items d ;;
     if negb (List.length its =? size)%nat then raise
     else match todo with
          | O => ret tt
          | S todo' =>
              match nth_error its (size - todo)%nat with
              | Some (k, v) => body (VStr k) v ;; for_items size todo' d body
              | None => raise
              end
          end).
Proof. destruct todo; reflexivity. Qed.

(** The loop, from any of its turns on. *)
Lemma for_items_spec A R roster its :
  nth_error h0 A = Some (ODict its) ->
  nth_error h0 R = Some (ODict (map (fun e => (fst e, VStr (snd e))) roster)) ->
  forall rest irest idone h roles d u,
    its = idone ++ irest ->
    Forall2 (fun (e : str * Stats) (i : str * value) =>
               fst i = fst e /\ points_to h0 (snd i) (stats_object (snd e))) rest irest ->
    invariant h0 T M h roles d u ->
    exists h' roles',
      for_items (List.length its) (List.length irest) (VRef A)
        (loop_body (VRef T) (VRef M) (VRef R)) h = Some (tt, h') /\
      invariant h0 T M h' roles'
        (fst (fold_left (aggregate_item roster) rest (d, u)))
        (snd (fold_left (aggregate_item roster) rest (d, u))).
Proof.
  intros HA HR. induction rest as [|[k stats] rest IH];
    intros irest idone h roles d u E F Inv; inversion F as [|? i ? irest' Hi F']; subst;
    rewrite for_items_unfold;
    (erewrite bind_Some by (apply items_at, (invariant_unchanged Inv _ HA)));
    rewrite Nat.eqb_refl; cbn [negb].
  - exists h, roles. split; [reflexivity|exact Inv].
  - destruct i as [k' v]. destruct Hi as (Hk & s & Hv & Hs).
    simpl in Hk, Hv, Hs. subst k' v.
    assert (Hnth : nth_error (idone ++ (k, VRef s) :: irest')
                     (List.length (idone ++ (k, VRef s) :: irest')
                      - List.length ((k, VRef s) :: irest'))
                   = Some (k, VRef s)).
    { rewrite length_app, Nat.add_sub.
      rewrite nth_error_app2, Nat.sub_diag; [reflexivity|lia]. }
    cbn [List.length] in Hnth |- *. rewrite Hnth.
    destruct (@loop_body_spec R roster h roles d u k s stats HR Hs Inv)
      as (h1 & roles1 & Hrun & Inv1).
    erewrite bind_Some by exact Hrun.
    cbn [fold_left].
    destruct (aggregate_item roster (d, u) (k, stats)) as [d1 u1]. simpl in Inv1.
    apply (IH irest' (idone ++ [(k, VRef s)]) h1 roles1 d1 u1); [|assumption|assumption].
    now rewrite <- app_assoc.
Qed.

End Loop.

Lemma invariant_holds h0 T M h roles d u :
  invariant h0 T M h roles d u ->
  holds_teams h d (VRef T) /\ holds_unmatched h u (VRef M).
Proof.
  intros (_ & _ & (its & HT & F) & (lm & vs & -> & Hm & Fu) & _). split.
  - exists its. split; [exists T; split; [reflexivity|apply HT]|].
    eapply Forall2_impl_In; [|exact F].
    intros e i _ (Hk & l & p & Hl & Hat & (pl & pvs & -> & Hpl & Fp)).
    split; [assumption|]. exists (VRef pl). split.
    + exists l. split; [assumption|apply Hat].
    + exists pvs. split; [exists pl; split; [reflexivity|apply Hpl]|].
      eapply Forall2_impl_In; [|exact Fp]. intros x y _ (l' & -> & Hx).
      exists l'. split; [reflexivity|apply Hx].
  - exists vs. split; [exists lm; split; [reflexivity|apply Hm]|].
    eapply Forall2_impl_In; [|exact Fu]. intros x y _ (l' & -> & Hx).
    exists l'. split; [reflexivity|apply Hx].
Qed.

Lemma unchanged_points_to h h' v o : unchanged h h' -> points_to h v o -> points_to h' v o.
Proof. intros Hu (l & -> & Hl). exists l. split; [reflexivity|now apply Hu]. Qed.

Lemma unchanged_holds_source h h' src v :
  unchanged h h' -> holds_source h src v -> holds_source h' src v.
Proof.
  intros Hu (its & Hv & F). exists its. split; [now apply (unchanged_points_to Hu)|].
  eapply Forall2_impl_In; [|exact F]. intros e i _ [Hk Hp].
  split; [assumption|now apply (unchanged_points_to Hu)].
Qed.

(** The loop on the heap does what [aggregate_loop] does, and writes to the
    objects that it has made only. *)
Lemma aggregation_loop_spec h src roster A R :
  holds_source h src A -> holds_roster h roster R ->
  exists T M h',
    aggregation_loop A R h = Some ((T, M), h') /\
    unchanged h h' /\
    holds_source h' src A /\ holds_roster h' roster R /\
    holds_teams h' (fst (aggregate_loop src roster)) T /\
    holds_unmatched h' (snd (aggregate_loop src roster)) M.
Proof.
  intros HA HR. pose proof HA as (its & (a & -> & Ha) & F).
  pose proof HR as (r & -> & Hr).
  set (T := List.length h).
  set (h1 := h ++ [ODict []]).
  set (M := List.length h1).
  set (h2 := h1 ++ [OList []]).
  set (roles2 := (repeat ROld (List.length h) ++ [RTeams]) ++ [RUnmatched]).
  assert (Hlen1 : List.length (repeat ROld (List.length h) ++ [RTeams]) = List.length h1)
    by (unfold h1; rewrite !length_app, repeat_length; reflexivity).
  assert (Inv : invariant h T M h2 roles2 [] []).
  { split; [|split; [|split; [|split]]].
    - unfold roles2, h2. rewrite (length_app _ [RUnmatched]), (length_app _ [OList []]).
      now rewrite Hlen1.
    - intros l o Hl. split; [now do 2 apply nth_error_app_Some|].
      do 2 apply nth_error_app_Some. apply nth_error_repeat.
      apply nth_error_Some. congruence.
    - exists []. split; [|constructor]. apply at_alloc_old.
      apply at_alloc. apply repeat_length.
    - exists M, []. split; [reflexivity|]. split; [|constructor]. now apply at_alloc.
    - constructor. }
  destruct (@for_items_spec h T M a r roster its Ha Hr src its [] h2 roles2 [] []
              eq_refl F Inv) as (h' & roles' & Hrun & Inv').
  exists (VRef T), (VRef M), h'.
  pose proof (invariant_unchanged Inv') as Hu.
  destruct (invariant_holds Inv') as [Ht Hm].
  split; [|split; [exact Hu|split; [|split; [|split]]]].
  - unfold aggregation_loop, alloc. unfold bind at 1. unfold bind at 1.
    fold T h1. fold M h2.
    erewrite bind_Some by (apply items_at, (invariant_unchanged Inv _ Ha)).
    erewrite bind_Some by exact Hrun. reflexivity.
  - now apply (unchanged_holds_source Hu).
  - now apply (unchanged_points_to Hu).
  - exact Ht.
  - exact Hm.
Qed.

(** *** The ranking *)

Lemma unchanged_refl h : unchanged h h.
Proof. now intros l o H. Qed.

Lemma unchanged_trans h1 h2 h3 : unchanged h1 h2 -> unchanged h2 h3 -> unchanged h1 h3.
Proof. intros H1 H2 l o H. now apply H2, H1. Qed.

Lemma unchanged_alloc h o : unchanged h (h ++ [o]).
Proof. intros l o' H. now apply nth_error_app_Some. Qed.

Lemma unchanged_holds_list {A : Type} (repr : A -> object) h h' xs v :
  unchanged h h' -> holds_list repr h xs v -> holds_list repr h' xs v.
Proof.
  intros Hu (vs & Hv & F). exists vs. split; [now apply (unchanged_points_to Hu)|].
  eapply Forall2_impl_In; [|exact F]. intros x y _. apply (unchanged_points_to Hu).
Qed.

Lemma unchanged_holds_team h h' t v :
  unchanged h h' -> holds_team h t v -> holds_team h' t v.
Proof.
  intros Hu (p & Hv & Hp). exists p. split; [now apply (unchanged_points_to Hu)|].
  now apply (unchanged_holds_list Hu).
Qed.

Lemma item_tuples_spec d :
  forall its h,
    Forall2 (fun (e : str * TeamStats) (i : str * value) =>
               fst i = fst e /\ holds_team h (snd e) (snd i)) d its ->
    exists ts h',
      item_tuples its h = Some (ts, h') /\ unchanged h h' /\
      Forall2 (fun e x => exists entry,
                 points_to h' x (OTuple [VStr (fst e); entry]) /\
                 holds_team h' (snd e) entry) d ts.
Proof.
  induction d as [|[k t] d IH]; intros its h F; inversion F as [|? [k' v] ? its' [Hk Hv] F']; subst.
  - exists [], h. split; [reflexivity|]. split; [apply unchanged_refl|constructor].
  - simpl in Hk, Hv. subst k'.
    pose proof (unchanged_alloc h (OTuple [VStr k; v])) as Hu1.
    destruct (IH its' (h ++ [OTuple [VStr k; v]])) as (ts & h' & Hrun & Hu & Fts).
    { eapply Forall2_impl_In; [|exact F']. intros e i _ [He Hi].
      split; [assumption|now apply (unchanged_holds_team Hu1)]. }
    exists (VRef (List.length h) :: ts), h'. split; [|split].
    + cbn [item_tuples]. unfold alloc at 1. unfold bind at 1.
      erewrite bind_Some by exact Hrun. reflexivity.
    + now apply (unchanged_trans Hu1).
    + constructor; [|assumption]. exists v. split.
      * exists (List.length h). split; [reflexivity|]. apply Hu.
        rewrite nth_error_app2, Nat.sub_diag; [reflexivity|lia].
      * apply (unchanged_holds_team (unchanged_trans Hu1 Hu)). exact Hv.
Qed.

Lemma team_key_spec h e x :
  (exists entry, points_to h x (OTuple [VStr (fst e); entry]) /\
                 holds_team h (snd e) entry) ->
  team_key x h = Some (rank_key e, h).
Proof.
  intros (entry & (l & -> & Hl) & (p & (lt & -> & Ht) & _)).
  assert (Hindex : index (VRef l) 1 h = Some (VRef lt, h)).
  { unfold index, bind, load. now rewrite Hl. }
  unfold team_key.
  erewrite bind_Some by exact Hindex.
  erewrite bind_Some by (eapply getitem_at; [exact Ht|reflexivity]).
  erewrite bind_Some by exact Hindex.
  erewrite bind_Some by (eapply getitem_at; [exact Ht|reflexivity]).
  reflexivity.
Qed.

Lemma keys_of_spec h d ts :
  Forall2 (fun e x => exists entry,
             points_to h x (OTuple [VStr (fst e); entry]) /\
             holds_team h (snd e) entry) d ts ->
  keys_of team_key ts h = Some (map rank_key d, h).
Proof.
  induction 1 as [|e x d ts Hex F IH]; [reflexivity|].
  cbn [keys_of map]. erewrite bind_Some by (apply team_key_spec, Hex).
  erewrite bind_Some by exact IH. reflexivity.
Qed.

(** The sort moves two lists that go together in the same way. *)
Section SortTogether.
Variables A B : Type.
Variable key : A -> Z * Z.
Variable key' : B -> Z * Z.
Variable R : A -> B -> Prop.
Hypothesis same_key : forall x y, R x y -> key x = key' y.

Lemma insert_stable_together x y l l' :
  R x y -> Forall2 R l l' ->
  Forall2 R (insert_stable key x l) (insert_stable key' y l').
Proof.
  intros Hxy F. induction F as [|a b l l' Hab F IH]; cbn [insert_stable].
  - now repeat constructor.
  - rewrite <- (same_key Hxy), <- (same_key Hab).
    destruct (tuple_leb (key x) (key a)); repeat (constructor; try assumption).
Qed.

Lemma stable_sort_together l l' :
  Forall2 R l l' -> Forall2 R (stable_sort key l) (stable_sort key' l').
Proof.
  induction 1 as [|a b l l' Hab F IH]; [constructor|].
  cbn [stable_sort fold_right]. now apply insert_stable_together.
Qed.

Lemma Forall2_rev_together l l' : Forall2 R l l' -> Forall2 R (rev l) (rev l').
Proof.
  induction 1 as [|a b l l' Hab F IH]; [constructor|].
  cbn [rev]. apply Forall2_app; [assumption|now repeat constructor].
Qed.

Lemma sorted_together reverse l l' :
  Forall2 R l l' -> Forall2 R (sorted key reverse l) (sorted key' reverse l').
Proof.
  intros F. unfold sorted. destruct reverse.
  - now apply Forall2_rev_together, stable_sort_together, Forall2_rev_together.
  - now apply stable_sort_together.
Qed.
End SortTogether.

Lemma Forall2_map_right {A B C : Type} (R : A -> C -> Prop) (f : B -> C) l l' :
  Forall2 (fun x y => R x (f y)) l l' -> Forall2 R l (map f l').
Proof. induction 1; constructor; assumption. Qed.

Lemma Forall2_combine_keys {A B : Type} (key : A -> Z * Z) (R : A -> B -> Prop) l l' :
  Forall2 R l l' ->
  Forall2 (fun x (y : Z * Z * B) => key x = fst y /\ R x (snd y)) l
    (combine (map key l) l').
Proof. induction 1; constructor; [split|]; auto. Qed.

(** [sorted(..., key=..., reverse=True)] *)
Lemma sorted_list_spec h d ts :
  Forall2 (fun e x => exists entry,
             points_to h x (OTuple [VStr (fst e); entry]) /\
             holds_team h (snd e) entry) d ts ->
  exists v h',
    sorted_list team_key true ts h = Some (v, h') /\ unchanged h h' /\
    holds_ranking h' (sorted_teams d) v.
Proof.
  intros F. unfold sorted_list. erewrite bind_Some by (apply keys_of_spec, F).
  set (vs := map snd (sorted fst true (combine (map rank_key d) ts))).
  pose proof (unchanged_alloc h (OList vs)) as Hu.
  exists (VRef (List.length h)), (h ++ [OList vs]). split; [reflexivity|].
  split; [exact Hu|]. exists vs. split.
  - exists (List.length h). split; [reflexivity|].
    rewrite nth_error_app2, Nat.sub_diag; [reflexivity|lia].
  - unfold vs, sorted_teams. apply Forall2_map_right.
    eapply Forall2_impl_In;
      [|apply (@sorted_together _ _ rank_key fst
                 (fun e (y : Z * Z * value) =>
                    rank_key e = fst y /\
                    exists entry,
                      points_to h (snd y) (OTuple [VStr (fst e); entry]) /\
                      holds_team h (snd e) entry));
        [now intros x y [E _]|exact (Forall2_combine_keys rank_key F)]].
    intros e y _ (_ & entry & Hx & Ht). exists entry.
    split; [now apply (unchanged_points_to Hu)|now apply (unchanged_holds_team Hu)].
Qed.

(** Step 3 and the ranking on the heap: what [aggregate] computes, in
    objects that the step has made. *)
Lemma aggregation_spec h src roster A R :
  holds_source h src A -> holds_roster h roster R ->
  exists ranking unmatched h',
    aggregation A R h = Some ((ranking, unmatched), h') /\
    unchanged h h' /\
    holds_source h' src A /\ holds_roster h' roster R /\
    holds_ranking h' (fst (aggregate src roster)) ranking /\
    holds_unmatched h' (snd (aggregate src roster)) unmatched.
Proof.
  intros HA HR.
  destruct (aggregation_loop_spec HA HR)
    as (T & M & h1 & Hrun & Hu1 & _ & _ & (its & (lt & -> & Hlt) & Ft) & Hm).
  destruct (item_tuples_spec Ft) as (ts & h2 & Hrun2 & Hu2 & Fts).
  destruct (sorted_list_spec Fts) as (v & h3 & Hrun3 & Hu3 & Hv).
  pose proof (unchanged_trans Hu1 (unchanged_trans Hu2 Hu3)) as Hu.
  exists v, M, h3. split; [|split; [exact Hu|split; [|split; [|split]]]].
  - unfold aggregation. erewrite bind_Some by exact Hrun. cbn [fst snd].
    erewrite bind_Some by (apply items_at, Hlt).
    erewrite bind_Some by exact Hrun2.
    erewrite bind_Some by exact Hrun3. reflexivity.
  - now apply (unchanged_holds_source Hu).
  - now apply (unchanged_points_to Hu).
  - rewrite aggregate_fst. exact Hv.
  - rewrite aggregate_snd.
    apply (unchanged_holds_list (unchanged_trans Hu2 Hu3)). exact Hm.
Qed.

End HeapFacts.

(** ** What the outputs depend on *)

(** C9, as the claim has it: the outputs are a function of the two maps. The
    two sample sources are one map, they answer every lookup alike and hold
    the same items, and the ranking of the one begins with Boston, that of
    the other with Toronto. *)
Lemma equal_maps_aggregate_differently :
  same_map Sample.tie_source Sample.tie_source' /\
  Permutation Sample.tie_source Sample.tie_source' /\
  aggregate Sample.tie_source Sample.tie_roster
  <> aggregate Sample.tie_source' Sample.tie_roster.
Proof.
  split; [exact tie_sources_same_map|]. split; [apply perm_swap|].
  intros E. apply (f_equal (fun out => keys (fst out))) in E.
  vm_compute in E. discriminate E.
Qed.

(** C9: what the outputs of the aggregation step depend on, and what the step
    writes to.
    - The roster counts as a mapping: two rosters that answer every lookup
      alike give the same outputs.
    - The source counts with the order of its items. Two sources with the
      same items in another order give the same unmatched records, the same
      teams, for each team the same players and the same totals, and the same
      (points, goals) down the ranking; the order of the unmatched records,
      of the players of a team and of tied teams is all that can differ.
    - On any heap that holds the two maps, the step ends without an
      exception; every object that was on the heap is as it was, so that the
      two maps are still held; and [sorted_teams] and [unmatched_players]
      hold what [aggregate] computes from the contents of the maps, wherever
      the objects lie. *)
Theorem aggregation_is_pure_up_to_source_order (src : dict Stats) (roster : dict str) :
  (forall roster',
     same_map roster roster' -> aggregate src roster = aggregate src roster') /\
  (forall src',
     Permutation src src' ->
     Permutation (snd (aggregate src roster)) (snd (aggregate src' roster)) /\
     Permutation (keys (fst (aggregate src roster))) (keys (fst (aggregate src' roster))) /\
     (forall team,
        Permutation (players_of team (fst (aggregate src roster)))
          (players_of team (fst (aggregate src' roster))) /\
        totals_of team (fst (aggregate src roster))
        = totals_of team (fst (aggregate src' roster))) /\
     map rank_key (fst (aggregate src roster))
     = map rank_key (fst (aggregate src' roster))) /\
  (forall h all_player_stats player_to_team,
     Heap.holds_source h src all_player_stats ->
     Heap.holds_roster h roster player_to_team ->
     exists sorted_teams unmatched_players h',
       Heap.aggregation all_player_stats player_to_team h
       = Some ((sorted_teams, unmatched_players), h') /\
       Heap.unchanged h h' /\
       Heap.holds_source h' src all_player_stats /\
       Heap.holds_roster h' roster player_to_team /\
       Heap.holds_ranking h' (fst (aggregate src roster)) sorted_teams /\
       Heap.holds_unmatched h' (snd (aggregate src roster)) unmatched_players).
Proof.
  split; [|split].
  - intros roster'. apply aggregate_same_roster.
  - intros src'. apply aggregate_source_order.
  - intros h A R. apply HeapFacts.aggregation_spec.
Qed.

Lemma aggregation_is_pure_up_to_source_order_witness :
  aggregate Sample.tie_source Sample.tie_roster
  = aggregate Sample.tie_source (rev Sample.tie_roster) /\
  map rank_key (fst (aggregate Sample.tie_source Sample.tie_roster))
  = map rank_key (fst (aggregate Sample.tie_source' Sample.tie_roster)) /\
  exists sorted_teams unmatched_players h',
    Heap.aggregation SampleHeap.tie_source_ref SampleHeap.tie_roster_ref
      SampleHeap.tie_heap
    = Some ((sorted_teams, unmatched_players), h') /\
    Heap.unchanged SampleHeap.tie_heap h' /\
    Heap.holds_ranking h' (fst (aggregate Sample.tie_source Sample.tie_roster))
      sorted_teams.
Proof.
  destruct (aggregation_is_pure_up_to_source_order Sample.tie_source Sample.tie_roster)
    as (Hroster & Hsource & Hheap).
  split; [|split].
  - apply Hroster. intros k. unfold Sample.tie_roster. cbn [rev app dict_get].
    destruct (str_eq_dec k (lit "al alpha")) as [Ha|Ha],
             (str_eq_dec k (lit "bo beta")) as [Hb|Hb]; try reflexivity.
    rewrite Ha in Hb. discriminate Hb.
  - apply (Hsource Sample.tie_source'). apply perm_swap.
  - destruct (Hheap SampleHeap.tie_heap SampleHeap.tie_source_ref
                SampleHeap.tie_roster_ref)
      as (T & M & h' & Hrun & Hu & _ & _ & Ht & _).
    + eexists. split; [exists 2%nat; split; reflexivity|].
      repeat constructor; eexists; split; reflexivity.
    + exists 3%nat. split; reflexivity.
    + exists T, M, h'. repeat split; assumption.
Defined.
